(** * musa_tts: training engine, epoch runners and decode-time expansion

    A shallow embedding of the control logic of [musa/core.py]:
    [train_engine], the option handling and loss logging of
    [train_dur_epoch] / [train_aco_epoch], the speaker check of
    [eval_aco_epoch] / [eval_attaco_epoch], and the duration handling,
    frame expansion and post-processing of [synthesize] /
    [att_synthesize].

    Conventions.
    - Real-valued quantities (durations, losses, acoustic features) are
      exact rationals [Q] wherever the property at hand depends neither
      on rounding nor on the special values of floating point.
    - The number of frames of a unit does depend on rounding: for it the
      expansion loop is given over binary64 numbers ([Expander64]).
    - The floor of the tilt channel depends on NaN: for it the samples
      are rationals, infinities or NaN ([PostProcIEEE]).
    - Python dictionaries are [gmap]s, Python lists are [list]s.
    - A Python exception is a value of [exn]; a computation that may raise
      returns a [result]. *)

From Stdlib Require Import QArith Qabs Qround Qpower ZArith Lia Lqa List Bool.
From Stdlib Require Import Floats.
From stdpp Require Import gmap strings list.

Set Default Proof Using "Type".

(** ** Exceptions *)

Inductive exn : Set :=
| ValueError
| KeyError
| AttributeError
| AssertionError
| ZeroDivisionError
| IndexError
| NotImplementedError.

Inductive result (A : Type) : Type :=
| Ok (a : A)
| Raise (e : exn).
Arguments Ok {A} a.
Arguments Raise {A} e.

#[global] Instance result_ret : MRet result := fun _ a => Ok a.
#[global] Instance result_bind : MBind result := fun _ _ k r =>
  match r with
  | Ok a => k a
  | Raise e => Raise e
  end.

(** ** Rational helpers *)

Definition Qltb (x y : Q) : bool := negb (Qle_bool y x).

(** ** Duration-to-frame expansion ([synthesize], [att_synthesize]) *)

Module Expander.

(** The two loop conditions: [while reldur_c <= dur_t] in [synthesize],
    [while reldur_c < dur_t] in [att_synthesize]. *)
Inductive policy : Set := Inclusive | Exclusive.

(** [reldur_c += 0.005] *)
Definition stride : Q := 5 # 1000.

Definition in_unit (p : policy) (reldur_c dur_t : Q) : bool :=
  match p with
  | Inclusive => Qle_bool reldur_c dur_t
  | Exclusive => Qltb reldur_c dur_t
  end.

(** One entry of [aco_inputs]: the label code of the unit followed by the
    relative position and the normalized duration. *)
Record query : Type := Query {
  q_code : list Q;
  q_reldur : Q;
  q_ndur : Q
}.

(** [np.concatenate((lab_codes[t, 0, :], np.array([n_reldur, ndur])))] *)
Definition query_vector (q : query) : list Q :=
  q_code q ++ [q_reldur q; q_ndur q].

(** The inner [while] loop for one unit, started at [reldur_c].  [None]
    means that the fuel ran out before the loop condition failed.  The
    division [float(reldur_c) / dur_t] raises when [dur_t] is zero. *)
Fixpoint unit_loop (p : policy) (fuel : nat) (code : list Q)
    (ndur dur_t reldur_c : Q) : option (result (list query)) :=
  match fuel with
  | O => None
  | S fuel' =>
      if in_unit p reldur_c dur_t then
        if Qeq_bool dur_t 0 then Some (Raise ZeroDivisionError)
        else
          let n_reldur := (reldur_c / dur_t)%Q in
          let reldur_c' := (reldur_c + stride)%Q in
          match unit_loop p fuel' code ndur dur_t reldur_c' with
          | Some (Ok qs) => Some (Ok (Query code n_reldur ndur :: qs))
          | other => other
          end
      else Some (Ok [])
  end.

(** The body of [for t in range(ndurs.size(0))] for one unit:
    [reldur_c = 0.] and then the loop. *)
Definition expand_unit (p : policy) (fuel : nat) (code : list Q)
    (ndur dur_t : Q) : option (result (list query)) :=
  unit_loop p fuel code ndur dur_t 0.

(** A unit as the outer loop sees it: its label code, its normalized
    duration [ndurs[t]] and its physical duration [dur[t]]. *)
Record unit_in : Type := UnitIn {
  u_code : list Q;
  u_ndur : Q;
  u_dur : Q
}.

(** The outer loop: the queries of all units, in order. *)
Fixpoint expand (p : policy) (fuel : nat) (units : list unit_in)
    : option (result (list query)) :=
  match units with
  | [] => Some (Ok [])
  | u :: rest =>
      match expand_unit p fuel (u_code u) (u_ndur u) (u_dur u) with
      | Some (Ok qs) =>
          match expand p fuel rest with
          | Some (Ok qs') => Some (Ok (qs ++ qs'))
          | other => other
          end
      | other => other
      end
  end.

(** [aco_seqlen = len(aco_inputs)] *)
Definition aco_seqlen (qs : list query) : nat := length qs.

(** The value of [reldur_c] after [k] additions of the stride. *)
Definition reldur_at (k : nat) (c : Q) : Q :=
  Nat.iter k (fun x => (x + stride)%Q) c.

(** The queries emitted for loop indices [0 .. n-1] starting from [c]. *)
Definition queries_from (code : list Q) (ndur dur_t c : Q) (n : nat)
    : list query :=
  map (fun k => Query code (reldur_at k c / dur_t)%Q ndur) (seq 0 n).

End Expander.

(** ** Binary64 numbers

    The loop of the synthesis drivers accumulates time in Python floats,
    that is in binary64, and compares it with a duration that
    [np.asscalar] read from a float32 tensor.  Frame counts depend on
    that arithmetic, so the drivers' loop is also given over the
    binary64 numbers of [Floats], whose operations are those of the
    hardware. *)

Module Binary64.

(** The rational value of a finite number: [±m * 2 ^ e]. *)
Definition value_sf (x : spec_float) : Q :=
  match x with
  | S754_finite s m e => inject_Z (if s then Z.neg m else Z.pos m) * 2 ^ e
  | _ => 0
  end.

Definition value (x : float) : Q := value_sf (Prim2SF x).

Definition finite_sf (x : spec_float) : bool :=
  match x with
  | S754_finite _ _ _ | S754_zero _ => true
  | _ => false
  end.

(** Neither an infinity nor a NaN. *)
Definition is_finite (x : float) : bool := finite_sf (Prim2SF x).

(** Whether a binary64 number is one a float32 tensor can hold: its
    size fits the float32 exponent range and its mantissa [m], read at
    the float32 exponent [max (size m + e - 24) (-149)] of its
    magnitude, is a whole number. *)
Definition is_float32 (x : float) : bool :=
  match Prim2SF x with
  | S754_finite _ m e =>
      let e32 := Z.max (Z.pos (Pos.size m) + e - 24) (-149) in
      (Z.pos (Pos.size m) + e <=? 128)%Z
      && (Z.pos m mod 2 ^ (e32 - e) =? 0)%Z
  | _ => true
  end.

(** A binary64 mantissa scaled to an integer: all finite binary64
    numbers are multiples of [2 ^ -1074]. *)
Definition scaled (m : positive) (e : Z) : Z := (Z.pos m * 2 ^ (e + 1074))%Z.

End Binary64.

(** ** Duration-to-frame expansion in binary64 *)

Module Expander64.

(** [0.005] as Python reads it, the nearest binary64 number. *)
Definition stride : float := 0x1.47ae147ae147bp-8.

(** [while reldur_c <= dur_t] and [while reldur_c < dur_t] *)
Definition in_unit (p : Expander.policy) (reldur_c dur_t : float) : bool :=
  match p with
  | Expander.Inclusive => (reldur_c <=? dur_t)%float
  | Expander.Exclusive => (reldur_c <? dur_t)%float
  end.

Record query : Type := Query {
  q_code : list float;
  q_reldur : float;
  q_ndur : float
}.

(** The inner [while] loop for one unit, started at [reldur_c].  [None]
    means that the fuel ran out before the loop condition failed.  The
    division [float(reldur_c) / dur_t] of two Python floats raises when
    [dur_t] is a zero of either sign. *)
Fixpoint unit_loop (p : Expander.policy) (fuel : nat) (code : list float)
    (ndur dur_t reldur_c : float) : option (result (list query)) :=
  match fuel with
  | O => None
  | S fuel' =>
      if in_unit p reldur_c dur_t then
        if (dur_t =? 0)%float then Some (Raise ZeroDivisionError)
        else
          let n_reldur := (reldur_c / dur_t)%float in
          let reldur_c' := (reldur_c + stride)%float in
          match unit_loop p fuel' code ndur dur_t reldur_c' with
          | Some (Ok qs) => Some (Ok (Query code n_reldur ndur :: qs))
          | other => other
          end
      else Some (Ok [])
  end.

(** [reldur_c = 0.] and then the loop. *)
Definition expand_unit (p : Expander.policy) (fuel : nat) (code : list float)
    (ndur dur_t : float) : option (result (list query)) :=
  unit_loop p fuel code ndur dur_t 0.

Record unit_in : Type := UnitIn {
  u_code : list float;
  u_ndur : float;
  u_dur : float
}.

(** The outer loop: the queries of all units, in order. *)
Fixpoint expand (p : Expander.policy) (fuel : nat) (units : list unit_in)
    : option (result (list query)) :=
  match units with
  | [] => Some (Ok [])
  | u :: rest =>
      match expand_unit p fuel (u_code u) (u_ndur u) (u_dur u) with
      | Some (Ok qs) =>
          match expand p fuel rest with
          | Some (Ok qs') => Some (Ok (qs ++ qs'))
          | other => other
          end
      | other => other
      end
  end.

(** [aco_seqlen = len(aco_inputs)] *)
Definition aco_seqlen (qs : list query) : nat := length qs.

(** The number of queries a unit yields, when its loop returns. *)
Definition frame_counts (p : Expander.policy) (fuel : nat)
    (code : list float) (ndur d : float) : option nat :=
  match expand_unit p fuel code ndur d with
  | Some (Ok qs) => Some (aco_seqlen qs)
  | _ => None
  end.

(** The value of [reldur_c] after [k] additions of the stride. *)
Definition reldur_at (k : nat) (c : float) : float :=
  Nat.iter k (fun x => (x + stride)%float) c.

(** The queries emitted for loop indices [0 .. n-1] starting from [c]. *)
Definition queries_from (code : list float) (ndur dur_t c : float) (n : nat)
    : list query :=
  map (fun k => Query code (reldur_at k c / dur_t)%float ndur) (seq 0 n).

(** The value of the duration is a whole number of strides of exactly
    5 ms. *)
Definition on_grid (d : Q) : Prop :=
  ∃ k : Z, (d == inject_Z k * Expander.stride)%Q.

(** The queries of a unit whose duration is not on that grid. *)
Definition unit_queries (u : unit_in) : list query :=
  queries_from (u_code u) (u_ndur u) (u_dur u) 0
    (Z.to_nat (Qceiling (Binary64.value (u_dur u) / Expander.stride))).

(** How far the accumulated time may be from [k * 0.005] after [k]
    additions: [k * drift], with [drift = 2 ^ -49]. *)
Definition drift : Q := 1 # 562949953421312.

Definition near_grid (d : Q) (k : Z) : Prop :=
  (inject_Z k * (Expander.stride - drift) <= d
   ∧ d <= inject_Z k * (Expander.stride + drift))%Q.

(** The check that the accumulated time [t], reached after [k]
    additions, is finite and within [k * drift] of [k * 0.005]. *)
Definition tracks (k : Z) (t : float) : bool :=
  Binary64.is_finite t
  && Qle_bool (Qabs (Binary64.value t - inject_Z k * Expander.stride))
              (inject_Z k * drift).

(** The same check along [n] additions from [t]. *)
Fixpoint tracks_from (n : nat) (k : Z) (t : float) : bool :=
  match n with
  | O => true
  | S n' => tracks k t && tracks_from n' (k + 1) (t + stride)%float
  end.

(** None of the [n] accumulated times from [t] on is a float32 value. *)
Fixpoint none_float32 (n : nat) (t : float) : bool :=
  match n with
  | O => true
  | S n' => negb (Binary64.is_float32 t) && none_float32 n' (t + stride)%float
  end.

(** The counts as the specification states them: [floor(d/s) + 1]
    queries under [<=] and [ceil(d/s)] under [<], for the stride
    [s = 0.005]. *)
Definition exact_frame_counts : Prop :=
  ∀ code ndur d fuel qs,
    (0 <? d)%float = true →
    (expand_unit Expander.Inclusive fuel code ndur d = Some (Ok qs) →
     Z.of_nat (aco_seqlen qs)
     = (Qfloor (Binary64.value d / Expander.stride) + 1)%Z)
    ∧ (expand_unit Expander.Exclusive fuel code ndur d = Some (Ok qs) →
       Z.of_nat (aco_seqlen qs)
       = Qceiling (Binary64.value d / Expander.stride)).

(** The float32 number nearest to 0.020, which is what a duration of
    20 ms is once it sits in a float32 tensor:
    0.0199999995529651641845703125. *)
Definition dur_020 : float := 0x1.47ae14p-6.

(** The float32 number nearest to 0.012. *)
Definition dur_012 : float := 0x1.89374cp-7.

End Expander64.

(** ** Duration normalization in the synthesis drivers *)

Module Durations.

(** [durstats = spk2durstats[spk_int]], a dict with keys ['min'], ['max']. *)
Record durstats : Type := DurStats {
  ds_min : Q;
  ds_max : Q
}.

(** [ndurs = (dur - durstats['min']) / (durstats['max'] - durstats['min'])] *)
Definition normalize (st : durstats) (dur : Q) : Q :=
  ((dur - ds_min st) / (ds_max st - ds_min st))%Q.

(** [dur = ndurs * min_dur - max_dur + min_dur] *)
Definition denormalize (st : durstats) (ndurs : Q) : Q :=
  (ndurs * ds_min st - ds_max st + ds_min st)%Q.

(** The inverse of [normalize] as the specification words it:
    [n * (max - min) + min]. *)
Definition denormalize_spec (st : durstats) (n : Q) : Q :=
  (n * (ds_max st - ds_min st) + ds_min st)%Q.

(** The [if force_dur: ... else: ...] block: the pairs
    [(ndurs[t], dur[t])] handed to the expansion loop.  [lab_durs] are the
    durations read from the label file, [predicted] the output of the
    duration model. *)
Definition unit_durations (force_dur : bool) (st : durstats)
    (lab_durs predicted : list Q) : list (Q * Q) :=
  if force_dur then map (fun d => (normalize st d, d)) lab_durs
  else map (fun n => (n, denormalize st n)) predicted.

(** [durstats = spk2durstats[spk_int]] followed by the block above. *)
Definition synth_durations (spk2durstats : gmap Z durstats) (spk_int : Z)
    (force_dur : bool) (lab_durs predicted : list Q)
    : result (list (Q * Q)) :=
  match spk2durstats !! spk_int with
  | None => Raise KeyError
  | Some st => Ok (unit_durations force_dur st lab_durs predicted)
  end.

End Durations.

(** ** The training engine ([train_engine]) *)

Module Engine.

(** [min_va_loss] starts at [np.inf]. *)
Inductive score : Type :=
| Fin (v : Q)
| PosInf.

(** [val_scores[eval_target] < min_va_loss] *)
Definition improves (v : Q) (best : score) : bool :=
  match best with
  | PosInf => true
  | Fin b => Qltb v b
  end.

(** The calls the engine makes to its collaborators, in order. *)
Inductive event : Type :=
| EvTrain (epoch : nat)
| EvEval (epoch : nat)
| EvSchedulerStep (epoch : nat) (v : Q)
| EvSave (epoch : nat) (best_val : bool)
| EvPersistTrain (epoch : nat)
| EvPersistVal (epoch : nat).

Record args (Loader : Type) : Type := Args {
  epochs : nat;
  train_fn : nat → gmap string (list Q);
  eval_fn : option (Loader → nat → gmap string Q);
  val_dloader : option Loader;
  eval_target : option string;
  eval_patience : option Z;
  opt_scheduler : bool
}.
Arguments Args {Loader}.
Arguments epochs {Loader}.
Arguments train_fn {Loader}.
Arguments eval_fn {Loader}.
Arguments val_dloader {Loader}.
Arguments eval_target {Loader}.
Arguments eval_patience {Loader}.
Arguments opt_scheduler {Loader}.

(** The local variables that live across epochs, and the trace of calls. *)
Record state : Type := State {
  tr_loss : gmap string (list (list Q));
  va_loss : gmap string (list Q);
  min_va_loss : score;
  patience : option Z;
  trace : list event
}.

Definition log (ev : event) (st : state) : state :=
  State (tr_loss st) (va_loss st) (min_va_loss st) (patience st)
        (trace st ++ [ev]).

(** [if k not in d: d[k] = [v] else: d[k].append(v)] for every item. *)
Definition accumulate {V} (d : gmap string (list V)) (items : gmap string V)
    : gmap string (list V) :=
  map_fold (fun k v acc => <[k := default [] (acc !! k) ++ [v]]> acc) d items.

(** [if eval_target:] — [None] and the empty string are false. *)
Definition target_given (t : option string) : option string :=
  match t with
  | Some "" => None
  | other => other
  end.

(** How the body of the epoch loop ends. *)
Inductive control : Type :=
| Continue
| Break
| Abort (e : exn).

(** The early-stopping block, entered when [eval_target] is given. *)
Definition monitor {Loader} (a : args Loader) (epoch : nat) (target : string)
    (val_scores : gmap string Q) (st : state) : state * bool * control :=
  match eval_patience a with
  | None => (st, false, Abort ValueError)
  | Some eval_patience =>
      let st := State (tr_loss st) (accumulate (va_loss st) val_scores)
                      (min_va_loss st) (patience st) (trace st) in
      match val_scores !! target with
      | None => (st, false, Abort KeyError)
      | Some v =>
          let st := if opt_scheduler a then log (EvSchedulerStep epoch v) st
                    else st in
          if improves v (min_va_loss st) then
            (State (tr_loss st) (va_loss st) (Fin v) (Some eval_patience)
                   (trace st), true, Continue)
          else
            let patience' := (default 0 (patience st) - 1)%Z in
            let st := State (tr_loss st) (va_loss st) (min_va_loss st)
                            (Some patience') (trace st) in
            if (patience' =? 0)%Z then (st, false, Break)
            else (st, false, Continue)
      end
  end.

(** The part of the loop body after the evaluation block: checkpoint and
    persistence of the loss histories. *)
Definition checkpoint {Loader} (a : args Loader) (epoch : nat)
    (best_model : bool) (st : state) : state :=
  let st := log (EvSave epoch best_model) st in
  let st := log (EvPersistTrain epoch) st in
  match target_given (eval_target a) with
  | Some _ => log (EvPersistVal epoch) st
  | None => st
  end.

(** One iteration of [for epoch in range(epochs)]. *)
Definition epoch_body {Loader} (a : args Loader) (epoch : nat) (st : state)
    : state * control :=
  let tr_e_loss := train_fn a epoch in
  let st := log (EvTrain epoch) st in
  let st := State (accumulate (tr_loss st) tr_e_loss) (va_loss st)
                  (min_va_loss st) (patience st) (trace st) in
  match eval_fn a with
  | None => (checkpoint a epoch false st, Continue)
  | Some eval_fn =>
      match val_dloader a with
      | None => (st, Abort ValueError)
      | Some loader =>
          let val_scores := eval_fn loader epoch in
          let st := log (EvEval epoch) st in
          match target_given (eval_target a) with
          | None => (checkpoint a epoch false st, Continue)
          | Some target =>
              match monitor a epoch target val_scores st with
              | (st, best_model, Continue) =>
                  (checkpoint a epoch best_model st, Continue)
              | (st, _, stop) => (st, stop)
              end
          end
      end
  end.

(** How the whole run ends. *)
Inductive outcome : Type :=
| Completed
| EarlyStopped (epoch : nat)
| Failed (epoch : nat) (e : exn).

Fixpoint run_epochs {Loader} (a : args Loader) (todo : list nat) (st : state)
    : state * outcome :=
  match todo with
  | [] => (st, Completed)
  | epoch :: rest =>
      match epoch_body a epoch st with
      | (st, Continue) => run_epochs a rest st
      | (st, Break) => (st, EarlyStopped epoch)
      | (st, Abort e) => (st, Failed epoch e)
      end
  end.

(** [train_engine]: the state before the loop, then the loop. *)
Definition train_engine {Loader} (a : args Loader) : state * outcome :=
  run_epochs a (seq 0 (epochs a))
             (State ∅ ∅ PosInf (eval_patience a) []).

(** Projections of a trace. *)
Definition trained_epochs (tr : list event) : list nat :=
  omap (fun ev => match ev with EvTrain e => Some e | _ => None end) tr.

Definition evaluated_epochs (tr : list event) : list nat :=
  omap (fun ev => match ev with EvEval e => Some e | _ => None end) tr.

Definition saves (tr : list event) : list (nat * bool) :=
  omap (fun ev => match ev with EvSave e b => Some (e, b) | _ => None end) tr.

(** The call [opt_scheduler.step(v)], made when a scheduler is given. *)
Definition scheduler_events {Loader} (a : args Loader) (epoch : nat) (v : Q)
    : list event :=
  if opt_scheduler a then [EvSchedulerStep epoch v] else [].

(** The checkpoint that ends up marked best: the last one saved with
    [best_val=True]. *)
Definition best_checkpoint (tr : list event) : option nat :=
  last (omap (fun '(e, b) => if b : bool then Some e else None) (saves tr)).

(** The property as the specification words it: with an evaluation
    function and no validation loader the run fails before any epoch is
    trained. *)
Definition fails_before_training : Prop :=
  ∀ (a : args unit) f,
    eval_fn a = Some f → val_dloader a = None →
    ∃ st epoch, train_engine a = (st, Failed epoch ValueError)
                ∧ trained_epochs (trace st) = [].

End Engine.

(** ** The speaker check of the evaluation runners
       ([eval_aco_epoch], [eval_attaco_epoch]) *)

Module SpeakerCheck.

(** The Python values the check builds. *)
#[warnings="-register-all"]
Inductive pyval : Type :=
| PyBool (b : bool)
| PyArray (a : list (list Z))
| PyTuple (items : list pyval).

(** Truth value of an object as [assert] takes it: a tuple is true when
    it is not empty; an array of more than one element has no truth
    value. *)
Definition truth (v : pyval) : result bool :=
  match v with
  | PyBool b => Ok b
  | PyTuple items => Ok (negb (bool_decide (items = [])))
  | PyArray a =>
      match concat a with
      | [] => Ok false
      | [x] => Ok (negb (x =? 0)%Z)
      | _ => Raise ValueError
      end
  end.

(** [np.all(spk_npy == x)] *)
Definition np_all_eq (spk_npy : list (list Z)) (x : Z) : bool :=
  forallb (forallb (Z.eqb x)) spk_npy.

(** [assert v] *)
Definition py_assert (v : pyval) : result unit :=
  b ← truth v;
  if b : bool then Ok () else Raise AssertionError.

(** The three lines
    [spk_npy = spk_b.cpu().data.numpy()],
    [all_comp = np.all(spk_npy == spk_npy[0, 0]), spk_npy],
    [assert all_comp]:
    the right-hand side of the second line is a pair. *)
Definition speaker_check (spk_npy : list (list Z)) : result unit :=
  match spk_npy with
  | (s00 :: _) :: _ =>
      let all_comp :=
        PyTuple [PyBool (np_all_eq spk_npy s00); PyArray spk_npy] in
      py_assert all_comp
  | _ => Raise IndexError
  end.

(** The check as the specification words it: the batch passes only when
    every speaker id equals the first one. *)
Definition speaker_check_spec (spk_npy : list (list Z)) : result unit :=
  match spk_npy with
  | (s00 :: _) :: _ => py_assert (PyBool (np_all_eq spk_npy s00))
  | _ => Raise IndexError
  end.

(** A batch holds two distinct speaker ids. *)
Definition two_speakers (spk_npy : list (list Z)) : Prop :=
  ∃ x y, x ∈ concat spk_npy ∧ y ∈ concat spk_npy ∧ x ≠ y.

End SpeakerCheck.

(** ** Options of [train_dur_epoch] *)

Module DurOpts.

(** Values found in the option dictionaries. *)
Inductive optval : Type :=
| VNone
| VBool (b : bool)
| VInt (n : Z)
| VStr (s : string)
| VIdx2spk (m : gmap Z string)
| VDurStats (m : gmap string Durations.durstats).

(** Truth value of an option value ([if mulout:]). *)
Definition truthy (v : optval) : bool :=
  match v with
  | VNone => false
  | VBool b => b
  | VInt n => negb (n =? 0)%Z
  | VStr s => negb (bool_decide (s = ""))
  | VIdx2spk m => negb (bool_decide (m = ∅))
  | VDurStats m => negb (bool_decide (m = ∅))
  end.

(** [if k in tr_opts: x = tr_opts.pop(k)] *)
Definition pop (k : string) (tr_opts : gmap string optval)
    : option optval * gmap string optval :=
  (tr_opts !! k, delete k tr_opts).

(** The locals set by the option block. *)
Record dur_opts : Type := DurOptsOf {
  stateful : bool;
  spk2durstats : option optval;
  idx2spk : option optval;
  mulout : optval;
  round_N : Z
}.

(** [len(list(idx2spk.keys()))]: only a dictionary has [keys]. *)
Definition n_keys (idx2spk : option optval) : result Z :=
  match idx2spk with
  | Some (VIdx2spk m) => Ok (Z.of_nat (size m))
  | Some (VDurStats m) => Ok (Z.of_nat (size m))
  | _ => Raise AttributeError
  end.

(** The option block at the head of [train_dur_epoch], up to the
    assertion that no option is left. *)
Definition train_dur_opts (tr_opts : gmap string optval) : result dur_opts :=
  let '(st, tr_opts) := pop "stateful" tr_opts in
  let stateful := bool_decide (is_Some st) in
  let '(spk2durstats, tr_opts) := pop "spk2durstats" tr_opts in
  let '(idx2spk, tr_opts) := pop "idx2spk" tr_opts in
  let '(mo, tr_opts) := pop "mulout" tr_opts in
  '(mulout, round_N) ←
    match mo with
    | None => Ok (VBool false, 1%Z)
    | Some v => n ← n_keys idx2spk; Ok (v, n)
    end;
  if bool_decide (size tr_opts = 0%nat)
  then Ok (DurOptsOf stateful spk2durstats idx2spk mulout round_N)
  else Raise AssertionError.

(** What the loop does with the recurrent state at batch [b_idx]. *)
Inductive state_action : Set :=
| InitHidden
| DetachPrevious.

(** [if (stateful and b_idx == 0) or not stateful: init] followed by
    [if stateful and b_idx > 0: detach]. *)
Definition state_actions (stateful : bool) (b_idx : nat)
    : list state_action :=
  (if (stateful && (b_idx =? 0)%nat) || negb stateful
   then [InitHidden] else [])
  ++ (if stateful && (0 <? b_idx)%nat then [DetachPrevious] else []).

(** The state actions of a whole epoch of [num_batches] batches, or the
    exception raised by the option block. *)
Definition epoch_state_actions (tr_opts : gmap string optval)
    (num_batches : nat) : result (list (list state_action)) :=
  o ← train_dur_opts tr_opts;
  Ok (map (state_actions (stateful o)) (seq 0 num_batches)).

End DurOpts.

(** ** Per-speaker loss logging of the training runners
       ([train_dur_epoch], [train_aco_epoch]) *)

Module MOLog.

Inductive runner : Set := Dur | Aco.

(** What the logging code reads of a batch: the speaker index
    [spk_b[0, 0]] and the loss the criterion returned for it. *)
Record batch : Type := Batch {
  b_spk : Z;
  b_loss : Q
}.

(** A line handed to [print]: the composite per-speaker record of a
    multi-output run, or the single loss of a single-output run. *)
Inductive log_record : Type :=
| MORecord (b_idx : nat) (losses : gmap string Q)
| SORecord (b_idx : nat) (loss : Q).

Record log_state : Type := LogState {
  spk_loss_batch : gmap string Q;
  epoch_losses : gmap string (list Q);
  records : list log_record
}.

(** [idx2spk[...]] *)
Definition spk_name (idx2spk : gmap Z string) (spk : Z) : result string :=
  match idx2spk !! spk with
  | Some name => Ok name
  | None => Raise KeyError
  end.

(** [(b_idx + 1) % (round_N * log_freq) == 0 or (b_idx + 1) >= num_batches] *)
Definition log_due (round_N log_freq : Z) (num_batches b_idx : nat)
    : result bool :=
  let period := (round_N * log_freq)%Z in
  if (period =? 0)%Z then Raise ZeroDivisionError
  else Ok (((Z.of_nat b_idx + 1) mod period =? 0)%Z
           || (num_batches <=? b_idx + 1)%nat).

(** ['mo-{}_tr_loss'.format(mok)] *)
Definition loss_mo_name (mok : string) : string :=
  "mo-" +:+ mok +:+ "_tr_loss".

(** [if name not in epoch_losses: epoch_losses[name] = []] and
    [epoch_losses[name].append(v)] *)
Definition append_loss (name : string) (v : Q)
    (epoch_losses : gmap string (list Q)) : gmap string (list Q) :=
  <[name := default [] (epoch_losses !! name) ++ [v]]> epoch_losses.

(** The logging block, entered when the batch is due. *)
Definition emit (mulout : bool) (b_idx : nat) (loss : Q) (st : log_state)
    : log_state :=
  if mulout then
    LogState (spk_loss_batch st)
             (map_fold (fun mok moloss acc =>
                          append_loss (loss_mo_name mok) moloss acc)
                       (epoch_losses st) (spk_loss_batch st))
             (records st ++ [MORecord b_idx (spk_loss_batch st)])
  else
    LogState (spk_loss_batch st)
             (append_loss "tr_loss" loss (epoch_losses st))
             (records st ++ [SORecord b_idx loss]).

(** The logging part of the loop body for batch [b_idx]: the speaker
    lookups, the update of [spk_loss_batch], the logging test and the
    logging block.  [train_aco_epoch] looks the speaker name up for
    every batch, [train_dur_epoch] only in a multi-output run.

    What else the body does before the logging test (the forward pass,
    the criterion, the assertion that the speaker statistics are there,
    the [NotImplementedError] of [train_aco_epoch] under [nll_loss])
    and the distortion measures of the single-output logging block
    leave the logging state alone and are not part of this function: a
    batch at which one of them raises ends the epoch.  The function
    describes the batches that pass them, and what is stated of it
    below is stated of epochs that return. *)
Definition batch_step (r : runner) (mulout : bool) (idx2spk : gmap Z string)
    (round_N log_freq : Z) (num_batches b_idx : nat) (b : batch)
    (st : log_state) : result log_state :=
  _ ← match r with
      | Aco => spk_name idx2spk (b_spk b)
      | Dur => Ok ""
      end;
  st ← (if mulout then
          name ← spk_name idx2spk (b_spk b);
          Ok (LogState (<[name := b_loss b]> (spk_loss_batch st))
                       (epoch_losses st) (records st))
        else Ok st);
  due ← log_due round_N log_freq num_batches b_idx;
  Ok (if due : bool then emit mulout b_idx (b_loss b) st else st).

(** [for b_idx, batch in enumerate(dloader)] from index [b_idx] on. *)
Fixpoint run_batches (r : runner) (mulout : bool) (idx2spk : gmap Z string)
    (round_N log_freq : Z) (num_batches b_idx : nat) (batches : list batch)
    (st : log_state) : result log_state :=
  match batches with
  | [] => Ok st
  | b :: rest =>
      st ← batch_step r mulout idx2spk round_N log_freq num_batches b_idx b st;
      run_batches r mulout idx2spk round_N log_freq num_batches (S b_idx)
                  rest st
  end.

(** One epoch: [spk_loss_batch = {}] and [epoch_losses = {}] are created
    once, before the loop. *)
Definition train_epoch_log (r : runner) (mulout : bool)
    (idx2spk : gmap Z string) (round_N log_freq : Z) (batches : list batch)
    : result log_state :=
  run_batches r mulout idx2spk round_N log_freq (length batches) 0 batches
              (LogState ∅ ∅ []).

(** The names of the speakers of a run of batches. *)
Definition names (idx2spk : gmap Z string) (bs : list batch) : gset string :=
  list_to_set (omap (fun b => idx2spk !! b_spk b) bs).

(** The speakers of the batches with index in [lo, hi). *)
Definition speakers_between (idx2spk : gmap Z string) (batches : list batch)
    (lo hi : nat) : gset string :=
  names idx2spk (take (hi - lo) (drop lo batches)).

(** What holds of the logging state after the batches [pre]: the running
    dictionary holds every speaker met so far, and so does every record
    at the time it was written. *)
Definition log_inv (idx2spk : gmap Z string) (pre : list batch)
    (st : log_state) : Prop :=
  dom (spk_loss_batch st) = names idx2spk pre
  ∧ ∀ k losses, MORecord k losses ∈ records st →
      (k < length pre)%nat
      ∧ dom losses = names idx2spk (take (S k) pre).

(** The property as the specification words it: a composite record holds
    exactly the speakers of the batches processed after the previous
    record was emitted. *)
Definition reset_after_emission : Prop :=
  ∀ r idx2spk round_N log_freq batches st pre b1 l1 b2 l2 post,
    train_epoch_log r true idx2spk round_N log_freq batches = Ok st →
    records st = pre ++ [MORecord b1 l1; MORecord b2 l2] ++ post →
    dom l2 = speakers_between idx2spk batches (S b1) (S b2).

End MOLog.

(** ** Post-processing of the acoustic output
       ([synthesize], [att_synthesize]) *)

Module PostProc.

(** [np.round]: to the nearest integer, a half to the even neighbour. *)
Definition np_round (x : Q) : Q :=
  let f := Qfloor x in
  let r := (x - inject_Z f)%Q in
  inject_Z (if Qltb r (1 # 2) then f
            else if Qltb (1 # 2) r then (f + 1)%Z
            else if Z.even f then f else (f + 1)%Z).

(** [acot[:, -k].reshape(-1)] for a matrix whose rows have at least [k]
    entries. *)
Definition column_from_end (k : nat) (acot : list (list Q)) : list Q :=
  map (fun row => nth (length row - k) row 0%Q) acot.

(** [acot[:, :40].reshape(-1)] *)
Definition leading_columns (n : nat) (acot : list (list Q)) : list Q :=
  concat (map (take n) acot).

(** [np.where(cond)]: the indices at which [cond] holds, counted from
    [k]. *)
Fixpoint where_from (k : nat) (cond : list bool) : list nat :=
  match cond with
  | [] => []
  | b :: rest => (if b then [k] else []) ++ where_from (S k) rest
  end.

Definition np_where (cond : list bool) : list nat := where_from 0 cond.

(** [a[idx] = v] for an index array [idx]. *)
Definition assign_at (a : list Q) (idx : list nat) (v : Q) : list Q :=
  foldl (fun acc i => <[i := v]> acc) a idx.

Definition unvoiced_fv : Q := 1000.
Definition unvoiced_lf0 : Q := -10000000000.

(** The channels written to the vocoder files. *)
Record channels : Type := Channels {
  mfcc : list Q;
  fv : list Q;
  lf0 : list Q;
  uv : list Q
}.

(** The tilt channel after the first assignment,
    [fv[np.where(uv == 0)] = 1000.0]. *)
Definition fv_marked (acot : list (list Q)) : list Q :=
  assign_at (column_from_end 3 acot)
    (np_where (map (fun u => Qeq_bool u 0)
                   (map np_round (column_from_end 1 acot))))
    unvoiced_fv.

(** From [mfcc = acot[:, :40].reshape(-1)] to the assertion on the
    lengths of [uv] and [fv].  [acot] is the de-normalized, post-filtered
    output of the acoustic model, one row per frame. *)
Definition postprocess (acot : list (list Q)) : result channels :=
  if forallb (fun row => (3 <=? length row)%nat) acot then
    let mfcc := leading_columns 40 acot in
    let fv := column_from_end 3 acot in
    let lf0 := column_from_end 2 acot in
    let uv := column_from_end 1 acot in
    let uv := map np_round uv in
    let fv := assign_at fv (np_where (map (fun u => Qeq_bool u 0) uv))
                        unvoiced_fv in
    let fv := assign_at fv (np_where (map (fun f => Qltb f 1000) fv))
                        unvoiced_fv in
    let lf0 := assign_at lf0 (np_where (map (fun u => Qeq_bool u 0) uv))
                         unvoiced_lf0 in
    if (length uv =? length fv)%nat then Ok (Channels mfcc fv lf0 uv)
    else Raise AssertionError
  else Raise IndexError.

End PostProc.

(** ** Post-processing with the special values of floating point

    The acoustic output is an array of floats, which can hold
    infinities and NaN besides numbers.  Post-processing only rounds to
    integers, compares and assigns, all of which are exact on numbers,
    so a sample is a rational or one of the three special values. *)

Module PostProcIEEE.

Inductive sample : Type :=
| Num (q : Q)
| PosInf
| NegInf
| NaN.

(** [np.round] leaves infinities and NaN as they are. *)
Definition np_round (x : sample) : sample :=
  match x with
  | Num q => Num (PostProc.np_round q)
  | other => other
  end.

(** [x == c]: false for NaN. *)
Definition eq_num (x : sample) (c : Q) : bool :=
  match x with
  | Num q => Qeq_bool q c
  | _ => false
  end.

(** [x < c]: false for NaN. *)
Definition lt_num (x : sample) (c : Q) : bool :=
  match x with
  | Num q => Qltb q c
  | NegInf => true
  | PosInf | NaN => false
  end.


(** [acot[:, -k].reshape(-1)] for a matrix whose rows have at least [k]
    entries. *)
Definition column_from_end (k : nat) (acot : list (list sample))
    : list sample :=
  map (fun row => nth (length row - k) row NaN) acot.

(** [acot[:, :40].reshape(-1)] *)
Definition leading_columns (n : nat) (acot : list (list sample))
    : list sample :=
  concat (map (take n) acot).

(** [a[idx] = v] for an index array [idx]. *)
Definition assign_at (a : list sample) (idx : list nat) (v : sample)
    : list sample :=
  foldl (fun acc i => <[i := v]> acc) a idx.

Definition unvoiced_fv : sample := Num PostProc.unvoiced_fv.
Definition unvoiced_lf0 : sample := Num PostProc.unvoiced_lf0.

Record channels : Type := Channels {
  mfcc : list sample;
  fv : list sample;
  lf0 : list sample;
  uv : list sample
}.

(** The tilt channel after the first assignment,
    [fv[np.where(uv == 0)] = 1000.0]. *)
Definition fv_marked (acot : list (list sample)) : list sample :=
  assign_at (column_from_end 3 acot)
    (PostProc.np_where (map (fun u => eq_num u 0)
                            (map np_round (column_from_end 1 acot))))
    unvoiced_fv.

(** From [mfcc = acot[:, :40].reshape(-1)] to the assertion on the
    lengths of [uv] and [fv]. *)
Definition postprocess (acot : list (list sample)) : result channels :=
  if forallb (fun row => (3 <=? length row)%nat) acot then
    let mfcc := leading_columns 40 acot in
    let fv := column_from_end 3 acot in
    let lf0 := column_from_end 2 acot in
    let uv := column_from_end 1 acot in
    let uv := map np_round uv in
    let fv := assign_at fv (PostProc.np_where (map (fun u => eq_num u 0) uv))
                        unvoiced_fv in
    let fv := assign_at fv (PostProc.np_where (map (fun f => lt_num f 1000) fv))
                        unvoiced_fv in
    let lf0 := assign_at lf0 (PostProc.np_where (map (fun u => eq_num u 0) uv))
                         unvoiced_lf0 in
    if (length uv =? length fv)%nat then Ok (Channels mfcc fv lf0 uv)
    else Raise AssertionError
  else Raise IndexError.

(** The channels of [PostProc] read as samples. *)
Definition of_numbers (ch : PostProc.channels) : channels :=
  Channels (map Num (PostProc.mfcc ch)) (map Num (PostProc.fv ch))
           (map Num (PostProc.lf0 ch)) (map Num (PostProc.uv ch)).



End PostProcIEEE.

(** ** Concrete inputs used to exercise the statements below *)

Module Examples.

(** Five epochs whose monitored value is read from this list. *)
Definition monitored_values : list Q := [1.0; 0.9; 0.95; 0.96; 0.97]%Q.

Definition example_eval : unit → nat → gmap string Q :=
  fun _ epoch => {[ "va_loss" := nth epoch monitored_values 0%Q ]}.

Definition example_run : Engine.args unit :=
  Engine.Args 5 (fun _ => ∅) (Some example_eval) (Some ()) (Some "va_loss")
              (Some 2%Z) false.

(** One epoch, an evaluation function, no validation loader. *)
Definition example_no_loader : Engine.args unit :=
  Engine.Args 1 (fun _ => ∅) (Some example_eval) None None None false.

(** Two speakers, three batches: the second speaker has no batch after
    the first record is written. *)
Definition example_idx2spk : gmap Z string :=
  {[ 0%Z := "spkA"; 1%Z := "spkB" ]}.

Definition example_batches : list MOLog.batch :=
  [MOLog.Batch 0 0.5; MOLog.Batch 1 0.4; MOLog.Batch 0 0.3]%Q.

(** Options of a duration run without the ['stateful'] key. *)
Definition example_opts : gmap string DurOpts.optval :=
  {[ "spk2durstats" := DurOpts.VDurStats ∅ ]}.

(** Two frames [c0, fv, lf0, uv]: an unvoiced one and a voiced one whose
    tilt is below 1000. *)
Definition example_acot : list (list Q) :=
  [[0.1; 1234; 5.0; 0.2]; [0.3; 900; 5.1; 0.9]]%Q.

End Examples.

(** ** Further definitions, used by the further properties of the code *)

Module Frames.
Import Expander.


End Frames.

Module AttPositions.

(** The values of [pe_start_idx] handed to the model, batch after batch,
    for batches of the given lengths [aco_b.size(0)].  [advance] is
    [True] in [train_attaco_epoch] and [not reset_batch_state] in
    [eval_attaco_epoch]. *)
Fixpoint pe_run (advance : bool) (pe_start_idx : nat) (lens : list nat)
    : list nat :=
  match lens with
  | [] => []
  | n :: rest =>
      pe_start_idx
      :: pe_run advance (if advance then pe_start_idx + n else pe_start_idx)
                rest
  end.

(** [pe_start_idx = 0] before the loop. *)
Definition train_attaco_positions (lens : list nat) : list nat :=
  pe_run true 0 lens.

Definition eval_attaco_positions (reset_batch_state : bool) (lens : list nat)
    : list nat :=
  pe_run (negb reset_batch_state) 0 lens.

End AttPositions.

Module EngineRuns.
Import Engine.

(** The run monitors nothing: there is no evaluation function, or there
    is one, with its loader, and no target to monitor. *)
Definition unmonitored {Loader} (a : args Loader) : Prop :=
  eval_fn a = None
  ∨ (is_Some (eval_fn a) ∧ is_Some (val_dloader a)
     ∧ target_given (eval_target a) = None).

(** The epochs for which a checkpoint was saved. *)
Definition saved_epochs (tr : list event) : list nat := (saves tr).*1.

End EngineRuns.

Module EngineInputs.
Import Engine.

(** Three epochs, no evaluation. *)
Definition plain_run : args unit :=
  Args 3 (fun _ => ∅) None None None None false.

(** The monitored run of [Examples.example_run] with a patience of 0. *)
Definition impatient_run : args unit :=
  Args 5 (fun _ => ∅) (Some Examples.example_eval) (Some ())
       (Some "va_loss") (Some 0%Z) false.

(** A target and no patience. *)
Definition no_patience_run : args unit :=
  Args 2 (fun _ => ∅) (Some Examples.example_eval) (Some ())
       (Some "va_loss") None false.

(** A target the evaluation does not report. *)
Definition wrong_target_run : args unit :=
  Args 2 (fun _ => ∅) (Some Examples.example_eval) (Some ())
       (Some "va_rmse") (Some 2%Z) false.

End EngineInputs.

Module BestFlag.
Import Engine.




End BestFlag.

Module OptBlocks.
Import DurOpts.

(** [x is None], for a local that defaults to [None]. *)
Definition is_none (o : option optval) : bool :=
  match o with
  | None | Some VNone => true
  | _ => false
  end.

(** The value is a dictionary, the only kind with [keys()]. *)
Definition is_dict (o : option optval) : bool :=
  match o with
  | Some (VIdx2spk _) | Some (VDurStats _) => true
  | _ => false
  end.

(** The names [train_dur_epoch] takes out of [tr_opts]. *)
Definition train_dur_names : list string :=
  ["mulout"; "idx2spk"; "spk2durstats"; "stateful"].

(** The locals set by the option block of [train_aco_epoch]. *)
Record aco_opts : Type := AcoOptsOf {
  a_spk2acostats : option optval;
  a_idx2spk : option optval;
  a_mulout : optval;
  a_round_N : Z
}.

(** The option block at the head of [train_aco_epoch]: the size of
    [idx2spk] is taken before [idx2spk] is compared with [None]. *)
Definition train_aco_opts (tr_opts : gmap string optval) : result aco_opts :=
  let '(spk2acostats, tr_opts) := pop "spk2acostats" tr_opts in
  let '(idx2spk, tr_opts) := pop "idx2spk" tr_opts in
  let '(mo, tr_opts) := pop "mulout" tr_opts in
  '(mulout, round_N) ←
    match mo with
    | None => Ok (VBool false, 1%Z)
    | Some v =>
        n ← n_keys idx2spk;
        if is_none idx2spk then Raise ValueError else Ok (v, n)
    end;
  if bool_decide (size tr_opts = 0%nat)
  then Ok (AcoOptsOf spk2acostats idx2spk mulout round_N)
  else Raise AssertionError.

(** The locals set by the option block of [eval_aco_epoch]. *)
Record eval_opts : Type := EvalOptsOf {
  e_sil_id : optval;
  e_idx2spk : option optval;
  e_mulout : optval
}.

(** The option block at the head of [eval_aco_epoch]. *)
Definition eval_aco_opts (va_opts : gmap string optval) : result eval_opts :=
  let '(sil, va_opts) := pop "sil_id" va_opts in
  let sil_id := default (VStr "pau") sil in
  let '(idx2spk, va_opts) := pop "idx2spk" va_opts in
  let '(mo, va_opts) := pop "mulout" va_opts in
  mulout ←
    match mo with
    | None => Ok (VBool false)
    | Some v => if is_none idx2spk then Raise ValueError else Ok v
    end;
  if bool_decide (size va_opts = 0%nat)
  then Ok (EvalOptsOf sil_id idx2spk mulout)
  else Raise AssertionError.

End OptBlocks.

Module OptExamples.
Import DurOpts.

(** A multi-output request without a speaker table. *)
Definition mulout_only : gmap string optval := {[ "mulout" := VBool true ]}.

(** An option no runner knows. *)
Definition with_unknown : gmap string optval :=
  {[ "stateful" := VBool true; "lr" := VInt 1 ]}.

End OptExamples.

Module MOLogRuns.
Import MOLog.

(** The batch index a record was written at. *)
Definition record_index (rec : log_record) : nat :=
  match rec with
  | MORecord k _ => k
  | SORecord k _ => k
  end.

(** The dictionary obtained by writing the loss of each batch, in order,
    under the name of its speaker. *)
Definition latest_losses (idx2spk : gmap Z string) (bs : list batch)
    : gmap string Q :=
  foldl (fun m b => match idx2spk !! b_spk b with
                    | Some name => <[name := b_loss b]> m
                    | None => m
                    end) ∅ bs.

(** The logging condition for a period that is not zero. *)
Definition due_at (round_N log_freq : Z) (num_batches b_idx : nat) : bool :=
  ((Z.of_nat b_idx + 1) mod (round_N * log_freq) =? 0)%Z
  || (num_batches <=? b_idx + 1)%nat.

(** The batches of an epoch that are due, with their indices. *)
Definition due_batches (round_N log_freq : Z) (batches : list batch)
    : list (nat * batch) :=
  filter (fun kb => due_at round_N log_freq (length batches) kb.1 = true)
         (imap pair batches).

End MOLogRuns.

Module StateCache.

(** What the cache code reads of a batch: the speaker index [spk_b[0, 0]]
    and the batch size [spk_b.size(1)]. *)
Record cbatch : Type := CBatch {
  c_spk : Z;
  c_bsz : nat
}.

(** How the states handed to the model were obtained. *)
Inductive action : Set :=
| Init
| Repackage.

Section Cache.

(** The recurrent states are opaque; so are the three functions that
    make, repackage and advance them. *)
Context {St : Type}.
Variable init_hidden_state : nat → St.
Variable init_output_state : nat → St.
Variable repackage_hidden : St → nat → St.
Variable model : nat → St → St → St * St.

(** [spk2hid_states] and [spk2out_states] *)
Record caches : Type := Caches {
  spk2hid_states : gmap string St;
  spk2out_states : gmap string St
}.

(** The caches hold entries for exactly the speakers in [D]. *)
Definition covers (D : gset string) (c : caches) : Prop :=
  dom (spk2hid_states c) = D ∧ dom (spk2out_states c) = D.

(** [spk2hid_states[name] = hid_state; spk2out_states[name] = out_state] *)
Definition store (name : string) (hid out : St) (c : caches) : caches :=
  Caches (<[name := hid]> (spk2hid_states c))
         (<[name := out]> (spk2out_states c)).

(** The [else] branch: both cached states are read and repackaged. *)
Definition fetch (c : caches) (name : string) (h : St) (bsz : nat)
    : result (St * St) :=
  match spk2out_states c !! name with
  | Some o => Ok (repackage_hidden h bsz, repackage_hidden o bsz)
  | None => Raise KeyError
  end.

(** The cache handling of one batch of [train_aco_epoch].  [mo_model]
    says whether the model returns a dictionary. *)
Definition train_step (mo_model : bool) (idx2spk : gmap Z string)
    (b_idx : nat) (b : cbatch) (c : caches) : result (action * caches) :=
  name ← MOLog.spk_name idx2spk (c_spk b);
  '(act, hid, out) ←
    match spk2hid_states c !! name with
    | None => Ok (Init, init_hidden_state (c_bsz b),
                  init_output_state (c_bsz b))
    | Some h => '(hid, out) ← fetch c name h (c_bsz b);
                Ok (Repackage, hid, out)
    end;
  let '(hid, out) := model b_idx hid out in
  Ok (act, if mo_model then store name hid out c else c).

(** [del spk2hid_states[name]; del spk2out_states[name]] *)
Definition drop (name : string) (c : caches) : result caches :=
  if bool_decide (is_Some (spk2hid_states c !! name)
                  ∧ is_Some (spk2out_states c !! name))
  then Ok (Caches (delete name (spk2hid_states c))
                  (delete name (spk2out_states c)))
  else Raise KeyError.

(** The cache handling of one batch of [eval_aco_epoch]: fresh states
    are stored at once, and [reset_batch_state] removes the entry after
    the batch. *)
Definition eval_step (mo_model reset_batch_state : bool)
    (idx2spk : gmap Z string) (b_idx : nat) (b : cbatch) (c : caches)
    : result (action * caches) :=
  name ← MOLog.spk_name idx2spk (c_spk b);
  '(act, hid, out, c) ←
    match spk2hid_states c !! name with
    | None =>
        let hid := init_hidden_state (c_bsz b) in
        let out := init_output_state (c_bsz b) in
        Ok (Init, hid, out, store name hid out c)
    | Some h => '(hid, out) ← fetch c name h (c_bsz b);
                Ok (Repackage, hid, out, c)
    end;
  let '(hid, out) := model b_idx hid out in
  let c := if mo_model then store name hid out c else c in
  c ← (if reset_batch_state then drop name c else Ok c);
  Ok (act, c).

(** The loop over the batches, from index [b_idx] on: the actions taken
    and the caches left. *)
Fixpoint run (step : nat → cbatch → caches → result (action * caches))
    (b_idx : nat) (batches : list cbatch) (c : caches)
    : result (list action * caches) :=
  match batches with
  | [] => Ok ([], c)
  | b :: rest =>
      '(act, c) ← step b_idx b c;
      '(acts, c) ← run step (S b_idx) rest c;
      Ok (act :: acts, c)
  end.

(** One epoch: the caches are created empty before the loop. *)
Definition train_aco_cache (mo_model : bool) (idx2spk : gmap Z string)
    (batches : list cbatch) : result (list action * caches) :=
  run (train_step mo_model idx2spk) 0 batches (Caches ∅ ∅).

Definition eval_aco_cache (mo_model reset_batch_state : bool)
    (idx2spk : gmap Z string) (batches : list cbatch)
    : result (list action * caches) :=
  run (eval_step mo_model reset_batch_state idx2spk) 0 batches (Caches ∅ ∅).

End Cache.

(** The speaker of the batch is among the speakers of [earlier]. *)
Definition seen_before (idx2spk : gmap Z string) (earlier : list cbatch)
    (b : cbatch) : bool :=
  existsb (fun b' => bool_decide (idx2spk !! c_spk b' = idx2spk !! c_spk b))
          earlier.

(** The speaker names of a run of batches. *)
Definition cnames (idx2spk : gmap Z string) (bs : list cbatch) : gset string :=
  list_to_set (omap (fun b => idx2spk !! c_spk b) bs).

(** The action expected at each batch when a speaker's state is kept from
    its first batch on: [Init] at the first batch of a speaker,
    [Repackage] at the later ones. *)
Fixpoint encounters (idx2spk : gmap Z string) (earlier batches : list cbatch)
    : list action :=
  match batches with
  | [] => []
  | b :: rest =>
      (if seen_before idx2spk earlier b then Repackage else Init)
      :: encounters idx2spk (earlier ++ [b]) rest
  end.

Definition first_encounters (idx2spk : gmap Z string) (batches : list cbatch)
    : list action :=
  encounters idx2spk [] batches.

End StateCache.

Module CacheExamples.
Import StateCache.

(** States counted as numbers: the batch size at creation, plus one for
    every pass through the model. *)
Definition toy_init (bsz : nat) : nat := bsz.
Definition toy_repackage (st bsz : nat) : nat := Nat.min st bsz.
Definition toy_model (b_idx hid out : nat) : nat * nat := (S hid, S out).

Definition toy_batches : list cbatch :=
  [CBatch 0 4; CBatch 1 4; CBatch 0 2].

End CacheExamples.

(** * Properties *)

(** ** Rational arithmetic *)


Lemma Qltb_lt (x y : Q) : Qltb x y = true ↔ (x < y)%Q.
Proof.
  unfold Qltb. rewrite negb_true_iff. split.
  - intros H. apply Qnot_le_lt. intros Hle.
    apply Qle_bool_iff in Hle. congruence.
  - intros H. destruct (Qle_bool y x) eqn:E; [|done].
    apply Qle_bool_iff in E. exfalso. exact (Qlt_not_le _ _ H E).
Qed.

Lemma Qltb_ge (x y : Q) : Qltb x y = false ↔ (y <= x)%Q.
Proof.
  unfold Qltb. rewrite negb_false_iff. apply Qle_bool_iff.
Qed.

Lemma Qle_bool_gt (x y : Q) : Qle_bool x y = false ↔ (y < x)%Q.
Proof.
  split.
  - intros H. apply Qnot_le_lt. intros Hle.
    apply Qle_bool_iff in Hle. congruence.
  - intros H. destruct (Qle_bool x y) eqn:E; [|done].
    apply Qle_bool_iff in E. exfalso. exact (Qlt_not_le _ _ H E).
Qed.

Lemma Qfloor_unique (x : Q) (z : Z) :
  (inject_Z z <= x)%Q → (x < inject_Z (z + 1))%Q → Qfloor x = z.
Proof.
  intros Hlo Hhi.
  assert (H1 : (z <= Qfloor x)%Z).
  { rewrite <- (Qfloor_Z z). by apply Qfloor_resp_le. }
  assert (H2 : (Qfloor x < z + 1)%Z).
  { rewrite Zlt_Qlt. eapply Qle_lt_trans; [apply Qfloor_le | exact Hhi]. }
  lia.
Qed.

Lemma Qle_div_mult (a b c : Q) : (0 < c)%Q → (a <= b / c)%Q ↔ (a * c <= b)%Q.
Proof.
  intros Hc. rewrite <- (Qmult_le_r _ _ c Hc).
  assert (E : (b / c * c == b)%Q) by (field; intros E; rewrite E in Hc; by apply Qlt_irrefl in Hc).
  by rewrite E.
Qed.

Lemma Qlt_div_mult (a b c : Q) : (0 < c)%Q → (a < b / c)%Q ↔ (a * c < b)%Q.
Proof.
  intros Hc. rewrite <- (Qmult_lt_r _ _ c Hc).
  assert (E : (b / c * c == b)%Q) by (field; intros E; rewrite E in Hc; by apply Qlt_irrefl in Hc).
  by rewrite E.
Qed.

Lemma Qdiv_lt_mult (a b c : Q) : (0 < c)%Q → (b / c < a)%Q ↔ (b < a * c)%Q.
Proof.
  intros Hc. rewrite <- (Qmult_lt_r _ _ c Hc).
  assert (E : (b / c * c == b)%Q) by (field; intros E; rewrite E in Hc; by apply Qlt_irrefl in Hc).
  by rewrite E.
Qed.

Lemma Qdiv_le_mult (a b c : Q) : (0 < c)%Q → (b / c <= a)%Q ↔ (b <= a * c)%Q.
Proof.
  intros Hc. rewrite <- (Qmult_le_r _ _ c Hc).
  assert (E : (b / c * c == b)%Q) by (field; intros E; rewrite E in Hc; by apply Qlt_irrefl in Hc).
  by rewrite E.
Qed.

(** ** The expansion loop *)

Section ExpanderFacts.
Import Expander.
Open Scope Q_scope.

Lemma stride_pos : 0 < stride.
Proof. reflexivity. Qed.

Lemma reldur_at_succ (k : nat) (c : Q) :
  reldur_at (S k) c = reldur_at k (c + stride).
Proof. unfold reldur_at. by rewrite Nat.iter_succ_r. Qed.

Lemma reldur_at_linear (k : nat) (c : Q) :
  reldur_at k c == c + inject_Z (Z.of_nat k) * stride.
Proof.
  induction k as [|k IH].
  - unfold reldur_at. simpl. ring.
  - unfold reldur_at in *. simpl Nat.iter. rewrite IH.
    rewrite Nat2Z.inj_succ. unfold Z.succ. rewrite inject_Z_plus. ring.
Qed.

Lemma reldur_at_mono (i j : nat) (c : Q) :
  (i ≤ j)%nat → reldur_at i c <= reldur_at j c.
Proof.
  intros Hij. rewrite !reldur_at_linear.
  apply Qplus_le_r. apply Qmult_le_compat_r; [|apply Qlt_le_weak, stride_pos].
  rewrite <- Zle_Qle. lia.
Qed.

Lemma queries_from_succ code ndur d c n :
  queries_from code ndur d c (S n)
  = Query code (c / d) ndur :: queries_from code ndur d (c + stride) n.
Proof.
  unfold queries_from. simpl seq. rewrite map_cons. f_equal.
  rewrite <- seq_shift, map_map. apply map_ext. intros k.
  by rewrite reldur_at_succ.
Qed.

Lemma length_queries_from code ndur d c n :
  length (queries_from code ndur d c n) = n.
Proof. unfold queries_from. by rewrite length_map, length_seq. Qed.

(** The loop emits the queries of indices [0 .. n-1] when the condition
    holds at these indices and fails at index [n]. *)
Lemma unit_loop_run p code ndur d :
  ¬ d == 0 →
  ∀ n fuel c,
    (n < fuel)%nat →
    (∀ k, (k < n)%nat → in_unit p (reldur_at k c) d = true) →
    in_unit p (reldur_at n c) d = false →
    unit_loop p fuel code ndur d c = Some (Ok (queries_from code ndur d c n)).
Proof.
  intros Hd. induction n as [|n IH]; intros fuel c Hfuel Hin Hout.
  - destruct fuel as [|fuel]; [lia|]. simpl.
    change (reldur_at 0 c) with c in Hout. by rewrite Hout.
  - destruct fuel as [|fuel]; [lia|]. simpl.
    assert (H0 : in_unit p c d = true) by (apply (Hin 0%nat); lia).
    rewrite H0.
    destruct (Qeq_bool d 0) eqn:E0; [apply Qeq_bool_iff in E0; done|].
    rewrite (IH fuel (c + stride)).
    + by rewrite queries_from_succ.
    + lia.
    + intros k Hk. rewrite <- reldur_at_succ. apply Hin. lia.
    + by rewrite <- reldur_at_succ.
Qed.

(** Whatever the loop returns is a run of consecutive indices. *)
Lemma unit_loop_shape p code ndur d :
  ∀ fuel c qs,
    unit_loop p fuel code ndur d c = Some (Ok qs) →
    qs = queries_from code ndur d c (length qs).
Proof.
  induction fuel as [|fuel IH]; intros c qs H; [done|].
  simpl in H. destruct (in_unit p c d).
  - destruct (Qeq_bool d 0); [done|].
    destruct (unit_loop p fuel code ndur d (c + stride)) as [[qs'|e]|] eqn:E;
      try done.
    injection H as <-. simpl length. rewrite queries_from_succ.
    f_equal. by apply IH.
  - by injection H as <-.
Qed.

End ExpanderFacts.

Section ExpanderClaims.
Import Expander.
Open Scope Q_scope.

Lemma pos_nonzero (d : Q) : 0 < d → ¬ d == 0.
Proof. intros Hd E. rewrite E in Hd. by apply Qlt_irrefl in Hd. Qed.

Lemma floor_ratio_nonneg (d : Q) : 0 < d → (0 <= Qfloor (d / stride))%Z.
Proof.
  intros Hd. rewrite <- (Qfloor_Z 0). apply Qfloor_resp_le.
  apply Qle_div_mult; [apply stride_pos|]. rewrite Qmult_0_l.
  by apply Qlt_le_weak.
Qed.

Lemma ceiling_ratio_nonneg (d : Q) : 0 < d → (0 <= Qceiling (d / stride))%Z.
Proof.
  intros Hd. rewrite <- (Qceiling_Z 0). apply Qceiling_resp_le.
  apply Qle_div_mult; [apply stride_pos|]. rewrite Qmult_0_l.
  by apply Qlt_le_weak.
Qed.

Lemma inclusive_run code ndur d fuel :
  0 < d →
  (S (Z.to_nat (Qfloor (d / stride))) < fuel)%nat →
  expand_unit Inclusive fuel code ndur d
  = Some (Ok (queries_from code ndur d 0 (S (Z.to_nat (Qfloor (d / stride)))))).
Proof.
  intros Hd Hfuel. pose proof (floor_ratio_nonneg d Hd) as HF.
  apply unit_loop_run; [by apply pos_nonzero | done | |].
  - intros k Hk. cbn [in_unit]. apply Qle_bool_iff.
    rewrite reldur_at_linear, Qplus_0_l.
    apply Qle_div_mult; [apply stride_pos|].
    eapply Qle_trans; [|apply Qfloor_le]. rewrite <- Zle_Qle. lia.
  - cbn [in_unit]. apply Qle_bool_gt.
    rewrite reldur_at_linear, Qplus_0_l.
    apply Qdiv_lt_mult; [apply stride_pos|].
    eapply Qlt_le_trans; [apply Qlt_floor|]. rewrite <- Zle_Qle. lia.
Qed.

Lemma exclusive_run code ndur d fuel :
  0 < d →
  (Z.to_nat (Qceiling (d / stride)) < fuel)%nat →
  expand_unit Exclusive fuel code ndur d
  = Some (Ok (queries_from code ndur d 0 (Z.to_nat (Qceiling (d / stride))))).
Proof.
  intros Hd Hfuel. pose proof (ceiling_ratio_nonneg d Hd) as HC.
  apply unit_loop_run; [by apply pos_nonzero | done | |].
  - intros k Hk. cbn [in_unit]. apply Qltb_lt.
    rewrite reldur_at_linear, Qplus_0_l.
    apply Qlt_div_mult; [apply stride_pos|].
    eapply Qle_lt_trans; [|apply Qceiling_lt]. rewrite <- Zle_Qle. lia.
  - cbn [in_unit]. apply Qltb_ge.
    rewrite reldur_at_linear, Qplus_0_l.
    apply Qdiv_le_mult; [apply stride_pos|].
    eapply Qle_trans; [apply Qle_ceiling|]. rewrite <- Zle_Qle. lia.
Qed.

(** Claim C8.  For a unit of physical duration [d > 0], under either
    loop condition, the loop returns once the fuel is large enough, and
    in whatever it returns the first relative position is 0 and the
    relative positions never decrease along the unit. *)
Theorem C8_relative_positions (p : policy) (code : list Q) (ndur d : Q) :
  0 < d →
  (∃ fuel0, ∀ fuel, (fuel0 ≤ fuel)%nat →
     ∃ qs, expand_unit p fuel code ndur d = Some (Ok qs))
  ∧ (∀ fuel qs, expand_unit p fuel code ndur d = Some (Ok qs) →
       (∃ q0, qs !! 0%nat = Some q0 ∧ q_reldur q0 == 0)
       ∧ (∀ i j qi qj, (i ≤ j)%nat → qs !! i = Some qi → qs !! j = Some qj →
            q_reldur qi <= q_reldur qj)).
Proof.
  intros Hd. split.
  - destruct p.
    + exists (S (S (Z.to_nat (Qfloor (d / stride))))). intros fuel Hfuel.
      eexists. apply inclusive_run; [done | lia].
    + exists (S (Z.to_nat (Qceiling (d / stride)))). intros fuel Hfuel.
      eexists. apply exclusive_run; [done | lia].
  - intros fuel qs Hrun. unfold expand_unit in Hrun.
    pose proof (unit_loop_shape _ _ _ _ _ _ _ Hrun) as Hshape.
    assert (Hfirst : in_unit p 0 d = true).
    { destruct p; simpl; [apply Qle_bool_iff; by apply Qlt_le_weak
                         | by apply Qltb_lt]. }
    assert (Hlook : ∀ i q, qs !! i = Some q →
              q_reldur q = reldur_at i 0 / d).
    { intros i q Hq. rewrite Hshape in Hq. unfold queries_from in Hq.
      rewrite list_lookup_fmap in Hq.
      destruct (seq 0 (length qs) !! i) as [k|] eqn:Ek; [|done].
      apply lookup_seq in Ek as [-> _]. simpl in Hq. by injection Hq as <-. }
    split.
    + destruct fuel as [|fuel]; [done|]. simpl in Hrun. rewrite Hfirst in Hrun.
      destruct (Qeq_bool d 0); [done|].
      destruct (unit_loop p fuel code ndur d (0 + stride)) as [[qs'|e]|];
        try done.
      injection Hrun as <-. eexists. split; [done|]. simpl.
      unfold Qdiv. by rewrite Qmult_0_l.
    + intros i j qi qj Hij Hi Hj.
      rewrite (Hlook _ _ Hi), (Hlook _ _ Hj).
      unfold Qdiv. apply Qmult_le_compat_r; [by apply reldur_at_mono|].
      apply Qlt_le_weak, Qinv_lt_0_compat, Hd.
Qed.

Lemma C8_relative_positions_witness :
  0 < 0.020
  ∧ ∃ qs, expand_unit Inclusive 6 [] 1 0.020 = Some (Ok qs)
          ∧ (∃ q0, qs !! 0%nat = Some q0 ∧ q_reldur q0 == 0)
          ∧ (∀ i j qi qj, (i ≤ j)%nat → qs !! i = Some qi → qs !! j = Some qj →
               q_reldur qi <= q_reldur qj).
Proof.
  assert (Hd : 0 < 0.020) by reflexivity.
  split; [exact Hd|].
  destruct (C8_relative_positions Inclusive [] 1 0.020 Hd) as [_ Hall].
  eexists. split; [vm_compute; reflexivity|].
  apply (Hall 6%nat). vm_compute. reflexivity.
Defined.

End ExpanderClaims.

(** ** Binary64 numbers and their values

    The comparisons of [Floats] are read through their specification
    over [spec_float] ([FloatAxioms.ltb_spec], [leb_spec], [eqb_spec]);
    on finite numbers they are the order of the rational values. *)

Section Binary64Facts.
Import Binary64.
Open Scope Q_scope.

Lemma digits2_size (m : positive) : digits2_pos m = Pos.size m.
Proof. induction m; simpl; congruence. Qed.

Lemma Qpow2_pos (e : Z) : 0 < 2 ^ e.
Proof. apply Qpower_0_lt. reflexivity. Qed.

Lemma scaled_value (m : positive) (e : Z) :
  (-1074 <= e)%Z →
  inject_Z (Z.pos m) * 2 ^ e == inject_Z (scaled m e) / 2 ^ 1074.
Proof.
  intros He. unfold scaled. rewrite inject_Z_mult.
  rewrite (Zpower_Qpower 2 (e + 1074)) by lia.
  change (inject_Z 2) with (2 : Q).
  rewrite Qpower_plus by discriminate.
  field.
Qed.

Lemma canonical_bounds (m : positive) (e : Z) :
  canonical_mantissa prec emax m e = true →
  (-1074 <= e)%Z ∧ (Z.pos m < 2 ^ 53)%Z
  ∧ ((-1074 < e)%Z → (2 ^ 52 <= Z.pos m)%Z).
Proof.
  unfold canonical_mantissa, fexp, emin, prec, emax. intros H.
  apply Z.eqb_eq in H. rewrite digits2_size in H.
  pose proof (Pos.size_gt m) as Hgt. pose proof (Pos.size_le m) as Hle.
  assert (Hgt' : (Z.pos m < 2 ^ Z.pos (Pos.size m))%Z).
  { rewrite <- Pos2Z.inj_pow. by apply Pos2Z.pos_lt_pos. }
  assert (Hle' : (2 ^ Z.pos (Pos.size m) <= 2 * Z.pos m)%Z).
  { rewrite <- Pos2Z.inj_pow. change (2 * Z.pos m)%Z with (Z.pos m~0).
    by apply Pos2Z.pos_le_pos. }
  split; [lia|]. split.
  - eapply Z.lt_le_trans; [exact Hgt'|]. apply Z.pow_le_mono_r; lia.
  - intros He. assert (Hs : Z.pos (Pos.size m) = 53%Z) by lia.
    rewrite Hs in Hle'. change (2 ^ 53)%Z with (2 * 2 ^ 52)%Z in Hle'. lia.
Qed.

Lemma scaled_lex (m1 m2 : positive) (e1 e2 : Z) :
  canonical_mantissa prec emax m1 e1 = true →
  canonical_mantissa prec emax m2 e2 = true →
  (e1 < e2)%Z → (scaled m1 e1 < scaled m2 e2)%Z.
Proof.
  intros H1 H2 He.
  destruct (canonical_bounds _ _ H1) as (Hlo1 & Hm1 & _).
  destruct (canonical_bounds _ _ H2) as (Hlo2 & _ & Hm2).
  specialize (Hm2 ltac:(lia)). unfold scaled.
  assert (Hp : (2 * 2 ^ (e1 + 1074) <= 2 ^ (e2 + 1074))%Z).
  { rewrite <- Z.pow_succ_r by lia. apply Z.pow_le_mono_r; lia. }
  assert (Hpos : (0 < 2 ^ (e1 + 1074))%Z) by (apply Z.pow_pos_nonneg; lia).
  change (2 ^ 53)%Z with (2 * 2 ^ 52)%Z in Hm1.
  nia.
Qed.


Lemma pos_value_lt (m1 m2 : positive) (e1 e2 : Z) :
  canonical_mantissa prec emax m1 e1 = true →
  canonical_mantissa prec emax m2 e2 = true →
  (e1 < e2)%Z ∨ (e1 = e2 ∧ (m1 < m2)%positive) →
  inject_Z (Z.pos m1) * 2 ^ e1 < inject_Z (Z.pos m2) * 2 ^ e2.
Proof.
  intros H1 H2 Hlex.
  destruct (canonical_bounds _ _ H1) as (Hlo1 & _ & _).
  destruct (canonical_bounds _ _ H2) as (Hlo2 & _ & _).
  rewrite !scaled_value by done.
  apply Qmult_lt_compat_r; [apply Qinv_lt_0_compat, Qpow2_pos|].
  rewrite <- Zlt_Qlt. destruct Hlex as [He|[-> Hm]].
  - by apply scaled_lex.
  - unfold scaled. apply Z.mul_lt_mono_pos_r; [apply Z.pow_pos_nonneg; lia|].
    by apply Pos2Z.pos_lt_pos.
Qed.

Lemma pos_value_pos (m : positive) (e : Z) : 0 < inject_Z (Z.pos m) * 2 ^ e.
Proof.
  apply Qmult_lt_0_compat; [|apply Qpow2_pos].
  change 0 with (inject_Z 0). by rewrite <- Zlt_Qlt.
Qed.

Lemma neg_value (m : positive) (e : Z) :
  inject_Z (Z.neg m) * 2 ^ e == - (inject_Z (Z.pos m) * 2 ^ e).
Proof.
  change (Z.neg m) with (- Z.pos m)%Z. rewrite inject_Z_opp. ring.
Qed.

Lemma compare_cont_lex (m1 m2 : positive) :
  match Pos.compare_cont Eq m1 m2 with
  | Lt => (m1 < m2)%positive
  | Eq => m1 = m2
  | Gt => (m2 < m1)%positive
  end.
Proof.
  change (Pos.compare_cont Eq m1 m2) with (m1 ?= m2)%positive.
  destruct (Pos.compare_spec m1 m2); done.
Qed.

(** On finite binary64 numbers [SFcompare] is the order of the values. *)
Lemma SFcompare_value (x y : spec_float) :
  valid_binary x = true → valid_binary y = true →
  finite_sf x = true → finite_sf y = true →
  SFcompare x y = Some (value_sf x ?= value_sf y).
Proof.
  intros Vx Vy Fx Fy.
  assert (Hlt : ∀ a b : Q, a < b → Some Lt = Some (a ?= b)).
  { intros a b H. f_equal. symmetry. by apply Qlt_alt. }
  assert (Hgt : ∀ a b : Q, b < a → Some Gt = Some (a ?= b)).
  { intros a b H. f_equal. symmetry. by apply Qgt_alt. }
  assert (Heq : ∀ a b : Q, a == b → Some Eq = Some (a ?= b)).
  { intros a b H. f_equal. symmetry. by apply Qeq_alt. }
  destruct x as [sx| | |sx mx ex], y as [sy| | |sy my ey]; try done; cbn.
  - destruct sy.
    + apply Hgt. rewrite neg_value. pose proof (pos_value_pos my ey). lra.
    + apply Hlt. apply pos_value_pos.
  - destruct sx.
    + apply Hlt. rewrite neg_value. pose proof (pos_value_pos mx ex). lra.
    + apply Hgt. apply pos_value_pos.
  - cbn in Vx, Vy. apply andb_true_iff in Vx as [Cx _].
    apply andb_true_iff in Vy as [Cy _].
    pose proof (compare_cont_lex mx my) as Hm.
    destruct sx, sy.
    + rewrite !neg_value. destruct (Z.compare_spec ex ey) as [E|E|E].
      * subst ey. destruct (Pos.compare_cont Eq mx my); cbn.
        -- subst my. by apply Heq.
        -- apply Hgt. apply Qopp_lt_compat. apply pos_value_lt; auto.
        -- apply Hlt. apply Qopp_lt_compat. apply pos_value_lt; auto.
      * apply Hgt. apply Qopp_lt_compat. apply pos_value_lt; auto.
      * apply Hlt. apply Qopp_lt_compat. apply pos_value_lt; auto.
    + apply Hlt. rewrite neg_value.
      pose proof (pos_value_pos mx ex). pose proof (pos_value_pos my ey). lra.
    + apply Hgt. rewrite neg_value.
      pose proof (pos_value_pos mx ex). pose proof (pos_value_pos my ey). lra.
    + destruct (Z.compare_spec ex ey) as [E|E|E].
      * subst ey. destruct (Pos.compare_cont Eq mx my); cbn.
        -- subst my. by apply Heq.
        -- apply Hlt. apply pos_value_lt; auto.
        -- apply Hgt. apply pos_value_lt; auto.
      * apply Hlt. apply pos_value_lt; auto.
      * apply Hgt. apply pos_value_lt; auto.
Qed.

Lemma ltb_value (x y : float) :
  is_finite x = true → is_finite y = true →
  (x <? y)%float = true ↔ value x < value y.
Proof.
  intros Fx Fy. rewrite FloatAxioms.ltb_spec. unfold SFltb, value.
  rewrite (SFcompare_value _ _ (Prim2SF_valid x) (Prim2SF_valid y) Fx Fy).
  rewrite Qlt_alt. destruct (_ ?= _); split; congruence.
Qed.

Lemma leb_value (x y : float) :
  is_finite x = true → is_finite y = true →
  (x <=? y)%float = true ↔ value x <= value y.
Proof.
  intros Fx Fy. rewrite FloatAxioms.leb_spec. unfold SFleb, value.
  rewrite (SFcompare_value _ _ (Prim2SF_valid x) (Prim2SF_valid y) Fx Fy).
  rewrite Qle_alt. destruct (_ ?= _); split; congruence.
Qed.

Lemma eqb_value (x y : float) :
  is_finite x = true → is_finite y = true →
  (x =? y)%float = true ↔ value x == value y.
Proof.
  intros Fx Fy. rewrite FloatAxioms.eqb_spec. unfold SFeqb, value.
  rewrite (SFcompare_value _ _ (Prim2SF_valid x) (Prim2SF_valid y) Fx Fy).
  rewrite Qeq_alt. destruct (_ ?= _); split; congruence.
Qed.

(** A number between two finite numbers is finite. *)
Lemma between_finite (lo x hi : float) :
  is_finite lo = true → is_finite hi = true →
  (lo <? x)%float = true → (x <=? hi)%float = true → is_finite x = true.
Proof.
  unfold is_finite. rewrite FloatAxioms.ltb_spec, FloatAxioms.leb_spec. unfold SFltb, SFleb.
  destruct (Prim2SF lo) as [| | |], (Prim2SF x) as [|[]| |], (Prim2SF hi) as [| | |];
    cbn; try done.
Qed.


(** Equal finite numbers other than zero have the same representation. *)
Lemma eqb_same_representation (x y : float) :
  (x =? y)%float = true → 0 < value x →
  Prim2SF x = Prim2SF y.
Proof.
  rewrite FloatAxioms.eqb_spec. unfold SFeqb, value.
  destruct (Prim2SF x) as [| | |sx mx ex]; cbn;
    try (intros _ H; by inversion H).
  destruct (Prim2SF y) as [sy|sy| |sy my ey]; cbn.
  - by destruct sx.
  - by destruct sy.
  - done.
  - pose proof (compare_cont_lex mx my) as Hm.
    destruct sx, sy; try done;
      (destruct (Z.compare_spec ex ey) as [->| |]; try done);
      (destruct (Pos.compare_cont Eq mx my); try done); by subst.
Qed.

Lemma is_float32_eqb (x y : float) :
  (x =? y)%float = true → 0 < value x → is_float32 x = is_float32 y.
Proof.
  intros E Hx. unfold is_float32. by rewrite (eqb_same_representation x y E Hx).
Qed.


(** A positive float32 value up to 100 is a fraction [A / P] with a
    numerator below [2 ^ 24]. *)
Lemma float32_fraction (d : float) :
  is_float32 d = true → 0 < value d → value d <= 100 →
  ∃ A P : Z, (0 < P)%Z ∧ (0 < A < 2 ^ 24)%Z
             ∧ value d * inject_Z P == inject_Z A.
Proof.
  unfold is_float32, value.
  destruct (Prim2SF d) as [| | |sx m e]; cbn [value_sf];
    try (intros _ H; by inversion H).
  intros H32 Hpos H100.
  destruct sx.
  { exfalso. rewrite neg_value in Hpos. pose proof (pos_value_pos m e). lra. }
  apply andb_true_iff in H32 as [_ Hdiv]. apply Z.eqb_eq in Hdiv.
  set (e32 := Z.max (Z.pos (Pos.size m) + e - 24) (-149)) in *.
  set (g := (e32 - e)%Z) in *.
  assert (Hg : (0 <= g)%Z).
  { destruct (Z.le_gt_cases 0 g) as [|Hneg]; [done|]. exfalso.
    rewrite Z.pow_neg_r in Hdiv by done. rewrite Z.mod_0_r in Hdiv. lia. }
  assert (Hpg : (0 < 2 ^ g)%Z) by (apply Z.pow_pos_nonneg; lia).
  apply Z.mod_divide in Hdiv; [|lia]. destruct Hdiv as [a Ha].
  assert (Ha0 : (0 < a)%Z) by nia.
  assert (Hsize : (Z.pos m < 2 ^ Z.pos (Pos.size m))%Z).
  { rewrite <- Pos2Z.inj_pow. apply Pos2Z.pos_lt_pos, Pos.size_gt. }
  assert (Ha24 : (a < 2 ^ 24)%Z).
  { destruct (Z.le_gt_cases g (Z.pos (Pos.size m))) as [Hle|Hgt].
    - assert (Hsplit : (2 ^ Z.pos (Pos.size m)
                        = 2 ^ (Z.pos (Pos.size m) - g) * 2 ^ g)%Z).
      { rewrite <- Z.pow_add_r by lia. f_equal. lia. }
      assert (Hpow : (2 ^ (Z.pos (Pos.size m) - g) <= 2 ^ 24)%Z).
      { apply Z.pow_le_mono_r; [lia|]. unfold g, e32. lia. }
      nia.
    - assert (Hpow : (2 ^ Z.pos (Pos.size m) <= 2 ^ g)%Z).
      { apply Z.pow_le_mono_r; lia. }
      nia. }
  assert (Hval : inject_Z (Z.pos m) * 2 ^ e == inject_Z a * 2 ^ e32).
  { rewrite Ha, inject_Z_mult. rewrite (Zpower_Qpower 2 g) by done.
    change (inject_Z 2) with (2 : Q). rewrite <- Qmult_assoc.
    rewrite <- Qpower_plus by discriminate. unfold g.
    by replace (e32 - e + e)%Z with e32 by lia. }
  rewrite Hval in Hpos, H100.
  destruct (Z.le_gt_cases 0 e32) as [Hnn|Hneg].
  - exists (a * 2 ^ e32)%Z, 1%Z. split; [lia|].
    assert (HA : inject_Z a * 2 ^ e32 == inject_Z (a * 2 ^ e32)).
    { rewrite inject_Z_mult, (Zpower_Qpower 2 e32) by done. reflexivity. }
    split.
    + split; [apply Z.mul_pos_pos; [done | apply Z.pow_pos_nonneg; lia]|].
      rewrite HA in H100. change 100 with (inject_Z 100) in H100.
      rewrite <- Zle_Qle in H100. change (2 ^ 24)%Z with 16777216%Z. lia.
    + rewrite Hval, HA. change (inject_Z 1) with 1. ring.
  - exists a, (2 ^ (- e32))%Z. split; [apply Z.pow_pos_nonneg; lia|].
    split; [lia|].
    rewrite Hval, (Zpower_Qpower 2 (- e32)) by lia.
    change (inject_Z 2) with (2 : Q). rewrite <- Qmult_assoc.
    rewrite <- Qpower_plus by discriminate.
    replace (e32 + - e32)%Z with 0%Z by lia. change (2 ^ 0) with 1. ring.
Qed.

End Binary64Facts.

(** ** The expansion loop in binary64 *)

Section Expander64Facts.
Import Binary64 Expander Expander64.
Open Scope Q_scope.

Lemma reldur64_succ (k : nat) (c : float) :
  reldur_at (S k) c = reldur_at k (c + stride)%float.
Proof. unfold reldur_at. by rewrite Nat.iter_succ_r. Qed.

Lemma queries64_succ code ndur d c n :
  queries_from code ndur d c (S n)
  = Query code (c / d)%float ndur :: queries_from code ndur d (c + stride)%float n.
Proof.
  unfold queries_from. simpl seq. rewrite map_cons. f_equal.
  rewrite <- seq_shift, map_map. apply map_ext. intros k.
  by rewrite reldur64_succ.
Qed.

Lemma length_queries64 code ndur d c n :
  length (queries_from code ndur d c n) = n.
Proof. unfold queries_from. by rewrite length_map, length_seq. Qed.

Lemma unit_loop64_run p code ndur d :
  (d =? 0)%float = false →
  ∀ n fuel c,
    (n < fuel)%nat →
    (∀ k, (k < n)%nat → in_unit p (reldur_at k c) d = true) →
    in_unit p (reldur_at n c) d = false →
    unit_loop p fuel code ndur d c = Some (Ok (queries_from code ndur d c n)).
Proof.
  intros Hd. induction n as [|n IH]; intros fuel c Hfuel Hin Hout.
  - destruct fuel as [|fuel]; [lia|]. simpl.
    change (reldur_at 0 c) with c in Hout. by rewrite Hout.
  - destruct fuel as [|fuel]; [lia|]. simpl.
    assert (H0 : in_unit p c d = true) by (apply (Hin 0%nat); lia).
    rewrite H0, Hd.
    rewrite (IH fuel (c + stride)%float).
    + by rewrite queries64_succ.
    + lia.
    + intros k Hk. rewrite <- reldur64_succ. apply Hin. lia.
    + by rewrite <- reldur64_succ.
Qed.

Lemma tracks_from_sound (n : nat) :
  ∀ k t, tracks_from n k t = true →
    ∀ j, (j < n)%nat → tracks (k + Z.of_nat j) (reldur_at j t) = true.
Proof.
  induction n as [|n IH]; intros k t H j Hj; [lia|].
  cbn [tracks_from] in H. apply andb_true_iff in H as [H0 Hrest].
  destruct j as [|j].
  - by rewrite Z.add_0_r.
  - rewrite reldur64_succ.
    replace (k + Z.of_nat (S j))%Z with (k + 1 + Z.of_nat j)%Z by lia.
    apply IH; [done | lia].
Qed.

Lemma tracks_all : tracks_from (Z.to_nat 20004) 0 0 = true.
Proof. vm_compute. reflexivity. Qed.

(** The accumulated time after [k] additions, for [k] up to 20003, is
    finite and within [k * drift] of [k * 0.005]. *)
Lemma elapsed_tracks (k : nat) :
  (Z.of_nat k <= 20003)%Z →
  is_finite (reldur_at k 0) = true
  ∧ inject_Z (Z.of_nat k) * (Expander.stride - drift) <= value (reldur_at k 0)
  ∧ value (reldur_at k 0) <= inject_Z (Z.of_nat k) * (Expander.stride + drift).
Proof.
  intros Hk.
  pose proof (tracks_from_sound _ _ _ tracks_all k ltac:(lia)) as H.
  rewrite Z.add_0_l in H. unfold tracks in H.
  apply andb_true_iff in H as [Hf Hq]. split; [done|].
  apply Qle_bool_iff in Hq. apply Qabs_Qle_condition in Hq as [Hlo Hhi].
  split; lra.
Qed.

Lemma duration_in_range (d : float) :
  (0 <? d)%float = true → (d <=? 100)%float = true →
  is_finite d = true ∧ 0 < value d ∧ value d <= 100.
Proof.
  intros Hpos Hle.
  assert (F0 : is_finite 0 = true) by reflexivity.
  assert (F100 : is_finite 100 = true) by reflexivity.
  pose proof (between_finite 0 d 100 F0 F100 Hpos Hle) as Fd.
  split; [done|]. split.
  - by apply (ltb_value 0 d F0 Fd) in Hpos.
  - apply (leb_value d 100 Fd F100) in Hle.
    assert (E : value 100 == 100) by (vm_compute; reflexivity).
    by rewrite E in Hle.
Qed.

Lemma first_failure (f : nat → bool) (K : nat) :
  f K = false →
  ∃ n, (n ≤ K)%nat ∧ (∀ k, (k < n)%nat → f k = true) ∧ f n = false.
Proof.
  assert (H : ∀ K, (∃ n, (n ≤ K)%nat ∧ (∀ k, (k < n)%nat → f k = true)
                         ∧ f n = false)
                   ∨ (∀ k, (k ≤ K)%nat → f k = true)).
  { clear K. induction K as [|K [(n & Hn & Hall & Hout)|Hall]].
    - destruct (f 0%nat) eqn:E0.
      + right. intros k Hk. by replace k with 0%nat by lia.
      + left. exists 0%nat. split; [lia|]. split; [intros; lia | done].
    - left. exists n. split; [lia|]. done.
    - destruct (f (S K)) eqn:ES.
      + right. intros k Hk. destruct (decide (k = S K)) as [->|]; [done|].
        apply Hall. lia.
      + left. exists (S K). split; [lia|]. split; [|done].
        intros k Hk. apply Hall. lia. }
  intros HK. destruct (H K) as [Hfound|Hall]; [done|].
  rewrite Hall in HK; [done | lia].
Qed.

(** What the loop conditions say about the values. *)
Lemma in_unit_value (p : policy) (t d : float) :
  is_finite t = true → is_finite d = true →
  in_unit p t d = true
  ↔ match p with
    | Inclusive => value t <= value d
    | Exclusive => value t < value d
    end.
Proof.
  intros Ft Fd. destruct p; cbn [in_unit];
    [by apply leb_value | by apply ltb_value].
Qed.

Lemma in_unit_value_false (p : policy) (t d : float) :
  is_finite t = true → is_finite d = true →
  in_unit p t d = false
  ↔ match p with
    | Inclusive => value d < value t
    | Exclusive => value d <= value t
    end.
Proof.
  intros Ft Fd. rewrite <- not_true_iff_false, (in_unit_value p t d Ft Fd).
  destruct p; split.
  - apply Qnot_le_lt.
  - apply Qlt_not_le.
  - apply Qnot_lt_le.
  - apply Qle_not_lt.
Qed.

(** The number of frames of a unit: the first accumulated time at which
    the loop condition fails. *)
Lemma frame_count_exists (p : policy) (d : float) :
  (0 <? d)%float = true → (d <=? 100)%float = true →
  ∃ n, (1 <= Z.of_nat n <= 20002)%Z
       ∧ (∀ k, (k < n)%nat → in_unit p (reldur_at k 0) d = true)
       ∧ in_unit p (reldur_at n 0) d = false.
Proof.
  intros Hpos Hle.
  destruct (duration_in_range d Hpos Hle) as (Fd & Hd0 & Hd100).
  destruct (first_failure (fun k => in_unit p (reldur_at k 0) d)
              (Z.to_nat 20002)) as (n & Hn & Hin & Hout).
  - assert (HK : Z.of_nat (Z.to_nat 20002) = 20002%Z) by (apply Z2Nat.id; lia).
    destruct (elapsed_tracks (Z.to_nat 20002)) as (Ft & Hlo & _);
      [rewrite HK; lia|].
    apply (in_unit_value_false p _ d Ft Fd).
    rewrite HK in Hlo. unfold Expander.stride, drift, inject_Z in Hlo.
    destruct p; lra.
  - exists n. split; [|done]. split; [|lia].
    destruct n as [|n]; [exfalso|lia].
    change (reldur_at 0 0) with 0%float in Hout.
    assert (H0 : in_unit p 0 d = true).
    { destruct p; cbn [in_unit]; [|done].
      apply leb_value; [done | done |].
      change (value 0) with 0. lra. }
    congruence.
Qed.


Lemma frame_count_bounds (p : policy) (d : float) (n : nat) :
  (0 <? d)%float = true → (d <=? 100)%float = true →
  (1 <= Z.of_nat n <= 20002)%Z →
  (∀ k, (k < n)%nat → in_unit p (reldur_at k 0) d = true) →
  in_unit p (reldur_at n 0) d = false →
  match p with
  | Inclusive =>
      (inject_Z (Z.of_nat n) - 1) * (Expander.stride - drift) <= value d
      ∧ value d < inject_Z (Z.of_nat n) * (Expander.stride + drift)
  | Exclusive =>
      (inject_Z (Z.of_nat n) - 1) * (Expander.stride - drift) < value d
      ∧ value d <= inject_Z (Z.of_nat n) * (Expander.stride + drift)
  end.
Proof.
  intros Hpos Hle Hn Hin Hout.
  destruct (duration_in_range d Hpos Hle) as (Fd & _ & _).
  destruct n as [|n']; [lia|].
  destruct (elapsed_tracks n' ltac:(lia)) as (Fp & Hplo & _).
  destruct (elapsed_tracks (S n') ltac:(lia)) as (Fn & _ & Hnhi).
  specialize (Hin n' ltac:(lia)).
  apply (in_unit_value p _ d Fp Fd) in Hin.
  apply (in_unit_value_false p _ d Fn Fd) in Hout.
  assert (E : inject_Z (Z.of_nat (S n')) - 1 == inject_Z (Z.of_nat n')).
  { rewrite Nat2Z.inj_succ. unfold Z.succ. rewrite inject_Z_plus.
    change (inject_Z 1) with 1. ring. }
  unfold Expander.stride, drift in *. destruct p; split; lra.
Qed.

Lemma inject_Z_pred (a : Z) : inject_Z (a - 1) == inject_Z a - 1.
Proof.
  unfold Z.sub. rewrite inject_Z_plus, inject_Z_opp. reflexivity.
Qed.

Lemma inject_Z_succ (a : Z) : inject_Z (a + 1) == inject_Z a + 1.
Proof. rewrite inject_Z_plus. reflexivity. Qed.

Lemma inject_Z_succ_le (a b : Z) : (a < b)%Z → inject_Z a + 1 <= inject_Z b.
Proof.
  intros H. change 1 with (inject_Z 1). rewrite <- inject_Z_plus.
  rewrite <- Zle_Qle. lia.
Qed.

Lemma counts_related (d : float) (n m : nat) :
  (0 <? d)%float = true → (d <=? 100)%float = true →
  (1 <= Z.of_nat n <= 20002)%Z →
  (∀ k, (k < n)%nat → in_unit Exclusive (reldur_at k 0) d = true) →
  in_unit Exclusive (reldur_at n 0) d = false →
  (1 <= Z.of_nat m <= 20002)%Z →
  (∀ k, (k < m)%nat → in_unit Inclusive (reldur_at k 0) d = true) →
  in_unit Inclusive (reldur_at m 0) d = false →
  (n ≤ m ≤ n + 1)%nat.
Proof.
  intros Hpos Hle Hn Hnin Hnout Hm Hmin Hmout.
  destruct (duration_in_range d Hpos Hle) as (Fd & _ & _).
  split.
  - destruct (decide (m < n)%nat) as [Hlt|]; [exfalso|lia].
    destruct (elapsed_tracks m ltac:(lia)) as (Fm & _ & _).
    specialize (Hnin m Hlt).
    apply (in_unit_value Exclusive _ d Fm Fd) in Hnin.
    apply (in_unit_value_false Inclusive _ d Fm Fd) in Hmout.
    cbn in Hnin, Hmout. lra.
  - destruct (decide (n + 1 < m)%nat) as [Hlt|]; [exfalso|lia].
    destruct (elapsed_tracks n ltac:(lia)) as (Fn & _ & Hhi).
    destruct (elapsed_tracks (n + 1) ltac:(lia)) as (Fn1 & Hlo & _).
    specialize (Hmin (n + 1)%nat Hlt).
    apply (in_unit_value Inclusive _ d Fn1 Fd) in Hmin.
    apply (in_unit_value_false Exclusive _ d Fn Fd) in Hnout.
    cbn in Hmin, Hnout.
    rewrite Nat2Z.inj_add, inject_Z_plus in Hlo.
    change (inject_Z (Z.of_nat 1)) with 1 in Hlo.
    assert (HN : inject_Z (Z.of_nat n) <= 20002).
    { change 20002 with (inject_Z 20002). rewrite <- Zle_Qle. lia. }
    unfold Expander.stride, drift in *. lra.
Qed.

(** Away from the multiples of the stride the bounds leave one count. *)
Lemma exclusive_off_grid (D : Q) (n : Z) :
  (1 <= n)%Z →
  (inject_Z n - 1) * (Expander.stride - drift) < D →
  D <= inject_Z n * (Expander.stride + drift) →
  (∀ k, ¬ near_grid D k) →
  n = Qceiling (D / Expander.stride).
Proof.
  intros Hn Hlo Hhi Hoff.
  assert (Hs : 0 < Expander.stride) by reflexivity.
  pose proof (Qle_ceiling (D / Expander.stride)) as Hc1.
  pose proof (Qceiling_lt (D / Expander.stride)) as Hc2.
  apply Qdiv_le_mult in Hc1; [|done]. apply Qlt_div_mult in Hc2; [|done].
  set (c := Qceiling (D / Expander.stride)) in *.
  rewrite inject_Z_pred in Hc2.
  assert (H1 : 1 <= inject_Z n).
  { change 1 with (inject_Z 1). by rewrite <- Zle_Qle. }
  destruct (Z.lt_trichotomy n c) as [Hlt|[Heq|Hgt]]; [exfalso| done |exfalso].
  - apply inject_Z_succ_le in Hlt. apply (Hoff n). unfold near_grid.
    unfold Expander.stride, drift in *. split; nra.
  - apply inject_Z_succ_le in Hgt. apply (Hoff (n - 1)%Z). unfold near_grid.
    rewrite inject_Z_pred.
    unfold Expander.stride, drift in *. split; nra.
Qed.

Lemma inclusive_off_grid (D : Q) (n : Z) :
  (1 <= n)%Z →
  (inject_Z n - 1) * (Expander.stride - drift) <= D →
  D < inject_Z n * (Expander.stride + drift) →
  (∀ k, ¬ near_grid D k) →
  n = (Qfloor (D / Expander.stride) + 1)%Z.
Proof.
  intros Hn Hlo Hhi Hoff.
  assert (Hs : 0 < Expander.stride) by reflexivity.
  pose proof (Qfloor_le (D / Expander.stride)) as Hf1.
  pose proof (Qlt_floor (D / Expander.stride)) as Hf2.
  apply Qle_div_mult in Hf1; [|done]. apply Qdiv_lt_mult in Hf2; [|done].
  set (f := Qfloor (D / Expander.stride)) in *.
  rewrite inject_Z_succ in Hf2.
  assert (H1 : 1 <= inject_Z n).
  { change 1 with (inject_Z 1). by rewrite <- Zle_Qle. }
  destruct (Z.lt_trichotomy n (f + 1)) as [Hlt|[Heq|Hgt]];
    [exfalso| done |exfalso].
  - apply inject_Z_succ_le in Hlt. rewrite inject_Z_succ in Hlt.
    apply (Hoff n). unfold near_grid.
    unfold Expander.stride, drift in *. split; nra.
  - apply inject_Z_succ_le in Hgt. rewrite inject_Z_succ in Hgt.
    apply (Hoff (n - 1)%Z). unfold near_grid.
    rewrite inject_Z_pred.
    unfold Expander.stride, drift in *. split; nra.
Qed.

(** Next to the multiple [k] of the stride the count is [k] or [k + 1]. *)
Lemma near_grid_count (D : Q) (n k : Z) :
  0 < D → D <= 100 →
  (inject_Z n - 1) * (Expander.stride - drift) <= D →
  D <= inject_Z n * (Expander.stride + drift) →
  near_grid D k →
  n = k ∨ n = (k + 1)%Z.
Proof.
  intros H0 H100 Hlo Hhi [Hklo Hkhi].
  destruct (decide (n < k)%Z) as [Hlt|Hge].
  { exfalso. apply inject_Z_succ_le in Hlt.
    unfold Expander.stride, drift in *. nra. }
  destruct (decide (k + 1 < n)%Z) as [Hgt|Hle]; [exfalso|lia].
  apply inject_Z_succ_le in Hgt. rewrite inject_Z_succ in Hgt.
  unfold Expander.stride, drift in *. nra.
Qed.


Lemma none_float32_sound (n : nat) :
  ∀ t, none_float32 n t = true →
    ∀ j, (j < n)%nat → is_float32 (reldur_at j t) = false.
Proof.
  induction n as [|n IH]; intros t H j Hj; [lia|].
  cbn [none_float32] in H. apply andb_true_iff in H as [H0 Hrest].
  destruct j as [|j].
  - by apply negb_true_iff in H0.
  - rewrite reldur64_succ. apply IH; [done | lia].
Qed.

Lemma none_float32_all : none_float32 (Z.to_nat 20003) stride = true.
Proof. vm_compute. reflexivity. Qed.

(** No accumulated time after the first is a float32 value. *)
Lemma elapsed_not_float32 (k : nat) :
  (1 <= Z.of_nat k <= 20003)%Z → is_float32 (reldur_at k 0) = false.
Proof.
  intros Hk. destruct k as [|k]; [lia|]. rewrite reldur64_succ.
  change (0 + stride)%float with stride.
  apply (none_float32_sound _ _ none_float32_all). lia.
Qed.

Lemma counts_agree_float32 (d : float) (n m : nat) :
  is_float32 d = true →
  (0 <? d)%float = true → (d <=? 100)%float = true →
  (1 <= Z.of_nat n <= 20002)%Z →
  (∀ k, (k < n)%nat → in_unit Exclusive (reldur_at k 0) d = true) →
  in_unit Exclusive (reldur_at n 0) d = false →
  (1 <= Z.of_nat m <= 20002)%Z →
  (∀ k, (k < m)%nat → in_unit Inclusive (reldur_at k 0) d = true) →
  in_unit Inclusive (reldur_at m 0) d = false →
  n = m.
Proof.
  intros H32 Hpos Hle Hn Hnin Hnout Hm Hmin Hmout.
  destruct (counts_related d n m Hpos Hle Hn Hnin Hnout Hm Hmin Hmout)
    as [Hlo Hhi].
  destruct (decide (n = m)) as [|Hne]; [done|]. exfalso.
  assert (Hm1 : m = (n + 1)%nat) by lia. subst m.
  destruct (duration_in_range d Hpos Hle) as (Fd & Hd0 & _).
  destruct (elapsed_tracks n ltac:(lia)) as (Fn & _ & _).
  specialize (Hmin n ltac:(lia)).
  apply (in_unit_value Inclusive _ d Fn Fd) in Hmin.
  apply (in_unit_value_false Exclusive _ d Fn Fd) in Hnout.
  cbn in Hmin, Hnout.
  assert (Heq : (reldur_at n 0 =? d)%float = true).
  { apply eqb_value; [done | done | lra]. }
  pose proof (is_float32_eqb _ _ Heq ltac:(lra)) as H.
  rewrite H32, elapsed_not_float32 in H; [done | lia].
Qed.

(** A float32 duration that is not a multiple of the stride is not near
    one either. *)
Lemma float32_off_grid (d : float) :
  is_float32 d = true → 0 < value d → value d <= 100 →
  (∀ k : Z, ¬ value d == inject_Z k * Expander.stride) →
  ∀ k : Z, ¬ near_grid (value d) k.
Proof.
  intros H32 H0 H100 Hoff k [Hlo Hhi].
  destruct (float32_fraction d H32 H0 H100) as (A & P & HP & HA & HAP).
  apply (Hoff k).
  assert (HPq : 0 < inject_Z P).
  { change 0 with (inject_Z 0). by rewrite <- Zlt_Qlt. }
  assert (HAq : inject_Z A <= 16777215).
  { change 16777215 with (inject_Z 16777215). rewrite <- Zle_Qle.
    change (2 ^ 24)%Z with 16777216%Z in HA. lia. }
  assert (Hk0 : 0 <= inject_Z k).
  { unfold Expander.stride, drift in *.
    destruct (Qlt_le_dec (inject_Z k) 0); [exfalso; nra | done]. }
  set (KP := inject_Z k * inject_Z P).
  assert (HKP0 : 0 <= KP) by (unfold KP; nra).
  assert (H1 : KP * (Expander.stride - drift) <= inject_Z A).
  { rewrite <- HAP. unfold KP. unfold Expander.stride, drift in *. nra. }
  assert (H2 : inject_Z A <= KP * (Expander.stride + drift)).
  { rewrite <- HAP. unfold KP. unfold Expander.stride, drift in *. nra. }
  assert (Hint : (200 * A - k * P = 0)%Z).
  { assert (Hq : inject_Z (200 * A - k * P) == 200 * inject_Z A - KP).
    { unfold Z.sub. rewrite inject_Z_plus, inject_Z_opp, !inject_Z_mult.
      unfold KP. reflexivity. }
    assert (Hlt : inject_Z (200 * A - k * P) < inject_Z 1).
    { rewrite Hq. change (inject_Z 1) with 1.
      unfold Expander.stride, drift in *. lra. }
    assert (Hgt : inject_Z (-1) < inject_Z (200 * A - k * P)).
    { rewrite Hq. change (inject_Z (-1)) with (-1).
      unfold Expander.stride, drift in *. lra. }
    rewrite <- Zlt_Qlt in Hlt, Hgt. lia. }
  assert (Hq : 200 * inject_Z A == KP).
  { unfold KP. rewrite <- !inject_Z_mult.
    change 200 with (inject_Z 200). rewrite <- inject_Z_mult.
    apply inject_Z_injective. lia. }
  unfold Expander.stride.
  apply (Qmult_inj_r _ _ (inject_Z P)); [lra|].
  rewrite HAP. unfold KP in Hq. lra.
Qed.

Lemma multiple_near_grid (D : Q) (k : Z) :
  0 < D → D == inject_Z k * Expander.stride → near_grid D k.
Proof.
  intros H0 HD. unfold near_grid, Expander.stride, drift in *. split; lra.
Qed.


(** With enough fuel a unit's loop returns the queries up to its frame
    count. *)
Lemma expand_unit_run (p : policy) (code : list float) (ndur d : float)
    (n fuel : nat) :
  (0 <? d)%float = true → (d <=? 100)%float = true →
  (Z.of_nat n <= 20002)%Z →
  (∀ k, (k < n)%nat → in_unit p (reldur_at k 0) d = true) →
  in_unit p (reldur_at n 0) d = false →
  (20002 < Z.of_nat fuel)%Z →
  expand_unit p fuel code ndur d
  = Some (Ok (queries_from code ndur d 0 n)).
Proof.
  intros Hpos Hle Hn Hin Hout Hfuel.
  destruct (duration_in_range d Hpos Hle) as (Fd & Hd0 & _).
  apply unit_loop64_run; [|lia|done|done].
  apply not_true_iff_false. intros E.
  apply (eqb_value d 0 Fd eq_refl) in E. change (value 0) with 0 in E. lra.
Qed.

Lemma frame_counts_run (p : policy) (fuel : nat) (code : list float)
    (ndur d : float) (n : nat) :
  frame_counts p fuel code ndur d = Some n →
  ∃ qs, expand_unit p fuel code ndur d = Some (Ok qs) ∧ aco_seqlen qs = n.
Proof.
  unfold frame_counts.
  destruct (expand_unit p fuel code ndur d) as [[qs|e]|]; try done.
  intros [= <-]. by exists qs.
Qed.

(** Claim C1, amended.  For a unit whose duration [d] is a float32
    value with [0 < d <= 100] seconds, the loop of [synthesize] ([<=])
    and the loop of [att_synthesize] ([<]) return once the fuel exceeds
    20002, and they emit the same number [n] of queries.  When [d] is
    not a whole multiple of the 5 ms stride, [n] is
    [floor(d/s) + 1 = ceil(d/s)].  When [d] is the multiple
    [k * 0.005], [n] is [k] or [k + 1], as the rounding of the
    accumulated time decides: 25 at [d = 0.125 = 25 * 0.005] and 226 at
    [d = 1.125 = 225 * 0.005].  For the float32 number nearest 0.020,
    [n] is 4. *)
Theorem C1_frame_counts (code : list float) (ndur d : float) :
  is_float32 d = true →
  (0 <? d)%float = true → (d <=? 100)%float = true →
  (∃ n : nat,
     (∀ p fuel, (20002 < Z.of_nat fuel)%Z →
        ∃ qs, expand_unit p fuel code ndur d = Some (Ok qs)
              ∧ aco_seqlen qs = n)
     ∧ (¬ on_grid (value d) →
          Z.of_nat n = (Qfloor (value d / Expander.stride) + 1)%Z
          ∧ Z.of_nat n = Qceiling (value d / Expander.stride))
     ∧ (∀ k : Z, value d == inject_Z k * Expander.stride →
          Z.of_nat n = k ∨ Z.of_nat n = (k + 1)%Z))
  ∧ (∀ p, ∃ qs, expand_unit p 6 code ndur dur_020 = Some (Ok qs)
                ∧ aco_seqlen qs = 4%nat)
  ∧ (∀ p, ∃ qs, expand_unit p 30 code ndur 0.125 = Some (Ok qs)
                ∧ aco_seqlen qs = 25%nat)
  ∧ (∀ p, ∃ qs, expand_unit p 230 code ndur 1.125 = Some (Ok qs)
                ∧ aco_seqlen qs = 226%nat).
Proof.
  intros H32 Hpos Hle. split; [|split; [|split]].
  - destruct (duration_in_range d Hpos Hle) as (Fd & Hd0 & Hd100).
    destruct (frame_count_exists Inclusive d Hpos Hle)
      as (m & Hm & Hmin & Hmout).
    destruct (frame_count_exists Exclusive d Hpos Hle)
      as (n & Hn & Hnin & Hnout).
    pose proof (counts_agree_float32 d n m H32 Hpos Hle Hn Hnin Hnout
                  Hm Hmin Hmout) as Hsame. subst m.
    pose proof (frame_count_bounds Inclusive d n Hpos Hle Hn Hmin Hmout)
      as [Hmlo Hmhi].
    pose proof (frame_count_bounds Exclusive d n Hpos Hle Hn Hnin Hnout)
      as [Hnlo Hnhi].
    exists n. split; [|split].
    + intros p fuel Hfuel. exists (queries_from code ndur d 0 n). split.
      * destruct p;
          (apply expand_unit_run; [done | done | lia | done | done | done]).
      * unfold aco_seqlen. by rewrite length_queries64.
    + intros Hoff.
      assert (Hoff' : ∀ k : Z, ¬ value d == inject_Z k * Expander.stride).
      { intros k Hk. apply Hoff. by exists k. }
      pose proof (float32_off_grid d H32 Hd0 Hd100 Hoff') as Hfar. split.
      * apply inclusive_off_grid; [lia | done | done | done].
      * apply exclusive_off_grid; [lia | done | done | done].
    + intros k Hk. pose proof (multiple_near_grid _ _ Hd0 Hk) as Hnear.
      apply (near_grid_count (value d));
        [done | done | done | done | done].
  - intros p. apply frame_counts_run. by destruct p; vm_compute.
  - intros p. apply frame_counts_run. by destruct p; vm_compute.
  - intros p. apply frame_counts_run. by destruct p; vm_compute.
Qed.

End Expander64Facts.

Section Expander64Examples.
Import Binary64 Expander Expander64.
Open Scope Q_scope.

(** At [d = 0.125 = 25 * 0.005] the inclusive loop emits 25 queries,
    not [floor(d/s) + 1 = 26]. *)
Lemma C1_counterexample : ¬ exact_frame_counts.
Proof.
  intros H.
  destruct (H [] 1%float 0.125%float 30%nat
              (queries_from [] 1 0.125 0 25) eq_refl) as [Hincl _].
  specialize (Hincl ltac:(vm_compute; reflexivity)).
  vm_compute in Hincl. discriminate Hincl.
Qed.

Lemma dur_020_off_grid : ¬ on_grid (value dur_020).
Proof.
  intros [k Hk].
  assert (E : value dur_020 == 5764607394185216 # 288230376151711744)
    by (vm_compute; reflexivity).
  rewrite E in Hk. unfold Qeq, Expander.stride in Hk. cbn in Hk. lia.
Qed.

Lemma C1_frame_counts_witness :
  is_float32 dur_020 = true
  ∧ (0 <? dur_020)%float = true ∧ (dur_020 <=? 100)%float = true
  ∧ ¬ on_grid (value dur_020)
  ∧ ∃ n : nat,
      (∀ p fuel, (20002 < Z.of_nat fuel)%Z →
         ∃ qs, expand_unit p fuel [] 1 dur_020 = Some (Ok qs)
               ∧ aco_seqlen qs = n)
      ∧ Z.of_nat n = (Qfloor (value dur_020 / Expander.stride) + 1)%Z
      ∧ Z.of_nat n = Qceiling (value dur_020 / Expander.stride).
Proof.
  assert (H32 : is_float32 dur_020 = true) by reflexivity.
  assert (Hpos : (0 <? dur_020)%float = true) by reflexivity.
  assert (Hle : (dur_020 <=? 100)%float = true) by reflexivity.
  split; [exact H32|]. split; [exact Hpos|]. split; [exact Hle|].
  split; [exact dur_020_off_grid|].
  destruct (C1_frame_counts [] 1 dur_020 H32 Hpos Hle)
    as [(n & Hrun & Hfar & _) _].
  exists n. split; [exact Hrun|]. exact (Hfar dur_020_off_grid).
Defined.

End Expander64Examples.

(** ** Duration de-normalization *)

Section DurationFacts.
Import Durations.
Open Scope Q_scope.

(** The formula of the specification does invert the normalization. *)
Lemma denormalize_spec_inverse (st : durstats) (d : Q) :
  ds_min st < ds_max st → denormalize_spec st (normalize st d) == d.
Proof.
  intros Hlt. unfold denormalize_spec, normalize. field.
  intros E. apply (Qlt_irrefl (ds_min st)).
  assert (E' : ds_max st == ds_min st).
  { rewrite <- (Qplus_0_l (ds_min st)), <- E. ring. }
  by rewrite E' in Hlt.
Qed.

Lemma denormalize_spec_inverse_witness :
  1 < 3 ∧ denormalize_spec (DurStats 1 3) (normalize (DurStats 1 3) 2) == 2.
Proof.
  split; [reflexivity|].
  apply (denormalize_spec_inverse (DurStats 1 3) 2). reflexivity.
Defined.

(** The driver hands the value of [denormalize] to the expansion loop. *)
Lemma unit_durations_predicted (st : durstats) (lab_durs : list Q) (n : Q) :
  unit_durations false st lab_durs [n]
  = [(n, n * ds_min st - ds_max st + ds_min st)].
Proof. reflexivity. Qed.

(** Claim C3, at the speaker statistics [min = 1], [max = 3] and the
    physical duration 2.  The normalized duration is 1/2; the
    de-normalization of the drivers, [ndurs * min - max + min], maps it
    to -3/2 and not back to 2, whereas [n * (max - min) + min] does
    return 2. *)
Theorem C3_denormalize_not_inverse :
  let st := DurStats 1 3 in
  ds_min st < ds_max st
  ∧ normalize st 2 == 1 # 2
  ∧ denormalize st (normalize st 2) == - (3 # 2)
  ∧ ¬ denormalize st (normalize st 2) == 2
  ∧ denormalize_spec st (normalize st 2) == 2.
Proof.
  cbv zeta. split; [reflexivity|]. split; [reflexivity|].
  split; [reflexivity|]. split; [|reflexivity].
  intros E. vm_compute in E. discriminate E.
Qed.

End DurationFacts.

(** ** The speaker check *)

Section SpeakerCheckFacts.
Import SpeakerCheck.

(** The assertion is made on a pair, and a pair is true. *)
Lemma speaker_check_never_fails (s00 : Z) (row : list Z) (rows : list (list Z)) :
  speaker_check ((s00 :: row) :: rows) = Ok ().
Proof. reflexivity. Qed.

(** Claim C5, at a batch holding the speaker ids 0 and 1.  The batch
    has two distinct speakers, the check of the evaluation runners
    accepts it, and an assertion on [np.all(...)] alone would fail. *)
Theorem C5_mixed_batch_passes :
  two_speakers [[0; 1]]%Z
  ∧ speaker_check [[0; 1]]%Z = Ok ()
  ∧ speaker_check_spec [[0; 1]]%Z = Raise AssertionError.
Proof.
  split; [|split; reflexivity].
  exists 0%Z, 1%Z. simpl. split; [|split]; [set_solver | set_solver | lia].
Qed.

End SpeakerCheckFacts.

(** ** The training engine *)

Section EngineFacts.
Import Engine.
Context {Loader : Type}.
Implicit Types (a : args Loader) (st : state).

Lemma epoch_body_no_loader a epoch st f :
  eval_fn a = Some f → val_dloader a = None →
  ∃ st', epoch_body a epoch st = (st', Abort ValueError)
         ∧ trace st' = trace st ++ [EvTrain epoch].
Proof.
  intros Hf Hl. unfold epoch_body. rewrite Hf, Hl. eexists. split; [done|].
  reflexivity.
Qed.

Lemma epoch_body_improves a epoch st f l t p v :
  eval_fn a = Some f → val_dloader a = Some l →
  target_given (eval_target a) = Some t → eval_patience a = Some p →
  f l epoch !! t = Some v → improves v (min_va_loss st) = true →
  ∃ st', epoch_body a epoch st = (st', Continue)
         ∧ min_va_loss st' = Fin v ∧ patience st' = Some p
         ∧ trace st' = trace st ++ [EvTrain epoch; EvEval epoch]
                       ++ scheduler_events a epoch v
                       ++ [EvSave epoch true; EvPersistTrain epoch;
                           EvPersistVal epoch].
Proof.
  intros Hf Hl Ht Hp Hv Himp.
  unfold epoch_body. rewrite Hf, Hl, Ht. unfold monitor. rewrite Hp, Hv.
  unfold scheduler_events, checkpoint. rewrite Ht.
  destruct (opt_scheduler a); cbn -[accumulate]; rewrite Himp;
    (eexists; split; [reflexivity|]); cbn -[accumulate];
    rewrite <- ?app_assoc; done.
Qed.

Lemma epoch_body_stalls a epoch st f l t p v q :
  eval_fn a = Some f → val_dloader a = Some l →
  target_given (eval_target a) = Some t → eval_patience a = Some p →
  f l epoch !! t = Some v → improves v (min_va_loss st) = false →
  patience st = Some q → (q - 1)%Z ≠ 0%Z →
  ∃ st', epoch_body a epoch st = (st', Continue)
         ∧ min_va_loss st' = min_va_loss st
         ∧ patience st' = Some (q - 1)%Z
         ∧ trace st' = trace st ++ [EvTrain epoch; EvEval epoch]
                       ++ scheduler_events a epoch v
                       ++ [EvSave epoch false; EvPersistTrain epoch;
                           EvPersistVal epoch].
Proof.
  intros Hf Hl Ht Hp Hv Himp Hq Hne.
  unfold epoch_body. rewrite Hf, Hl, Ht. unfold monitor. rewrite Hp, Hv.
  unfold scheduler_events, checkpoint. rewrite Ht.
  apply Z.eqb_neq in Hne.
  destruct (opt_scheduler a); cbn -[accumulate Z.sub]; rewrite Himp, Hq;
    cbn -[accumulate Z.sub]; rewrite Hne;
    (eexists; split; [reflexivity|]); cbn -[accumulate Z.sub];
    rewrite <- ?app_assoc; done.
Qed.

Lemma epoch_body_out_of_patience a epoch st f l t p v :
  eval_fn a = Some f → val_dloader a = Some l →
  target_given (eval_target a) = Some t → eval_patience a = Some p →
  f l epoch !! t = Some v → improves v (min_va_loss st) = false →
  patience st = Some 1%Z →
  ∃ st', epoch_body a epoch st = (st', Break)
         ∧ min_va_loss st' = min_va_loss st
         ∧ trace st' = trace st ++ [EvTrain epoch; EvEval epoch]
                       ++ scheduler_events a epoch v.
Proof.
  intros Hf Hl Ht Hp Hv Himp Hq.
  unfold epoch_body. rewrite Hf, Hl, Ht. unfold monitor. rewrite Hp, Hv.
  unfold scheduler_events.
  destruct (opt_scheduler a); cbn -[accumulate]; rewrite Himp, Hq;
    cbn -[accumulate];
    (eexists; split; [reflexivity|]); cbn -[accumulate];
    rewrite <- ?app_assoc; done.
Qed.


(** Claim C2.  With patience 2 and the monitored values 1.0, 0.9, 0.95,
    0.96, 0.97 for the epochs 0 to 4, the engine stops early in epoch 3,
    after four epochs have been trained and evaluated; the checkpoints
    saved are those of epochs 0, 1 (both flagged best) and 2, so the last
    one flagged best is that of epoch 1, whose monitored value 0.9 is the
    best value kept. *)
Theorem C2_early_stopping a f l t :
  eval_fn a = Some f → val_dloader a = Some l →
  target_given (eval_target a) = Some t →
  eval_patience a = Some 2%Z → epochs a = 5%nat →
  f l 0%nat !! t = Some 1.0%Q → f l 1%nat !! t = Some 0.9%Q →
  f l 2%nat !! t = Some 0.95%Q → f l 3%nat !! t = Some 0.96%Q →
  f l 4%nat !! t = Some 0.97%Q →
  ∃ st, train_engine a = (st, EarlyStopped 3)
        ∧ trained_epochs (trace st) = [0; 1; 2; 3]%nat
        ∧ evaluated_epochs (trace st) = [0; 1; 2; 3]%nat
        ∧ saves (trace st) = [(0, true); (1, true); (2, false)]%nat
        ∧ best_checkpoint (trace st) = Some 1%nat
        ∧ min_va_loss st = Fin 0.9%Q.
Proof.
  intros Hf Hl Ht Hp He H0 H1 H2 H3 _.
  unfold train_engine. rewrite He, Hp. cbn [seq run_epochs].
  set (st0 := State ∅ ∅ PosInf (Some 2%Z) []).
  destruct (epoch_body_improves a 0 st0 f l t 2%Z _ Hf Hl Ht Hp H0 eq_refl)
    as (st1 & -> & Hm1 & Hq1 & Htr1).
  destruct (epoch_body_improves a 1 st1 f l t 2%Z _ Hf Hl Ht Hp H1)
    as (st2 & -> & Hm2 & Hq2 & Htr2); [by rewrite Hm1|].
  destruct (epoch_body_stalls a 2 st2 f l t 2%Z _ 2%Z Hf Hl Ht Hp H2)
    as (st3 & -> & Hm3 & Hq3 & Htr3); [by rewrite Hm2 | done | done |].
  destruct (epoch_body_out_of_patience a 3 st3 f l t 2%Z _ Hf Hl Ht Hp H3)
    as (st4 & -> & Hm4 & Htr4); [by rewrite Hm3, Hm2 | done |].
  exists st4. split; [done|].
  rewrite Hm4, Hm3, Hm2, Htr4, Htr3, Htr2, Htr1. unfold scheduler_events.
  by destruct (opt_scheduler a).
Qed.

(** Claim C4, amended.  With an evaluation function and no validation
    loader, a run of at least one epoch fails with [ValueError] in epoch
    0, after the training pass of that epoch and before any evaluation,
    checkpoint or persistence; a run of zero epochs completes without
    any error. *)
Theorem C4_missing_loader_fails_after_training a f :
  eval_fn a = Some f → val_dloader a = None →
  (epochs a ≠ 0%nat →
     ∃ st, train_engine a = (st, Failed 0 ValueError)
           ∧ trace st = [EvTrain 0])
  ∧ (epochs a = 0%nat →
     train_engine a = (State ∅ ∅ PosInf (eval_patience a) [], Completed)).
Proof.
  intros Hf Hl. unfold train_engine. split.
  - intros Hne. destruct (epochs a) as [|n]; [done|]. cbn [seq run_epochs].
    destruct (epoch_body_no_loader a 0
                (State ∅ ∅ PosInf (eval_patience a) []) f Hf Hl)
      as (st & -> & Htr).
    by exists st.
  - by intros ->.
Qed.

End EngineFacts.

Section EngineExamples.
Import Engine Examples.

Lemma C2_early_stopping_witness :
  ∃ st, train_engine example_run = (st, EarlyStopped 3)
        ∧ trained_epochs (trace st) = [0; 1; 2; 3]%nat
        ∧ evaluated_epochs (trace st) = [0; 1; 2; 3]%nat
        ∧ saves (trace st) = [(0, true); (1, true); (2, false)]%nat
        ∧ best_checkpoint (trace st) = Some 1%nat
        ∧ min_va_loss st = Fin 0.9%Q.
Proof.
  apply (C2_early_stopping example_run example_eval () "va_loss");
    vm_compute; reflexivity.
Defined.

Lemma C4_missing_loader_witness :
  ∃ st, train_engine example_no_loader = (st, Failed 0 ValueError)
        ∧ trace st = [EvTrain 0].
Proof.
  destruct (C4_missing_loader_fails_after_training
              example_no_loader example_eval eq_refl eq_refl) as [H _].
  apply H. vm_compute. discriminate.
Defined.

(** The run [example_no_loader] trains epoch 0 before it fails: the
    failure does not come before any training. *)
Lemma C4_counterexample : ¬ fails_before_training.
Proof.
  intros H.
  destruct (H example_no_loader example_eval eq_refl eq_refl)
    as (st & epoch & Hrun & Htr).
  destruct (epoch_body_no_loader example_no_loader 0
              (State ∅ ∅ PosInf None []) example_eval eq_refl eq_refl)
    as (st' & Hbody & Htr').
  unfold train_engine in Hrun. cbn [epochs example_no_loader seq run_epochs eval_patience] in Hrun.
  rewrite Hbody in Hrun. injection Hrun as <- _.
  rewrite Htr' in Htr. discriminate Htr.
Qed.

End EngineExamples.

(** ** The options of duration training *)

Section DurOptsFacts.
Import DurOpts.

(** The option block reads the value stored under ['stateful'] nowhere. *)
Lemma train_dur_opts_stateful_present (tr_opts : gmap string optval) (v : optval) :
  train_dur_opts (<["stateful" := v]> tr_opts)
  = (let '(spk2durstats, tr_opts) := pop "spk2durstats" (delete "stateful" tr_opts) in
     let '(idx2spk, tr_opts) := pop "idx2spk" tr_opts in
     let '(mo, tr_opts) := pop "mulout" tr_opts in
     '(mulout, round_N) ←
       match mo with
       | None => Ok (VBool false, 1%Z)
       | Some v => n ← n_keys idx2spk; Ok (v, n)
       end;
     if bool_decide (size tr_opts = 0%nat)
     then Ok (DurOptsOf true spk2durstats idx2spk mulout round_N)
     else Raise AssertionError).
Proof.
  unfold train_dur_opts, pop at 1.
  rewrite lookup_insert_eq, delete_insert_eq.
  rewrite bool_decide_eq_true_2; [done | by eexists].
Qed.

Lemma train_dur_opts_stateful_flag (tr_opts : gmap string optval) (o : dur_opts) :
  train_dur_opts tr_opts = Ok o →
  stateful o = bool_decide (is_Some (tr_opts !! "stateful")).
Proof.
  unfold train_dur_opts, pop. cbn zeta.
  set (m := delete "mulout" _).
  destruct (delete "idx2spk" _ !! "mulout") as [v|].
  - destruct (n_keys _) as [n|e]; cbn; [|done].
    destruct (bool_decide (size m = 0%nat)); [|done]. by intros [= <-].
  - cbn. destruct (bool_decide (size m = 0%nat)); [|done]. by intros [= <-].
Qed.

(** Claim C9.  The value stored under ['stateful'] does not matter:
    any two values give the same options, [False] and [True] give the
    same handling of the recurrent state in every batch, the flag is set
    whenever the key is present, and it is clear when the key is
    absent. *)
Theorem C9_stateful_key_presence (tr_opts : gmap string optval)
    (v1 v2 : optval) (num_batches : nat) :
  train_dur_opts (<["stateful" := v1]> tr_opts)
  = train_dur_opts (<["stateful" := v2]> tr_opts)
  ∧ epoch_state_actions (<["stateful" := VBool false]> tr_opts) num_batches
    = epoch_state_actions (<["stateful" := VBool true]> tr_opts) num_batches
  ∧ (∀ o, train_dur_opts (<["stateful" := v1]> tr_opts) = Ok o →
          stateful o = true)
  ∧ (tr_opts !! "stateful" = None →
     ∀ o, train_dur_opts tr_opts = Ok o → stateful o = false).
Proof.
  split; [|split; [|split]].
  - by rewrite !train_dur_opts_stateful_present.
  - unfold epoch_state_actions. by rewrite !train_dur_opts_stateful_present.
  - intros o Ho. rewrite (train_dur_opts_stateful_flag _ _ Ho).
    rewrite lookup_insert_eq. apply bool_decide_eq_true_2. by eexists.
  - intros Hnone o Ho. rewrite (train_dur_opts_stateful_flag _ _ Ho), Hnone.
    apply bool_decide_eq_false_2. by intros [? ?].
Qed.

Lemma C9_stateful_key_presence_witness :
  Examples.example_opts !! "stateful" = None
  ∧ (∃ o, train_dur_opts Examples.example_opts = Ok o ∧ stateful o = false)
  ∧ (∃ o, train_dur_opts (<["stateful" := VBool false]> Examples.example_opts)
          = Ok o ∧ stateful o = true)
  ∧ epoch_state_actions (<["stateful" := VBool false]> Examples.example_opts) 3
    = Ok [[InitHidden]; [DetachPrevious]; [DetachPrevious]]
  ∧ epoch_state_actions Examples.example_opts 3
    = Ok [[InitHidden]; [InitHidden]; [InitHidden]].
Proof.
  destruct (C9_stateful_key_presence Examples.example_opts
              (VBool false) (VBool true) 3) as (_ & Hact & Hset & Hclear).
  split; [reflexivity|]. split; [|split; [|split]].
  - eexists. split; [vm_compute; reflexivity|].
    apply Hclear; [reflexivity | vm_compute; reflexivity].
  - eexists. split; [vm_compute; reflexivity|].
    apply Hset. vm_compute. reflexivity.
  - rewrite Hact. vm_compute. reflexivity.
  - vm_compute. reflexivity.
Defined.

End DurOptsFacts.

(** ** Per-speaker loss records *)

Section MOLogFacts.
Import MOLog.
Implicit Types (idx2spk : gmap Z string) (st : log_state) (b : batch).

Lemma names_app idx2spk (pre suf : list batch) :
  names idx2spk (pre ++ suf) = names idx2spk pre ∪ names idx2spk suf.
Proof. unfold names. by rewrite omap_app, list_to_set_app_L. Qed.

Lemma names_singleton idx2spk b name :
  idx2spk !! b_spk b = Some name → names idx2spk [b] = {[name]}.
Proof.
  intros H. unfold names. simpl. rewrite H. simpl.
  by rewrite union_empty_r_L.
Qed.

Lemma log_inv_init idx2spk : log_inv idx2spk [] (LogState ∅ ∅ []).
Proof.
  split; [apply dom_empty_L|]. intros k losses H. simpl in H.
  by apply elem_of_nil in H.
Qed.

Lemma batch_step_inv r idx2spk round_N log_freq num_batches pre b st st' :
  log_inv idx2spk pre st →
  batch_step r true idx2spk round_N log_freq num_batches (length pre) b st
  = Ok st' →
  log_inv idx2spk (pre ++ [b]) st'.
Proof.
  intros [Hdom Hrec] Hstep. unfold batch_step, spk_name in Hstep.
  destruct (idx2spk !! b_spk b) as [name|] eqn:Hname;
    [|destruct r; discriminate Hstep].
  assert (Hstep' :
    (due ← log_due round_N log_freq num_batches (length pre);
     Ok (if due : bool
         then emit true (length pre) (b_loss b)
                (LogState (<[name:=b_loss b]> (spk_loss_batch st))
                          (epoch_losses st) (records st))
         else LogState (<[name:=b_loss b]> (spk_loss_batch st))
                       (epoch_losses st) (records st))) = Ok st').
  { by destruct r. }
  clear Hstep.
  assert (Hdom' : dom (<[name:=b_loss b]> (spk_loss_batch st))
                  = names idx2spk (pre ++ [b])).
  { rewrite dom_insert_L, Hdom, names_app, (names_singleton _ _ _ Hname).
    apply (comm_L (∪)). }
  assert (Hold : ∀ k losses, MORecord k losses ∈ records st →
            (k < length (pre ++ [b]))%nat
            ∧ dom losses = names idx2spk (take (S k) (pre ++ [b]))).
  { intros k losses Hin. destruct (Hrec k losses Hin) as [Hk Hd].
    rewrite length_app. split; [lia|]. rewrite take_app_le; [done|lia]. }
  destruct (log_due round_N log_freq num_batches (length pre)) as [due|e];
    [|discriminate Hstep'].
  cbn in Hstep'. injection Hstep' as <-. destruct due; cbn.
  - split; [done|]. intros k losses Hin. cbn in Hin.
    apply elem_of_app in Hin as [Hin|Hin]; [by apply Hold|].
    apply list_elem_of_singleton in Hin. injection Hin as -> ->.
    rewrite length_app. cbn. split; [lia|].
    rewrite take_ge; [done|]. rewrite length_app. cbn. lia.
  - split; [done|]. exact Hold.
Qed.

Lemma run_batches_inv r idx2spk round_N log_freq num_batches :
  ∀ batches pre st st',
    log_inv idx2spk pre st →
    run_batches r true idx2spk round_N log_freq num_batches (length pre)
                batches st = Ok st' →
    log_inv idx2spk (pre ++ batches) st'.
Proof.
  induction batches as [|b rest IH]; intros pre st st' Hinv Hrun.
  - cbn in Hrun. injection Hrun as <-. by rewrite app_nil_r.
  - cbn [run_batches] in Hrun.
    destruct (batch_step r true idx2spk round_N log_freq num_batches
                (length pre) b st) as [st1|e] eqn:Hstep;
      [|discriminate Hrun].
    cbn in Hrun. rewrite (cons_middle b pre rest), app_assoc.
    apply (IH (pre ++ [b]) st1 st').
    + by eapply batch_step_inv.
    + rewrite length_app. cbn. by rewrite Nat.add_1_r.
Qed.

(** Claim C6, amended.  In a multi-output epoch the running dictionary
    of per-speaker losses holds the speakers of all batches processed,
    and every composite record, written at batch [k], holds exactly the
    speakers of the batches [0 .. k] of the epoch: nothing is removed
    when a record is written. *)
Theorem C6_records_cover_epoch r idx2spk round_N log_freq
    (batches : list batch) st :
  train_epoch_log r true idx2spk round_N log_freq batches = Ok st →
  dom (spk_loss_batch st) = names idx2spk batches
  ∧ ∀ k losses, MORecord k losses ∈ records st →
      (k < length batches)%nat
      ∧ dom losses = speakers_between idx2spk batches 0 (S k).
Proof.
  intros Hrun. unfold train_epoch_log in Hrun.
  destruct (run_batches_inv r idx2spk round_N log_freq (length batches)
              batches [] _ st (log_inv_init idx2spk) Hrun) as [Hdom Hrec].
  split; [done|]. intros k losses Hin.
  destruct (Hrec k losses Hin) as [Hk Hd]. split; [done|].
  unfold speakers_between. by rewrite Nat.sub_0_r, drop_0.
Qed.

End MOLogFacts.

Section MOLogExamples.
Import MOLog Examples.

Lemma example_records :
  records <$> (match train_epoch_log Dur true example_idx2spk 2 1 example_batches with Ok st => Some st | Raise _ => None end)
  = Some [MORecord 1 {[ "spkA" := 0.5%Q; "spkB" := 0.4%Q ]};
          MORecord 2 {[ "spkA" := 0.3%Q; "spkB" := 0.4%Q ]}].
Proof. vm_compute. reflexivity. Qed.

(** In [example_batches] the second record still lists the second
    speaker, who has no batch after the first record. *)
Lemma C6_counterexample : ¬ reset_after_emission.
Proof.
  intros H.
  destruct (train_epoch_log Dur true example_idx2spk 2 1 example_batches)
    as [st|e] eqn:Hrun; [|vm_compute in Hrun; discriminate Hrun].
  pose proof example_records as Hrec. rewrite Hrun in Hrec. cbn in Hrec.
  injection Hrec as Hrec.
  specialize (H Dur example_idx2spk 2%Z 1%Z example_batches st [] _ _ _ _ []
                Hrun Hrec).
  assert (Hin : "spkB" ∈ dom ({[ "spkA" := 0.3%Q; "spkB" := 0.4%Q ]} : gmap string Q)).
  { apply elem_of_dom. eexists. vm_compute. reflexivity. }
  rewrite H in Hin.
  apply elem_of_list_to_set in Hin. vm_compute in Hin.
  apply (list_elem_of_singleton "spkB" "spkA") in Hin. discriminate Hin.
Qed.

Lemma C6_records_cover_epoch_witness :
  ∃ st, train_epoch_log Dur true example_idx2spk 2 1 example_batches = Ok st
        ∧ dom (spk_loss_batch st) = names example_idx2spk example_batches
        ∧ ∀ k losses, MORecord k losses ∈ records st →
            (k < length example_batches)%nat
            ∧ dom losses = speakers_between example_idx2spk example_batches 0 (S k).
Proof.
  destruct (train_epoch_log Dur true example_idx2spk 2 1 example_batches)
    as [st|e] eqn:Hrun; [|vm_compute in Hrun; discriminate Hrun].
  exists st. split; [reflexivity|].
  exact (C6_records_cover_epoch Dur example_idx2spk 2 1 example_batches st Hrun).
Defined.

End MOLogExamples.

(** ** Post-processing *)

Section PostProcFacts.
Import PostProc.

Lemma elem_of_where_from (cond : list bool) :
  ∀ k i, i ∈ where_from k cond ↔ (k ≤ i)%nat ∧ cond !! (i - k)%nat = Some true.
Proof.
  induction cond as [|b rest IH]; intros k i; cbn [where_from].
  - split; [intros H; by apply elem_of_nil in H | intros [_ H]; done].
  - rewrite elem_of_app, IH. split.
    + intros [H|[Hle H]].
      * destruct b; [|by apply elem_of_nil in H].
        apply list_elem_of_singleton in H as ->.
        split; [lia|]. by rewrite Nat.sub_diag.
      * split; [lia|]. replace (i - k)%nat with (S (i - S k)) by lia. done.
    + intros [Hle H]. destruct (decide (i = k)) as [->|Hne].
      * left. rewrite Nat.sub_diag in H. cbn in H. injection H as ->.
        by apply list_elem_of_singleton.
      * right. split; [lia|].
        replace (i - k)%nat with (S (i - S k)) in H by lia. done.
Qed.

Lemma elem_of_np_where (cond : list bool) (i : nat) :
  i ∈ np_where cond ↔ cond !! i = Some true.
Proof.
  unfold np_where. rewrite elem_of_where_from, Nat.sub_0_r.
  split; [by intros [_ H] | intros H; split; [lia | done]].
Qed.

Lemma length_assign_at (idx : list nat) (v : Q) :
  ∀ a, length (assign_at a idx v) = length a.
Proof.
  unfold assign_at. induction idx as [|j idx IH]; intros a; cbn; [done|].
  by rewrite IH, length_insert.
Qed.

Lemma assign_at_notin (idx : list nat) (v : Q) (i : nat) :
  i ∉ idx → ∀ a, assign_at a idx v !! i = a !! i.
Proof.
  unfold assign_at. induction idx as [|j idx IH]; intros Hi a; cbn; [done|].
  apply not_elem_of_cons in Hi as [Hne Hi].
  rewrite IH by done. by apply list_lookup_insert_ne.
Qed.

Lemma assign_at_in (idx : list nat) (v : Q) (i : nat) :
  i ∈ idx → ∀ a, (i < length a)%nat → assign_at a idx v !! i = Some v.
Proof.
  induction idx as [|j idx IH]; intros Hi a Hlen;
    [by apply elem_of_nil in Hi|].
  change (assign_at a (j :: idx) v) with (assign_at (<[j:=v]> a) idx v).
  destruct (decide (i ∈ idx)) as [Hin|Hnotin].
  - apply IH; [done|]. by rewrite length_insert.
  - apply elem_of_cons in Hi as [->|Hi]; [|done].
    rewrite assign_at_notin by done. by apply list_lookup_insert_eq.
Qed.

Lemma length_column_from_end (k : nat) (acot : list (list Q)) :
  length (column_from_end k acot) = length acot.
Proof. unfold column_from_end. apply length_map. Qed.

Lemma postprocess_ok (acot : list (list Q)) (ch : channels) :
  postprocess acot = Ok ch →
  uv ch = map np_round (column_from_end 1 acot)
  ∧ fv ch = assign_at (fv_marked acot)
              (np_where (map (fun f => Qltb f 1000) (fv_marked acot)))
              unvoiced_fv
  ∧ lf0 ch = assign_at (column_from_end 2 acot)
               (np_where (map (fun u => Qeq_bool u 0) (uv ch)))
               unvoiced_lf0.
Proof.
  unfold postprocess. destruct (forallb _ acot); [|done].
  destruct (_ =? _)%nat; [|done]. by intros [= <-].
Qed.

Lemma fv_marked_length (acot : list (list Q)) :
  length (fv_marked acot) = length acot.
Proof. unfold fv_marked. by rewrite length_assign_at, length_column_from_end. Qed.

Lemma unvoiced_index (acot : list (list Q)) (i : nat) (u : Q) :
  map np_round (column_from_end 1 acot) !! i = Some u → (u == 0)%Q →
  i ∈ np_where (map (fun u => Qeq_bool u 0)
                    (map np_round (column_from_end 1 acot)))
  ∧ (i < length acot)%nat.
Proof.
  intros Hu Hz. split.
  - apply elem_of_np_where. rewrite list_lookup_fmap, Hu. cbn.
    f_equal. by apply Qeq_bool_iff.
  - apply lookup_lt_Some in Hu.
    by rewrite length_map, length_column_from_end in Hu.
Qed.

(** Claim C7.  At every frame whose rounded voicing value is 0 the
    post-processing leaves the tilt at 1000.0 and the log-F0 at -1e10,
    whatever the acoustic output [acot] was. *)
Theorem C7_unvoiced_sentinels (acot : list (list Q)) (ch : channels)
    (i : nat) (u : Q) :
  postprocess acot = Ok ch →
  uv ch !! i = Some u → (u == 0)%Q →
  fv ch !! i = Some 1000%Q ∧ lf0 ch !! i = Some (-10000000000)%Q.
Proof.
  intros Hpost Hu Hz. destruct (postprocess_ok _ _ Hpost) as (Huv & Hfv & Hlf0).
  rewrite Huv in Hu. destruct (unvoiced_index _ _ _ Hu Hz) as [Hin Hlen].
  assert (Hmark : fv_marked acot !! i = Some unvoiced_fv).
  { unfold fv_marked. apply assign_at_in; [done|].
    by rewrite length_column_from_end. }
  split.
  - rewrite Hfv.
    destruct (decide (i ∈ np_where (map (fun f => Qltb f 1000)
                                        (fv_marked acot)))) as [Hw|Hw].
    + apply assign_at_in; [done|]. by rewrite fv_marked_length.
    + by rewrite assign_at_notin.
  - rewrite Hlf0, Huv. apply assign_at_in; [done|].
    by rewrite length_column_from_end.
Qed.

Lemma C7_unvoiced_sentinels_witness :
  ∃ ch, postprocess Examples.example_acot = Ok ch
        ∧ uv ch !! 0%nat = Some 0%Q
        ∧ fv ch !! 0%nat = Some 1000%Q
        ∧ lf0 ch !! 0%nat = Some (-10000000000)%Q.
Proof.
  eexists. split; [vm_compute; reflexivity|]. split; [reflexivity|].
  apply (C7_unvoiced_sentinels Examples.example_acot _ 0%nat 0%Q);
    [vm_compute; reflexivity | reflexivity | reflexivity].
Defined.

End PostProcFacts.

(** ** Post-processing with infinities and NaN *)

Section PostProcIEEEFacts.
Import PostProcIEEE.











(** On matrices of numbers the model agrees with [PostProc]. *)
Lemma column_of_numbers (k : nat) (acot : list (list Q)) :
  forallb (fun row => (3 <=? length row)%nat) acot = true →
  (1 ≤ k ≤ 3)%nat →
  column_from_end k (map (map Num) acot)
  = map Num (PostProc.column_from_end k acot).
Proof.
  intros Hwide Hk. unfold column_from_end, PostProc.column_from_end.
  rewrite !map_map. apply map_ext_in. intros row Hrow.
  rewrite forallb_forall in Hwide. specialize (Hwide row Hrow).
  apply Nat.leb_le in Hwide. rewrite length_map.
  rewrite (nth_indep _ NaN (Num 0)) by (rewrite length_map; lia).
  by rewrite map_nth.
Qed.

Lemma assign_of_numbers (idx : list nat) (v : Q) :
  ∀ a, assign_at (map Num a) idx (Num v)
       = map Num (PostProc.assign_at a idx v).
Proof.
  unfold assign_at, PostProc.assign_at.
  induction idx as [|j idx IH]; intros a; cbn; [done|].
  rewrite <- IH. f_equal. symmetry. apply list_fmap_insert.
Qed.

Lemma leading_of_numbers (n : nat) (acot : list (list Q)) :
  leading_columns n (map (map Num) acot)
  = map Num (PostProc.leading_columns n acot).
Proof.
  unfold leading_columns, PostProc.leading_columns.
  induction acot as [|row rest IH]; [done|].
  cbn [map concat]. rewrite map_app, IH. f_equal.
  symmetry. apply fmap_take.
Qed.

Lemma postprocess_of_numbers (acot : list (list Q)) :
  postprocess (map (map Num) acot)
  = match PostProc.postprocess acot with
    | Ok ch => Ok (of_numbers ch)
    | Raise e => Raise e
    end.
Proof.
  unfold postprocess, PostProc.postprocess.
  assert (Hw : forallb (fun row => (3 <=? length row)%nat) (map (map Num) acot)
               = forallb (fun row => (3 <=? length row)%nat) acot).
  { induction acot as [|row rest IH]; [done|].
    cbn [map forallb]. by rewrite length_map, IH. }
  rewrite Hw. destruct (forallb _ acot) eqn:Hwide; [|done].
  rewrite !column_of_numbers by (done || lia).
  assert (Hround : ∀ l, map np_round (map Num l)
                        = map Num (map PostProc.np_round l)).
  { intros l. by rewrite !map_map. }
  assert (Hzero : ∀ l, map (fun u => eq_num u 0) (map Num l)
                       = map (fun u => Qeq_bool u 0) l).
  { intros l. by rewrite map_map. }
  assert (Hlow : ∀ l, map (fun f => lt_num f 1000) (map Num l)
                      = map (fun f => Qltb f 1000) l).
  { intros l. by rewrite map_map. }
  cbv zeta. rewrite Hround, !Hzero. unfold unvoiced_fv, unvoiced_lf0.
  rewrite !assign_of_numbers, Hlow, !length_map.
  destruct (_ =? _)%nat; [|done]. unfold of_numbers. cbn. f_equal. f_equal.
  apply leading_of_numbers.
Qed.

End PostProcIEEEFacts.

Section PostProcIEEEExamples.
Import PostProcIEEE.



End PostProcIEEEExamples.

(** * Further properties of the code *)

Lemma Qceiling_unique (x : Q) (z : Z) :
  (inject_Z (z - 1) < x)%Q → (x <= inject_Z z)%Q → Qceiling x = z.
Proof.
  intros Hlo Hhi.
  assert (H1 : (Qceiling x <= z)%Z).
  { rewrite <- (Qceiling_Z z). by apply Qceiling_resp_le. }
  assert (H2 : (z - 1 < Qceiling x)%Z).
  { rewrite Zlt_Qlt. eapply Qlt_le_trans; [exact Hlo | apply Qle_ceiling]. }
  lia.
Qed.

Section FrameFacts.
Import Expander Frames.
Open Scope Q_scope.




(** Property X1.  A unit whose physical duration is zero or negative
    yields no query under the [<] condition of [att_synthesize]; under
    the [<=] condition of [synthesize] a negative duration yields no
    query and a duration of zero raises [ZeroDivisionError] at the first
    division. *)
Theorem nonpositive_duration (code : list Q) (ndur d : Q) (fuel : nat) :
  (d <= 0 → expand_unit Exclusive (S fuel) code ndur d = Some (Ok []))
  ∧ (d < 0 → expand_unit Inclusive (S fuel) code ndur d = Some (Ok []))
  ∧ (d == 0 →
     expand_unit Inclusive (S fuel) code ndur d = Some (Raise ZeroDivisionError)).
Proof.
  unfold expand_unit. cbn [unit_loop in_unit]. split; [|split].
  - intros Hd. by rewrite (proj2 (Qltb_ge 0 d) Hd).
  - intros Hd. by rewrite (proj2 (Qle_bool_gt 0 d) Hd).
  - intros Hd.
    assert (H1 : Qle_bool 0 d = true).
    { apply Qle_bool_iff. rewrite Hd. apply Qle_refl. }
    assert (H2 : Qeq_bool d 0 = true) by by apply Qeq_bool_iff.
    by rewrite H1, H2.
Qed.

Lemma nonpositive_duration_witness :
  expand_unit Exclusive 1 [] 1 0 = Some (Ok [])
  ∧ expand_unit Inclusive 1 [] 1 (-1) = Some (Ok [])
  ∧ expand_unit Inclusive 1 [] 1 0 = Some (Raise ZeroDivisionError).
Proof.
  split; [|split].
  - apply (nonpositive_duration [] 1 0 0). discriminate.
  - apply (nonpositive_duration [] 1 (-1) 0). reflexivity.
  - apply (nonpositive_duration [] 1 0 0). reflexivity.
Defined.




End FrameFacts.

Section Frame64Facts.
Import Binary64 Expander Expander64.
Open Scope Q_scope.

(** Off the multiples of the stride the two closed forms coincide. *)
Lemma off_grid_ceiling (D : Q) :
  (∀ k : Z, ¬ D == inject_Z k * Expander.stride) →
  Qceiling (D / Expander.stride) = (Qfloor (D / Expander.stride) + 1)%Z.
Proof.
  intros Hoff.
  pose proof (Qfloor_le (D / Expander.stride)) as Hf1.
  pose proof (Qlt_floor (D / Expander.stride)) as Hf2.
  set (f := Qfloor (D / Expander.stride)) in *.
  apply Qceiling_unique.
  - assert (E : (f + 1 - 1 = f)%Z) by lia. rewrite E.
    destruct (Qle_lt_or_eq _ _ Hf1) as [Hlt|Heq]; [done|]. exfalso.
    apply (Hoff f). rewrite Heq. field. discriminate.
  - by apply Qlt_le_weak.
Qed.

Lemma unit_frames_float32 (p : policy) (code : list float) (ndur d : float)
    (fuel : nat) :
  is_float32 d = true →
  (0 <? d)%float = true → (d <=? 100)%float = true →
  ¬ on_grid (value d) →
  (20002 < Z.of_nat fuel)%Z →
  expand_unit p fuel code ndur d
  = Some (Ok (queries_from code ndur d 0
                (Z.to_nat (Qceiling (value d / Expander.stride))))).
Proof.
  intros H32 Hpos Hle Hoff Hfuel.
  destruct (duration_in_range d Hpos Hle) as (Fd & Hd0 & Hd100).
  assert (Hoff' : ∀ k : Z, ¬ value d == inject_Z k * Expander.stride).
  { intros k Hk. apply Hoff. by exists k. }
  pose proof (float32_off_grid d H32 Hd0 Hd100 Hoff') as Hfar.
  destruct (frame_count_exists p d Hpos Hle) as (n & Hn & Hin & Hout).
  pose proof (frame_count_bounds p d n Hpos Hle Hn Hin Hout) as Hb.
  assert (Hc : Z.of_nat n = Qceiling (value d / Expander.stride)).
  { destruct p; destruct Hb as [Hlo Hhi].
    - rewrite (off_grid_ceiling (value d) Hoff').
      apply inclusive_off_grid; [lia | done | done | done].
    - apply exclusive_off_grid; [lia | done | done | done]. }
  rewrite <- Hc, Nat2Z.id.
  apply expand_unit_run; [done | done | lia | done | done | done].
Qed.

(** Property X2.  For a duration that is a float32 value with
    [0 < d <= 100], the loop of [synthesize] ([<=]) and the loop of
    [att_synthesize] ([<]) return the same queries: no accumulated time
    is a float32 value, so [reldur_c] never equals [dur_t].  For a
    binary64 duration that is not a float32 value they can differ: at
    the binary64 number nearest 0.005 the first emits 2 queries and the
    second 1. *)
Theorem policies_agree_on_float32 (code : list float) (ndur d : float)
    (fuel : nat) :
  is_float32 d = true →
  (0 <? d)%float = true → (d <=? 100)%float = true →
  (20002 < Z.of_nat fuel)%Z →
  (∃ qs, expand_unit Inclusive fuel code ndur d = Some (Ok qs)
         ∧ expand_unit Exclusive fuel code ndur d = Some (Ok qs))
  ∧ is_float32 stride = false
  ∧ frame_counts Inclusive 4 code ndur stride = Some 2%nat
  ∧ frame_counts Exclusive 4 code ndur stride = Some 1%nat.
Proof.
  intros H32 Hpos Hle Hfuel. split; [|by vm_compute].
  destruct (frame_count_exists Inclusive d Hpos Hle)
    as (m & Hm & Hmin & Hmout).
  destruct (frame_count_exists Exclusive d Hpos Hle)
    as (n & Hn & Hnin & Hnout).
  pose proof (counts_agree_float32 d n m H32 Hpos Hle Hn Hnin Hnout
                Hm Hmin Hmout) as ->.
  exists (queries_from code ndur d 0 m). split.
  - apply expand_unit_run; [done | done | lia | done | done | done].
  - apply expand_unit_run; [done | done | lia | done | done | done].
Qed.

(** Property X4.  When every unit's duration is a float32 value with
    [0 < d <= 100] that is not a whole multiple of 5 ms, the outer loop
    returns the queries of the units in order, under either loop
    condition, and [aco_seqlen] is the sum of [ceil(d/0.005)] over the
    units. *)
Theorem expand_concatenates (p : policy) (fuel : nat) (units : list unit_in) :
  Forall (fun u => is_float32 (u_dur u) = true
                   ∧ (0 <? u_dur u)%float = true
                   ∧ (u_dur u <=? 100)%float = true
                   ∧ ¬ on_grid (value (u_dur u))) units →
  (20002 < Z.of_nat fuel)%Z →
  expand p fuel units = Some (Ok (concat (map unit_queries units)))
  ∧ Z.of_nat (aco_seqlen (concat (map unit_queries units)))
    = foldr Z.add 0%Z
        (map (fun u => Qceiling (value (u_dur u) / Expander.stride)) units).
Proof.
  intros Hall Hfuel.
  induction Hall as [|u rest (H32 & Hpos & Hle & Hoff) _ [IHrun IHlen]];
    [done|]. split.
  - cbn [expand].
    rewrite (unit_frames_float32 p _ _ _ fuel H32 Hpos Hle Hoff Hfuel), IHrun.
    done.
  - unfold aco_seqlen in *. cbn [map concat foldr].
    rewrite length_app, Nat2Z.inj_add, IHlen. unfold unit_queries.
    rewrite length_queries64, Z2Nat.id; [done|].
    destruct (duration_in_range _ Hpos Hle) as (_ & Hd0 & _).
    rewrite <- (Qceiling_Z 0). apply Qceiling_resp_le.
    apply Qle_div_mult; [reflexivity|]. rewrite Qmult_0_l.
    by apply Qlt_le_weak.
Qed.

End Frame64Facts.

Section Frame64Examples.
Import Binary64 Expander Expander64.
Open Scope Q_scope.

Lemma policies_agree_on_float32_witness :
  is_float32 0.125 = true
  ∧ (0 <? 0.125)%float = true ∧ (0.125 <=? 100)%float = true
  ∧ ∃ qs, expand_unit Inclusive (Z.to_nat 20003) [] 1 0.125 = Some (Ok qs)
          ∧ expand_unit Exclusive (Z.to_nat 20003) [] 1 0.125 = Some (Ok qs).
Proof.
  split; [reflexivity|]. split; [reflexivity|]. split; [reflexivity|].
  refine (proj1 (policies_agree_on_float32 [] 1 0.125 (Z.to_nat 20003)
                   eq_refl eq_refl eq_refl _)).
  rewrite Z2Nat.id; lia.
Defined.

Lemma expand_concatenates_witness :
  ∃ qs, expand Exclusive (Z.to_nat 20003)
          [UnitIn [1%float] 0.5 dur_020; UnitIn [2%float] 0.25 0x1.89374cp-7]
        = Some (Ok qs)
        ∧ aco_seqlen qs = 7%nat.
Proof.
  assert (Hoff : ¬ on_grid (value 0x1.89374cp-7)).
  { intros [k Hk].
    assert (E : value 0x1.89374cp-7 == 6917529087770624 # 576460752303423488)
      by (vm_compute; reflexivity).
    rewrite E in Hk. unfold Qeq, Expander.stride in Hk. cbn in Hk. lia. }
  destruct (expand_concatenates Exclusive (Z.to_nat 20003)
              [UnitIn [1%float] 0.5 dur_020;
               UnitIn [2%float] 0.25 0x1.89374cp-7]) as [Hrun Hlen].
  { repeat constructor; try reflexivity;
      [exact dur_020_off_grid | exact Hoff]. }
  { rewrite Z2Nat.id; lia. }
  eexists. split; [exact Hrun|].
  apply Nat2Z.inj. rewrite Hlen. vm_compute. reflexivity.
Defined.

End Frame64Examples.

Section AttPositionFacts.
Import AttPositions.

Lemma pe_run_lookup (advance : bool) :
  ∀ lens pe k n,
    lens !! k = Some n →
    pe_run advance pe lens !! k
    = Some (if advance then pe + list_sum (take k lens) else pe)%nat.
Proof.
  induction lens as [|m rest IH]; intros pe k n Hk; [done|].
  destruct k as [|k].
  - cbn. destruct advance; [by rewrite Nat.add_0_r | done].
  - cbn [pe_run take list_sum lookup list_lookup].
    change ((m :: rest) !! S k) with (rest !! k) in Hk.
    change ((?x :: ?l) !! S k) with (l !! k).
    rewrite (IH _ _ _ Hk). destruct advance; [|done].
    f_equal.
    change (list_sum (m :: take k rest)) with (m + list_sum (take k rest))%nat.
    lia.
Qed.

(** Property X24.  The [pe_start_idx] given to the attention model at
    batch [k] is the total length of the batches before [k] in
    [train_attaco_epoch] and in [eval_attaco_epoch] without
    [reset_batch_state], and 0 for every batch with it. *)
Theorem attaco_positions_are_prefix_sums (lens : list nat) (k n : nat) :
  lens !! k = Some n →
  train_attaco_positions lens !! k = Some (list_sum (take k lens))
  ∧ eval_attaco_positions false lens !! k = Some (list_sum (take k lens))
  ∧ eval_attaco_positions true lens !! k = Some 0%nat.
Proof.
  intros Hk. unfold train_attaco_positions, eval_attaco_positions. cbn [negb].
  by rewrite !(pe_run_lookup _ _ _ _ _ Hk).
Qed.

Lemma attaco_positions_are_prefix_sums_witness :
  train_attaco_positions [30; 20; 50] !! 2%nat = Some 50%nat
  ∧ eval_attaco_positions false [30; 20; 50] !! 2%nat = Some 50%nat
  ∧ eval_attaco_positions true [30; 20; 50] !! 2%nat = Some 0%nat.
Proof.
  exact (attaco_positions_are_prefix_sums [30; 20; 50] 2 50 eq_refl).
Defined.

End AttPositionFacts.

Section DurOptsMoreFacts.
Import DurOpts.

(** Every batch of duration training gets exactly one state action. *)
Lemma state_actions_one_per_batch (stateful : bool) (b_idx : nat) :
  state_actions stateful b_idx
  = [if stateful && (0 <? b_idx)%nat then DetachPrevious else InitHidden].
Proof. destruct stateful, b_idx; reflexivity. Qed.

End DurOptsMoreFacts.

Section PredictedDurationFacts.
Import Durations Expander.
Open Scope Q_scope.

Lemma denormalize_nonpositive (st : durstats) (n : Q) :
  0 <= ds_min st → 2 * ds_min st <= ds_max st → n <= 1 →
  denormalize st n <= 0.
Proof.
  intros Hmin Hmax Hn. unfold denormalize.
  assert (H : n * ds_min st <= 1 * ds_min st)
    by by apply Qmult_le_compat_r.
  lra.
Qed.

(** Property X5.  With speaker statistics [0 <= min] and
    [2 * min <= max], the drivers' de-normalization
    [ndurs * min - max + min] sends every prediction [n <= 1] to a
    duration that is not positive, for which the loop of
    [att_synthesize] returns no query. *)
Theorem predicted_units_yield_no_frame (st : durstats) (n : Q)
    (code : list Q) (fuel : nat) :
  0 <= ds_min st → 2 * ds_min st <= ds_max st → n <= 1 →
  (∀ lab_durs, unit_durations false st lab_durs [n]
               = [(n, denormalize st n)])
  ∧ denormalize st n <= 0
  ∧ expand_unit Exclusive (S fuel) code n (denormalize st n) = Some (Ok []).
Proof.
  intros Hmin Hmax Hn.
  pose proof (denormalize_nonpositive st n Hmin Hmax Hn) as Hd.
  split; [done|]. split; [done|].
  unfold expand_unit. cbn [unit_loop in_unit].
  by rewrite (proj2 (Qltb_ge 0 _) Hd).
Qed.

Lemma predicted_units_yield_no_frame_witness :
  denormalize (DurStats 0.01 0.5) 0.8 <= 0
  ∧ expand_unit Exclusive 10 [] 0.8 (denormalize (DurStats 0.01 0.5) 0.8)
    = Some (Ok []).
Proof.
  destruct (predicted_units_yield_no_frame (DurStats 0.01 0.5) 0.8 [] 9)
    as (_ & H1 & H2); [discriminate | discriminate | discriminate |].
  split; [exact H1 | exact H2].
Defined.

End PredictedDurationFacts.

Section EngineRunFacts.
Import Engine EngineRuns.
Context {Loader : Type}.
Implicit Types (a : args Loader) (st : state).

Lemma trained_epochs_app (l1 l2 : list event) :
  trained_epochs (l1 ++ l2) = trained_epochs l1 ++ trained_epochs l2.
Proof. apply omap_app. Qed.

Lemma evaluated_epochs_app (l1 l2 : list event) :
  evaluated_epochs (l1 ++ l2) = evaluated_epochs l1 ++ evaluated_epochs l2.
Proof. apply omap_app. Qed.

Lemma saves_app (l1 l2 : list event) : saves (l1 ++ l2) = saves l1 ++ saves l2.
Proof. apply omap_app. Qed.

Lemma saved_epochs_app (l1 l2 : list event) :
  saved_epochs (l1 ++ l2) = saved_epochs l1 ++ saved_epochs l2.
Proof. unfold saved_epochs. by rewrite saves_app, fmap_app. Qed.

(** What one pass through the loop body adds to the trace. *)
Lemma epoch_body_trace a epoch st st' ctl :
  epoch_body a epoch st = (st', ctl) →
  ∃ evs, trace st' = trace st ++ evs
         ∧ trained_epochs evs = [epoch]
         ∧ saved_epochs evs = (if ctl is Continue then [epoch] else [])
         ∧ (ctl = Break → evaluated_epochs evs = [epoch]).
Proof.
  unfold epoch_body, monitor, checkpoint.
  destruct (eval_fn a) as [f|];
    [destruct (val_dloader a) as [l|];
     [destruct (target_given (eval_target a)) as [t|];
      [destruct (eval_patience a) as [p|];
       [destruct (f l epoch !! t) as [v|];
        [destruct (opt_scheduler a); cbn -[accumulate];
         (destruct (improves v (min_va_loss st)); cbn -[accumulate];
          [|destruct (_ =? 0)%Z])|]|]|]|]|
     destruct (target_given (eval_target a))];
    cbn -[accumulate]; intros [= <- <-]; cbn -[accumulate];
    eexists; (split; [rewrite <- ?app_assoc; reflexivity|]); cbn; done.
Qed.

(** The trained and the saved epochs of a run of the loop over [todo]. *)
Lemma run_epochs_shape a :
  ∀ todo st st' out,
    run_epochs a todo st = (st', out) →
    match out with
    | Completed =>
        trained_epochs (trace st') = trained_epochs (trace st) ++ todo
        ∧ saved_epochs (trace st') = saved_epochs (trace st) ++ todo
    | EarlyStopped e =>
        ∃ before after, todo = before ++ e :: after
          ∧ trained_epochs (trace st')
            = trained_epochs (trace st) ++ before ++ [e]
          ∧ saved_epochs (trace st') = saved_epochs (trace st) ++ before
          ∧ e ∈ evaluated_epochs (trace st')
    | Failed e _ =>
        ∃ before after, todo = before ++ e :: after
          ∧ trained_epochs (trace st')
            = trained_epochs (trace st) ++ before ++ [e]
          ∧ saved_epochs (trace st') = saved_epochs (trace st) ++ before
    end.
Proof.
  induction todo as [|e rest IH]; intros st st' out Hrun.
  - cbn in Hrun. injection Hrun as <- <-. by rewrite !app_nil_r.
  - cbn [run_epochs] in Hrun.
    destruct (epoch_body a e st) as [st1 ctl] eqn:Hbody.
    destruct (epoch_body_trace _ _ _ _ _ Hbody) as (evs & Htr & Ht & Hs & He).
    destruct ctl as [| |x].
    + specialize (IH _ _ _ Hrun). rewrite Htr in IH.
      rewrite trained_epochs_app, saved_epochs_app, Ht, Hs in IH.
      destruct out as [|e'|e' x].
      * destruct IH as [IH1 IH2]. by rewrite IH1, IH2, <- !app_assoc.
      * destruct IH as (before & after & -> & IH1 & IH2 & IH3).
        exists (e :: before), after. rewrite IH1, IH2, <- !app_assoc. done.
      * destruct IH as (before & after & -> & IH1 & IH2).
        exists (e :: before), after. rewrite IH1, IH2, <- !app_assoc. done.
    + injection Hrun as <- <-. exists [], rest.
      rewrite Htr, trained_epochs_app, saved_epochs_app, evaluated_epochs_app,
        Ht, Hs, (He eq_refl), app_nil_r.
      split; [done|]. split; [done|]. split; [done|]. set_solver.
    + injection Hrun as <- <-. exists [], rest.
      rewrite Htr, trained_epochs_app, saved_epochs_app, Ht, Hs, app_nil_r.
      done.
Qed.

Lemma seq_split_at (n e : nat) (before after : list nat) :
  seq 0 n = before ++ e :: after → before = seq 0 e ∧ (e < n)%nat.
Proof.
  intros H.
  assert (Hlen : length before = e).
  { assert (Hl : seq 0 n !! length before = Some e).
    { rewrite H. by rewrite list_lookup_middle. }
    apply lookup_seq in Hl as [Hl _]. cbn in Hl. done. }
  assert (Hn : (e < n)%nat).
  { apply (f_equal length) in H. rewrite length_seq, length_app in H.
    cbn in H. lia. }
  split; [|done].
  assert (Htake : take e (seq 0 n) = before).
  { rewrite H, <- Hlen. by rewrite take_app_length. }
  rewrite <- Htake, take_seq. f_equal. lia.
Qed.

(** Property X6.  Whatever the arguments, a run trains the epochs in
    order without a gap and saves one checkpoint for every epoch that
    ran to its end: all epochs when it completes; the epochs before [e]
    when it stops early or fails in epoch [e], which was trained (and,
    on an early stop, evaluated) but not saved. *)
Theorem run_trains_prefix_saves_completed a st out :
  train_engine a = (st, out) →
  match out with
  | Completed =>
      trained_epochs (trace st) = seq 0 (epochs a)
      ∧ saved_epochs (trace st) = seq 0 (epochs a)
  | EarlyStopped e =>
      (e < epochs a)%nat
      ∧ trained_epochs (trace st) = seq 0 (S e)
      ∧ saved_epochs (trace st) = seq 0 e
      ∧ e ∈ evaluated_epochs (trace st)
  | Failed e _ =>
      (e < epochs a)%nat
      ∧ trained_epochs (trace st) = seq 0 (S e)
      ∧ saved_epochs (trace st) = seq 0 e
  end.
Proof.
  unfold train_engine. intros Hrun.
  pose proof (run_epochs_shape _ _ _ _ _ Hrun) as Hshape. cbn in Hshape.
  destruct out as [|e|e x].
  - done.
  - destruct Hshape as (before & after & Hseq & Ht & Hs & He).
    apply seq_split_at in Hseq as [-> Hlt].
    split; [done|]. rewrite Ht, Hs. split; [|done].
    by rewrite seq_S.
  - destruct Hshape as (before & after & Hseq & Ht & Hs).
    apply seq_split_at in Hseq as [-> Hlt].
    split; [done|]. rewrite Ht, Hs. split; [|done].
    by rewrite seq_S.
Qed.


Lemma epoch_body_unmonitored a epoch st :
  unmonitored a →
  ∃ st' evs, epoch_body a epoch st = (st', Continue)
             ∧ trace st' = trace st ++ evs
             ∧ saves evs = [(epoch, false)]
             ∧ min_va_loss st' = min_va_loss st.
Proof.
  unfold unmonitored, epoch_body, checkpoint.
  intros [Hf|([f Hf] & [l Hl] & Ht)].
  - rewrite Hf. destruct (target_given (eval_target a));
      eexists _, _; (split; [reflexivity|]); cbn -[accumulate];
      (split; [rewrite <- ?app_assoc; reflexivity|]); done.
  - rewrite Hf, Hl, Ht. eexists _, _. split; [reflexivity|].
    cbn -[accumulate]. split; [rewrite <- ?app_assoc; reflexivity|]. done.
Qed.

Lemma run_epochs_unmonitored a :
  unmonitored a →
  ∀ todo st, ∃ st', run_epochs a todo st = (st', Completed)
                    ∧ saves (trace st')
                      = saves (trace st) ++ map (fun e => (e, false)) todo
                    ∧ min_va_loss st' = min_va_loss st.
Proof.
  intros Hun. induction todo as [|e rest IH]; intros st.
  - exists st. cbn. by rewrite app_nil_r.
  - destruct (epoch_body_unmonitored a e st Hun)
      as (st1 & evs & Hbody & Htr & Hs & Hm).
    destruct (IH st1) as (st' & Hrun & Hs' & Hm').
    exists st'. cbn [run_epochs]. rewrite Hbody. split; [done|].
    rewrite Hs', Htr, saves_app, Hs, <- app_assoc, Hm', Hm. done.
Qed.

Lemma no_best_among_unflagged (es : list nat) :
  omap (fun '(e, b) => if b : bool then Some e else None)
       (map (fun e => (e, false)) es) = [].
Proof. induction es as [|e es IH]; [done|]. cbn. exact IH. Qed.

(** Property X7.  Without an evaluation function, or with one, its
    loader and no target, the engine completes every epoch, saves each
    checkpoint with [best_val=False], marks none best and leaves
    [min_va_loss] at infinity. *)
Theorem unmonitored_run_completes a :
  unmonitored a →
  ∃ st, train_engine a = (st, Completed)
        ∧ saves (trace st) = map (fun e => (e, false)) (seq 0 (epochs a))
        ∧ best_checkpoint (trace st) = None
        ∧ min_va_loss st = PosInf.
Proof.
  intros Hun. unfold train_engine.
  destruct (run_epochs_unmonitored a Hun (seq 0 (epochs a))
              (State ∅ ∅ PosInf (eval_patience a) []))
    as (st & Hrun & Hs & Hm).
  exists st. split; [done|]. cbn in Hs. split; [done|]. split; [|done].
  unfold best_checkpoint. by rewrite Hs, no_best_among_unflagged.
Qed.

Lemma epoch_body_keeps_nonpositive_patience a epoch st st' ctl :
  (∀ p, eval_patience a = Some p → (p <= 0)%Z) →
  (∀ q, patience st = Some q → (q <= 0)%Z) →
  epoch_body a epoch st = (st', ctl) →
  ctl ≠ Break ∧ (∀ q, patience st' = Some q → (q <= 0)%Z).
Proof.
  intros Hp Hq. unfold epoch_body, monitor, checkpoint.
  destruct (eval_fn a) as [f|];
    [destruct (val_dloader a) as [l|];
     [destruct (target_given (eval_target a)) as [t|];
      [destruct (eval_patience a) as [p|];
       [destruct (f l epoch !! t) as [v|];
        [destruct (opt_scheduler a); cbn -[accumulate Z.sub];
         (destruct (improves v (min_va_loss st)); cbn -[accumulate Z.sub];
          [|destruct (_ =? 0)%Z eqn:Ez])|]|]|]|]|
     destruct (target_given (eval_target a))];
    cbn -[accumulate Z.sub]; intros [= <- <-]; cbn -[accumulate Z.sub];
    try (split; [done|]); try done;
    try (intros q [= <-]; by apply Hp);
    try (exfalso; apply Z.eqb_eq in Ez;
         destruct (patience st) as [q0|]; cbn in Ez;
         [specialize (Hq q0 eq_refl)|]; lia);
    try (intros q [= <-]; destruct (patience st) as [q0|]; cbn;
         [specialize (Hq q0 eq_refl)|]; lia).
Qed.

(** Property X8.  With a patience of zero or less the counter is
    already below zero after its first decrement, so the test
    [patience == 0] never holds: no run stops early. *)
Theorem nonpositive_patience_never_stops a (p : Z) st out :
  eval_patience a = Some p → (p <= 0)%Z →
  train_engine a = (st, out) →
  ∀ e, out ≠ EarlyStopped e.
Proof.
  intros Hp Hle. unfold train_engine. rewrite Hp.
  assert (Hinit : ∀ q, patience (State ∅ ∅ PosInf (Some p) []) = Some q →
                       (q <= 0)%Z) by (intros q [= <-]; done).
  assert (Hev : ∀ p', eval_patience a = Some p' → (p' <= 0)%Z).
  { intros p' Hp'. rewrite Hp in Hp'. by injection Hp' as <-. }
  revert Hinit. generalize (State ∅ ∅ PosInf (Some p) []).
  induction (seq 0 (epochs a)) as [|e rest IH]; intros st0 Hst0 Hrun e'.
  - cbn in Hrun. by injection Hrun as <- <-.
  - cbn [run_epochs] in Hrun.
    destruct (epoch_body a e st0) as [st1 ctl] eqn:Hbody.
    destruct (epoch_body_keeps_nonpositive_patience _ _ _ _ _ Hev Hst0 Hbody)
      as [Hnb Hst1].
    destruct ctl as [| |x]; [by eapply IH | done |].
    by injection Hrun as <- <-.
Qed.

(** Property X9.  With a target to monitor and no patience, a run of
    at least one epoch fails with [ValueError] in epoch 0, after that
    epoch was trained and evaluated. *)
Theorem missing_patience_fails a f l t :
  eval_fn a = Some f → val_dloader a = Some l →
  target_given (eval_target a) = Some t → eval_patience a = None →
  epochs a ≠ 0%nat →
  ∃ st, train_engine a = (st, Failed 0 ValueError)
        ∧ trace st = [EvTrain 0; EvEval 0].
Proof.
  intros Hf Hl Ht Hp Hne. unfold train_engine.
  destruct (epochs a) as [|n]; [done|]. cbn [seq run_epochs].
  unfold epoch_body, monitor. rewrite Hf, Hl, Ht, Hp.
  eexists. split; reflexivity.
Qed.

(** Property X10.  When the scores of epoch 0 do not hold the monitored
    name, a run of at least one epoch fails with [KeyError] in epoch 0,
    after that epoch was trained and evaluated. *)
Theorem missing_score_fails a f l t p :
  eval_fn a = Some f → val_dloader a = Some l →
  target_given (eval_target a) = Some t → eval_patience a = Some p →
  f l 0%nat !! t = None → epochs a ≠ 0%nat →
  ∃ st, train_engine a = (st, Failed 0 KeyError)
        ∧ trace st = [EvTrain 0; EvEval 0].
Proof.
  intros Hf Hl Ht Hp Hv Hne. unfold train_engine.
  destruct (epochs a) as [|n]; [done|]. cbn [seq run_epochs].
  unfold epoch_body, monitor. rewrite Hf, Hl, Ht, Hp, Hv.
  eexists. split; reflexivity.
Qed.

End EngineRunFacts.

Section EngineRunExamples.
Import Engine EngineRuns.

Lemma run_trains_prefix_saves_completed_witness :
  ∃ st, train_engine Examples.example_run = (st, EarlyStopped 3)
        ∧ (3 < epochs Examples.example_run)%nat
        ∧ trained_epochs (trace st) = seq 0 4
        ∧ saved_epochs (trace st) = seq 0 3
        ∧ 3%nat ∈ evaluated_epochs (trace st).
Proof.
  eexists. split; [vm_compute; reflexivity|].
  refine (run_trains_prefix_saves_completed Examples.example_run _
            (EarlyStopped 3) _).
  vm_compute. reflexivity.
Defined.

Lemma unmonitored_run_completes_witness :
  unmonitored EngineInputs.plain_run
  ∧ ∃ st, train_engine EngineInputs.plain_run = (st, Completed)
          ∧ saves (trace st) = [(0, false); (1, false); (2, false)]%nat
          ∧ best_checkpoint (trace st) = None
          ∧ min_va_loss st = PosInf.
Proof.
  assert (Hun : unmonitored EngineInputs.plain_run) by (left; reflexivity).
  split; [exact Hun|].
  exact (unmonitored_run_completes EngineInputs.plain_run Hun).
Defined.

Lemma nonpositive_patience_never_stops_witness :
  ∃ st, train_engine EngineInputs.impatient_run = (st, Completed)
        ∧ ∀ e, Completed ≠ EarlyStopped e.
Proof.
  eexists. split; [vm_compute; reflexivity|].
  refine (nonpositive_patience_never_stops EngineInputs.impatient_run 0 _
            Completed eq_refl _ _); [lia | vm_compute; reflexivity].
Defined.

Lemma missing_patience_fails_witness :
  ∃ st, train_engine EngineInputs.no_patience_run = (st, Failed 0 ValueError)
        ∧ trace st = [EvTrain 0; EvEval 0].
Proof.
  apply (missing_patience_fails EngineInputs.no_patience_run
           Examples.example_eval () "va_loss"); try reflexivity.
  vm_compute. discriminate.
Defined.

Lemma missing_score_fails_witness :
  ∃ st, train_engine EngineInputs.wrong_target_run = (st, Failed 0 KeyError)
        ∧ trace st = [EvTrain 0; EvEval 0].
Proof.
  apply (missing_score_fails EngineInputs.wrong_target_run
           Examples.example_eval () "va_rmse" 2%Z); try reflexivity.
  vm_compute. discriminate.
Defined.

End EngineRunExamples.

Section BestFlagFacts.
Import Engine BestFlag.
Context {Loader : Type}.
Implicit Types (a : args Loader) (st : state).





End BestFlagFacts.

Section BestFlagExamples.
Import Engine BestFlag Examples.


End BestFlagExamples.

Section OptBlockFacts.
Import DurOpts OptBlocks.
Implicit Types (m : gmap string optval).

Lemma deletes_empty m (ks : list string) :
  foldr delete m ks = ∅ ↔ ∀ k, is_Some (m !! k) → k ∈ ks.
Proof.
  revert m. induction ks as [|k0 ks IH]; intros m; cbn [foldr].
  - split.
    + intros -> k [v Hv]. by rewrite lookup_empty in Hv.
    + intros H. apply map_eq. intros k. rewrite lookup_empty.
      destruct (m !! k) eqn:E; [|done].
      specialize (H k ltac:(by eexists)). by apply elem_of_nil in H.
  - split.
    + intros H k Hk. destruct (decide (k = k0)) as [->|Hne];
        [by apply elem_of_cons; left|].
      apply elem_of_cons. right.
      assert (Hd : delete k0 (foldr delete m ks) !! k = None)
        by by rewrite H, lookup_empty.
      rewrite lookup_delete_ne in Hd by done.
      destruct (decide (k ∈ ks)) as [Hin|Hnin]; [done|]. exfalso.
      assert (Hkeep : ∀ ks' m', k ∉ ks' → foldr delete m' ks' !! k = m' !! k).
      { induction ks' as [|k1 ks' IH']; intros m' Hn; [done|]. cbn.
        apply not_elem_of_cons in Hn as [Hn1 Hn2].
        rewrite lookup_delete_ne by done. by apply IH'. }
      rewrite Hkeep in Hd by done. destruct Hk as [v Hv]. congruence.
    + intros H. apply map_eq. intros k. rewrite lookup_empty.
      destruct (decide (k = k0)) as [->|Hne]; [by rewrite lookup_delete_eq|].
      rewrite lookup_delete_ne by done.
      destruct (foldr delete m ks !! k) as [v|] eqn:E; [|done]. exfalso.
      assert (Hsub : ∀ ks' m' v', foldr delete m' ks' !! k = Some v' →
                m' !! k = Some v' ∧ k ∉ ks').
      { induction ks' as [|k1 ks' IH']; intros m' v' Hl.
        - split; [done|]. by intros ?%elem_of_nil.
        - cbn in Hl. destruct (decide (k1 = k)) as [->|Hne1];
            [by rewrite lookup_delete_eq in Hl|].
          rewrite lookup_delete_ne in Hl by done.
          destruct (IH' _ _ Hl) as [H1 H2]. split; [done|].
          by intros [?|?]%elem_of_cons. }
      destruct (Hsub _ _ _ E) as [Hm Hn].
      specialize (H k ltac:(by eexists)).
      apply elem_of_cons in H as [?|?]; done.
Qed.

Lemma train_dur_opts_unfold m :
  train_dur_opts m
  = ('(mulout, round_N) ←
       match m !! "mulout" with
       | None => Ok (VBool false, 1%Z)
       | Some v => n ← n_keys (m !! "idx2spk"); Ok (v, n)
       end;
     if bool_decide (size (foldr delete m train_dur_names) = 0%nat)
     then Ok (DurOptsOf (bool_decide (is_Some (m !! "stateful")))
                        (m !! "spk2durstats") (m !! "idx2spk") mulout round_N)
     else Raise AssertionError).
Proof.
  unfold train_dur_opts, pop, train_dur_names. cbn [foldr].
  by rewrite !lookup_delete_ne by done.
Qed.

(** Property X12.  The option block of [train_dur_epoch] returns
    exactly when every key is one of ['stateful'], ['spk2durstats'],
    ['idx2spk'], ['mulout'] and, if ['mulout'] is present, ['idx2spk']
    holds a dictionary; any other dictionary of options raises. *)
Theorem train_dur_opts_accepts m :
  is_Some (match train_dur_opts m with Ok o => Some o | Raise _ => None end)
  ↔ (∀ k, is_Some (m !! k) → k ∈ train_dur_names)
    ∧ (is_Some (m !! "mulout") → is_dict (m !! "idx2spk") = true).
Proof.
  rewrite train_dur_opts_unfold, <- deletes_empty, <- map_size_empty_iff.
  destruct (m !! "mulout") as [v|]; cbn.
  - destruct (m !! "idx2spk") as [[| | | |d|d]|]; cbn;
      try (split; [by intros [? ?] | intros [_ H]; by specialize (H ltac:(by eexists))]);
      (case_bool_decide as Hs; cbn;
       [split; [done | by eexists]
       |split; [by intros [? ?] | by intros [? _]]]).
  - case_bool_decide as Hs; cbn.
    + split; [intros _; split; [done | by intros [? ?]] | by eexists].
    + split; [by intros [? ?] | by intros [? _]].
Qed.

(** Property X13.  The option block of [train_aco_epoch] never raises
    the [ValueError] written for a missing speaker table: with
    ['mulout'] present and ['idx2spk'] not a dictionary, taking the keys
    of [idx2spk] raises [AttributeError] first. *)
Theorem train_aco_opts_value_error_unreachable m :
  train_aco_opts m ≠ Raise ValueError
  ∧ (is_Some (m !! "mulout") → is_dict (m !! "idx2spk") = false →
     train_aco_opts m = Raise AttributeError).
Proof.
  unfold train_aco_opts, pop. rewrite !lookup_delete_ne by done.
  destruct (m !! "mulout") as [v|]; cbn.
  - destruct (m !! "idx2spk") as [[| | | |d|d]|]; cbn;
      try (split; [done | by intros _ _]);
      (split; [by case_bool_decide | by intros _ [=]]).
  - split; [by case_bool_decide | by intros [? ?]].
Qed.

(** Property X14.  The option block of [eval_aco_epoch], given
    ['mulout'], raises [ValueError] when [idx2spk] is [None] and does
    not raise it otherwise. *)
Theorem eval_aco_opts_needs_speaker_table m :
  is_Some (m !! "mulout") →
  (is_none (m !! "idx2spk") = true → eval_aco_opts m = Raise ValueError)
  ∧ (is_none (m !! "idx2spk") = false →
     eval_aco_opts m ≠ Raise ValueError).
Proof.
  intros [v Hv]. unfold eval_aco_opts, pop.
  rewrite !lookup_delete_ne by done. rewrite Hv. cbn. split.
  - by intros ->.
  - intros ->. cbn. by case_bool_decide.
Qed.

End OptBlockFacts.

Section OptBlockExamples.
Import DurOpts OptBlocks OptExamples.

Lemma train_dur_opts_accepts_witness :
  is_Some (match train_dur_opts Examples.example_opts with
           | Ok o => Some o | Raise _ => None end)
  ∧ ¬ is_Some (match train_dur_opts with_unknown with
               | Ok o => Some o | Raise _ => None end).
Proof.
  split.
  - apply (proj2 (train_dur_opts_accepts Examples.example_opts)). split.
    + intros k [v Hv]. unfold Examples.example_opts in Hv.
      apply lookup_singleton_Some in Hv as [<- _].
      unfold train_dur_names. rewrite !elem_of_cons. right; right; left.
      reflexivity.
    + intros [v Hv]. vm_compute in Hv. discriminate Hv.
  - intros H. apply (proj1 (train_dur_opts_accepts with_unknown)) in H.
    destruct H as [H _]. specialize (H "lr" ltac:(eexists; vm_compute; reflexivity)).
    unfold train_dur_names in H. rewrite !elem_of_cons, elem_of_nil in H.
    destruct H as [H|[H|[H|[H|H]]]]; done.
Defined.

Lemma train_aco_opts_value_error_unreachable_witness :
  train_aco_opts mulout_only = Raise AttributeError.
Proof.
  apply (proj2 (train_aco_opts_value_error_unreachable mulout_only)).
  - eexists. vm_compute. reflexivity.
  - vm_compute. reflexivity.
Defined.

Lemma eval_aco_opts_needs_speaker_table_witness :
  eval_aco_opts mulout_only = Raise ValueError.
Proof.
  apply (proj1 (eval_aco_opts_needs_speaker_table mulout_only
                  ltac:(eexists; vm_compute; reflexivity))).
  vm_compute. reflexivity.
Defined.

End OptBlockExamples.

Section MOLogRunFacts.
Import MOLog MOLogRuns.
Implicit Types (idx2spk : gmap Z string) (st : log_state) (b : batch).

Lemma log_due_last round_N log_freq num_batches b_idx due :
  log_due round_N log_freq num_batches b_idx = Ok due →
  (num_batches ≤ b_idx + 1)%nat → due = true.
Proof.
  unfold log_due. destruct (_ =? 0)%Z; [done|]. intros [= <-] Hle.
  apply orb_true_iff. right. by apply Nat.leb_le.
Qed.

Lemma batch_step_records r mulout idx2spk round_N log_freq num_batches
    b_idx b st st' :
  batch_step r mulout idx2spk round_N log_freq num_batches b_idx b st = Ok st' →
  ∃ due, log_due round_N log_freq num_batches b_idx = Ok due
         ∧ (if due
            then ∃ rec, records st' = records st ++ [rec]
                        ∧ record_index rec = b_idx
            else records st' = records st).
Proof.
  unfold batch_step.
  destruct (match r with Aco => _ | Dur => _ end) as [?|?]; [|done]. cbn.
  destruct (if mulout then _ else _) as [st1|] eqn:E1; [|done]. cbn.
  assert (Hrec : records st1 = records st).
  { destruct mulout; [|by injection E1 as <-].
    destruct (spk_name idx2spk (b_spk b)); [|done]. cbn in E1.
    by injection E1 as <-. }
  destruct (log_due _ _ _ _) as [due|]; [|done]. cbn. intros [= <-].
  exists due. split; [done|]. destruct due; [|done].
  unfold emit. destruct mulout; cbn; rewrite Hrec; eexists; done.
Qed.

Lemma run_batches_last r mulout idx2spk round_N log_freq num_batches :
  ∀ batches b_idx st st',
    batches ≠ [] →
    num_batches = (b_idx + length batches)%nat →
    run_batches r mulout idx2spk round_N log_freq num_batches b_idx batches st
    = Ok st' →
    ∃ rec, last (records st') = Some rec
           ∧ record_index rec = (num_batches - 1)%nat.
Proof.
  induction batches as [|b rest IH]; intros b_idx st st' Hne Hnum Hrun; [done|].
  cbn [run_batches] in Hrun.
  destruct (batch_step _ _ _ _ _ _ _ _ _) as [st1|] eqn:Hstep; [|done].
  cbn in Hrun. destruct rest as [|b' rest].
  - cbn in Hrun. injection Hrun as <-.
    destruct (batch_step_records _ _ _ _ _ _ _ _ _ _ Hstep) as (due & Hdue & H).
    cbn in Hnum.
    rewrite (log_due_last _ _ _ _ _ Hdue ltac:(lia)) in H.
    destruct H as (rec & -> & Hidx). exists rec.
    rewrite last_snoc. split; [done|]. lia.
  - apply (IH (S b_idx) st1 st'); [done | cbn in *; lia | done].
Qed.

(** Property X15.  In every epoch that returns, single- or
    multi-output, the last record written is that of the last batch,
    whatever the logging frequency. *)
Theorem last_batch_is_logged r mulout idx2spk round_N log_freq
    (batches : list batch) st :
  batches ≠ [] →
  train_epoch_log r mulout idx2spk round_N log_freq batches = Ok st →
  ∃ rec, last (records st) = Some rec
         ∧ record_index rec = (length batches - 1)%nat.
Proof.
  intros Hne Hrun. unfold train_epoch_log in Hrun.
  by apply (run_batches_last r mulout idx2spk round_N log_freq
              (length batches) batches 0%nat _ st Hne eq_refl Hrun).
Qed.

Lemma latest_losses_snoc idx2spk (pre : list batch) b name :
  idx2spk !! b_spk b = Some name →
  latest_losses idx2spk (pre ++ [b])
  = <[name := b_loss b]> (latest_losses idx2spk pre).
Proof. intros H. unfold latest_losses. rewrite foldl_app. cbn. by rewrite H. Qed.

(** After the batches [pre] the running dictionary is [latest_losses pre]
    and so was it when each record was written. *)
Lemma batch_step_latest r idx2spk round_N log_freq num_batches pre b st st' :
  spk_loss_batch st = latest_losses idx2spk pre →
  (∀ k losses, MORecord k losses ∈ records st →
     (k < length pre)%nat ∧ losses = latest_losses idx2spk (take (S k) pre)) →
  batch_step r true idx2spk round_N log_freq num_batches (length pre) b st
  = Ok st' →
  spk_loss_batch st' = latest_losses idx2spk (pre ++ [b])
  ∧ (∀ k losses, MORecord k losses ∈ records st' →
       (k < length (pre ++ [b]))%nat
       ∧ losses = latest_losses idx2spk (take (S k) (pre ++ [b]))).
Proof.
  intros Hcur Hrec Hstep. unfold batch_step, spk_name in Hstep.
  destruct (idx2spk !! b_spk b) as [name|] eqn:Hname;
    [|destruct r; discriminate Hstep].
  assert (Hstep' :
    (due ← log_due round_N log_freq num_batches (length pre);
     Ok (if due : bool
         then emit true (length pre) (b_loss b)
                (LogState (<[name:=b_loss b]> (spk_loss_batch st))
                          (epoch_losses st) (records st))
         else LogState (<[name:=b_loss b]> (spk_loss_batch st))
                       (epoch_losses st) (records st))) = Ok st').
  { by destruct r. }
  clear Hstep.
  assert (Hcur' : <[name:=b_loss b]> (spk_loss_batch st)
                  = latest_losses idx2spk (pre ++ [b])).
  { by rewrite (latest_losses_snoc _ _ _ _ Hname), Hcur. }
  assert (Hold : ∀ k losses, MORecord k losses ∈ records st →
            (k < length (pre ++ [b]))%nat
            ∧ losses = latest_losses idx2spk (take (S k) (pre ++ [b]))).
  { intros k losses Hin. destruct (Hrec k losses Hin) as [Hk Hd].
    rewrite length_app. split; [lia|]. rewrite take_app_le; [done|lia]. }
  destruct (log_due round_N log_freq num_batches (length pre)) as [due|e];
    [|discriminate Hstep'].
  cbn in Hstep'. injection Hstep' as <-. destruct due; cbn.
  - split; [done|]. intros k losses Hin. cbn in Hin.
    apply elem_of_app in Hin as [Hin|Hin]; [by apply Hold|].
    apply list_elem_of_singleton in Hin. injection Hin as -> ->.
    rewrite length_app. cbn. split; [lia|].
    rewrite take_ge; [done|]. rewrite length_app. cbn. lia.
  - split; [done|]. exact Hold.
Qed.

Lemma run_batches_latest r idx2spk round_N log_freq num_batches :
  ∀ batches pre st st',
    spk_loss_batch st = latest_losses idx2spk pre →
    (∀ k losses, MORecord k losses ∈ records st →
       (k < length pre)%nat ∧ losses = latest_losses idx2spk (take (S k) pre)) →
    run_batches r true idx2spk round_N log_freq num_batches (length pre)
                batches st = Ok st' →
    spk_loss_batch st' = latest_losses idx2spk (pre ++ batches)
    ∧ (∀ k losses, MORecord k losses ∈ records st' →
         (k < length (pre ++ batches))%nat
         ∧ losses = latest_losses idx2spk (take (S k) (pre ++ batches))).
Proof.
  induction batches as [|b rest IH]; intros pre st st' Hcur Hrec Hrun.
  - cbn in Hrun. injection Hrun as <-. by rewrite app_nil_r.
  - cbn [run_batches] in Hrun.
    destruct (batch_step r true idx2spk round_N log_freq num_batches
                (length pre) b st) as [st1|e] eqn:Hstep;
      [|discriminate Hrun].
    cbn in Hrun. rewrite (cons_middle b pre rest), app_assoc.
    destruct (batch_step_latest _ _ _ _ _ _ _ _ _ Hcur Hrec Hstep)
      as [Hcur1 Hrec1].
    apply (IH (pre ++ [b]) st1 st'); [done | done |].
    rewrite length_app. cbn. by rewrite Nat.add_1_r.
Qed.

Lemma run_batches_known r idx2spk round_N log_freq num_batches :
  ∀ batches b_idx st st',
    run_batches r true idx2spk round_N log_freq num_batches b_idx batches st
    = Ok st' →
    Forall (fun b => is_Some (idx2spk !! b_spk b)) batches.
Proof.
  induction batches as [|b rest IH]; intros b_idx st st' Hrun; [done|].
  cbn [run_batches] in Hrun.
  destruct (batch_step _ _ _ _ _ _ _ _ _) as [st1|] eqn:Hstep; [|done].
  cbn in Hrun. constructor; [|by eapply IH].
  unfold batch_step, spk_name in Hstep.
  destruct (idx2spk !! b_spk b); [done|]. by destruct r.
Qed.

(** Property X17.  A composite record written at batch [k] is the
    dictionary obtained by writing the losses of the batches [0 .. k] in
    order under their speakers: it holds the loss of batch [k] under its
    own speaker and, for the others, the loss of their latest batch. *)
Theorem records_hold_latest_losses r idx2spk round_N log_freq
    (batches : list batch) st (k : nat) (losses : gmap string Q) :
  train_epoch_log r true idx2spk round_N log_freq batches = Ok st →
  MORecord k losses ∈ records st →
  losses = latest_losses idx2spk (take (S k) batches)
  ∧ (∀ b, batches !! k = Some b →
       ∃ name, idx2spk !! b_spk b = Some name
               ∧ losses !! name = Some (b_loss b)).
Proof.
  intros Hrun Hin. unfold train_epoch_log in Hrun.
  destruct (run_batches_latest r idx2spk round_N log_freq (length batches)
              batches [] (LogState ∅ ∅ []) st) as [_ Hrec];
    [reflexivity | | exact Hrun |].
  { intros k' l' H'. cbn in H'. by apply elem_of_nil in H'. }
  specialize (Hrec k losses Hin). cbn [app] in Hrec.
  destruct Hrec as [Hk ->]. split; [done|].
  intros b Hb. rewrite (take_S_r _ _ _ Hb).
  destruct (idx2spk !! b_spk b) as [name|] eqn:Hname.
  - exists name. split; [done|].
    by rewrite (latest_losses_snoc _ _ _ _ Hname), lookup_insert_eq.
  - pose proof (run_batches_known _ _ _ _ _ _ _ _ _ Hrun) as Hknown.
    rewrite Forall_forall in Hknown.
    destruct (Hknown b) as [name' Hname'];
      [by eapply list_elem_of_lookup_2 | congruence].
Qed.


Lemma batch_step_period r mulout idx2spk round_N log_freq num_batches
    b_idx b st st' :
  batch_step r mulout idx2spk round_N log_freq num_batches b_idx b st = Ok st' →
  (round_N * log_freq ≠ 0)%Z.
Proof.
  unfold batch_step.
  destruct (match r with Aco => _ | Dur => _ end) as [?|?]; [|done]. cbn.
  destruct (if mulout then _ else _) as [st1|]; [|done]. cbn.
  unfold log_due. destruct (_ =? 0)%Z eqn:E; [done|]. intros _.
  by apply Z.eqb_neq.
Qed.

Lemma batch_step_speaker r mulout idx2spk round_N log_freq num_batches
    b_idx b st st' :
  mulout = true ∨ r = Aco →
  batch_step r mulout idx2spk round_N log_freq num_batches b_idx b st = Ok st' →
  is_Some (idx2spk !! b_spk b).
Proof.
  intros Hm. unfold batch_step, spk_name.
  destruct (idx2spk !! b_spk b); [done|].
  destruct Hm as [-> | ->]; [by destruct r | done].
Qed.

(** Property X16.  An epoch that has a batch and returns had a logging
    period [round_N * log_freq] other than zero: the modulo of the
    logging test is evaluated at every batch, so with [log_freq = 0], or
    with the [round_N = 0] of an empty [idx2spk], no epoch with a batch
    returns. *)
Theorem returning_epoch_has_period r mulout idx2spk round_N log_freq
    (batches : list batch) st :
  train_epoch_log r mulout idx2spk round_N log_freq batches = Ok st →
  batches ≠ [] →
  (round_N ≠ 0 ∧ log_freq ≠ 0)%Z.
Proof.
  unfold train_epoch_log. destruct batches as [|b rest]; [done|].
  intros Hrun _. cbn [run_batches] in Hrun.
  destruct (batch_step _ _ _ _ _ _ _ _ _) as [st1|] eqn:Hstep; [|done].
  apply batch_step_period in Hstep. lia.
Qed.

(** Property X18.  A multi-output epoch, and every acoustic epoch, that
    returns found the speaker index of each of its batches in
    [idx2spk]. *)
Theorem returning_epoch_knows_speakers r mulout idx2spk round_N log_freq
    (batches : list batch) st :
  mulout = true ∨ r = Aco →
  train_epoch_log r mulout idx2spk round_N log_freq batches = Ok st →
  Forall (fun b => is_Some (idx2spk !! b_spk b)) batches.
Proof.
  intros Hm. unfold train_epoch_log.
  generalize (length batches) 0%nat (LogState ∅ ∅ []).
  induction batches as [|b rest IH]; intros num_batches b_idx st0 Hrun; [done|].
  cbn [run_batches] in Hrun.
  destruct (batch_step _ _ _ _ _ _ _ _ _) as [st1|] eqn:Hstep; [|done].
  cbn in Hrun. constructor; [by eapply batch_step_speaker | by eapply IH].
Qed.

Lemma run_batches_single_output idx2spk round_N log_freq num_batches :
  ∀ batches b_idx st st',
    run_batches Dur false idx2spk round_N log_freq num_batches b_idx
      batches st = Ok st' →
    spk_loss_batch st' = spk_loss_batch st
    ∧ records st'
      = records st
        ++ map (fun kb => SORecord kb.1 (b_loss kb.2))
             (filter (fun kb => due_at round_N log_freq num_batches
                                  kb.1 = true)
                     (imap (fun i => pair (b_idx + i)%nat) batches))
    ∧ default [] (epoch_losses st' !! "tr_loss")
      = default [] (epoch_losses st !! "tr_loss")
        ++ map (fun kb => b_loss kb.2)
             (filter (fun kb => due_at round_N log_freq num_batches
                                  kb.1 = true)
                     (imap (fun i => pair (b_idx + i)%nat) batches)).
Proof.
  induction batches as [|b rest IH]; intros b_idx st st' Hrun.
  - cbn in Hrun. injection Hrun as <-. cbn. by rewrite !app_nil_r.
  - cbn [run_batches] in Hrun.
    destruct (batch_step _ _ _ _ _ _ _ _ _) as [st1|] eqn:Hstep; [|done].
    cbn in Hrun.
    pose proof (batch_step_period _ _ _ _ _ _ _ _ _ _ Hstep) as Hp.
    apply Z.eqb_neq in Hp.
    assert (Hst1 : st1 = if due_at round_N log_freq num_batches b_idx
                         then emit false b_idx (b_loss b) st else st).
    { unfold batch_step, log_due, due_at in *. rewrite Hp in Hstep.
      cbn in Hstep. by injection Hstep as <-. }
    rewrite imap_cons, filter_cons. cbn [fst]. rewrite Nat.add_0_r.
    assert (Hshift : imap ((fun i => pair (b_idx + i)%nat) ∘ S) rest
                     = imap (fun i => pair (S b_idx + i)%nat) rest).
    { apply imap_ext. intros i x _. cbn. f_equal. lia. }
    rewrite Hshift.
    destruct (IH (S b_idx) st1 st' Hrun) as (Hs & Hr & Hl).
    rewrite Hs, Hr, Hl, Hst1.
    destruct (due_at round_N log_freq num_batches b_idx) eqn:Hdue.
    + rewrite decide_True by done. cbn [map emit spk_loss_batch records
                                          epoch_losses snd fst].
      split; [done|]. split; [by rewrite <- app_assoc|].
      unfold append_loss. rewrite lookup_insert_eq. cbn.
      by rewrite <- app_assoc.
    + by rewrite decide_False by done.
Qed.

(** Property X19.  A single-output duration epoch that returns left
    the per-speaker dictionary untouched, printed one record per due
    batch, holding that batch's own loss, and returns these losses, in
    order, under ['tr_loss']. *)
Theorem single_output_records idx2spk round_N log_freq (batches : list batch)
    st :
  train_epoch_log Dur false idx2spk round_N log_freq batches = Ok st →
  spk_loss_batch st = ∅
  ∧ records st
    = map (fun kb => SORecord kb.1 (b_loss kb.2))
          (due_batches round_N log_freq batches)
  ∧ default [] (epoch_losses st !! "tr_loss")
    = map (fun kb => b_loss kb.2) (due_batches round_N log_freq batches).
Proof.
  intros Hrun. unfold train_epoch_log in Hrun.
  destruct (run_batches_single_output _ _ _ _ _ _ _ _ Hrun) as (Hs & Hr & Hl).
  split; [done|]. split; [by rewrite Hr | by rewrite Hl].
Qed.

End MOLogRunFacts.

Section MOLogRunExamples.
Import MOLog MOLogRuns Examples.

Lemma last_batch_is_logged_witness :
  ∃ st rec, train_epoch_log Aco true example_idx2spk 2 5 example_batches = Ok st
            ∧ last (records st) = Some rec
            ∧ record_index rec = 2%nat.
Proof.
  destruct (train_epoch_log Aco true example_idx2spk 2 5 example_batches)
    as [st|e] eqn:Hrun; [|vm_compute in Hrun; discriminate Hrun].
  destruct (last_batch_is_logged Aco true example_idx2spk 2 5 example_batches
              st ltac:(discriminate) Hrun) as (rec & Hlast & Hidx).
  exists st, rec. split; [reflexivity|]. split; [exact Hlast | exact Hidx].
Defined.

Lemma records_hold_latest_losses_witness :
  ∃ st, train_epoch_log Dur true example_idx2spk 2 1 example_batches = Ok st
        ∧ MORecord 2 {[ "spkA" := 0.3%Q; "spkB" := 0.4%Q ]} ∈ records st
        ∧ ({[ "spkA" := 0.3%Q; "spkB" := 0.4%Q ]} : gmap string Q)
          = latest_losses example_idx2spk (take 3 example_batches).
Proof.
  destruct (train_epoch_log Dur true example_idx2spk 2 1 example_batches)
    as [st|e] eqn:Hrun; [|vm_compute in Hrun; discriminate Hrun].
  assert (Hin : MORecord 2 {[ "spkA" := 0.3%Q; "spkB" := 0.4%Q ]}
                ∈ records st).
  { vm_compute in Hrun. injection Hrun as <-. cbn [records].
    apply elem_of_cons. right. apply elem_of_cons. left.
    vm_compute. reflexivity. }
  exists st. split; [reflexivity|]. split; [exact Hin|].
  exact (proj1 (records_hold_latest_losses Dur example_idx2spk 2 1
                  example_batches st 2 _ Hrun Hin)).
Defined.

Lemma returning_epoch_has_period_witness :
  ∃ st, train_epoch_log Dur true example_idx2spk 2 1 example_batches = Ok st
        ∧ (2 ≠ 0 ∧ 1 ≠ 0)%Z.
Proof.
  destruct (train_epoch_log Dur true example_idx2spk 2 1 example_batches)
    as [st|e] eqn:Hrun; [|vm_compute in Hrun; discriminate Hrun].
  exists st. split; [reflexivity|].
  exact (returning_epoch_has_period Dur true example_idx2spk 2 1
           example_batches st Hrun ltac:(discriminate)).
Defined.

Lemma returning_epoch_knows_speakers_witness :
  ∃ st, train_epoch_log Aco false example_idx2spk 1 1 example_batches = Ok st
        ∧ Forall (fun b => is_Some (example_idx2spk !! b_spk b))
                 example_batches.
Proof.
  destruct (train_epoch_log Aco false example_idx2spk 1 1 example_batches)
    as [st|e] eqn:Hrun; [|vm_compute in Hrun; discriminate Hrun].
  exists st. split; [reflexivity|].
  exact (returning_epoch_knows_speakers Aco false example_idx2spk 1 1
           example_batches st (or_intror eq_refl) Hrun).
Defined.

Lemma single_output_records_witness :
  ∃ st, train_epoch_log Dur false ∅ 1 2 example_batches = Ok st
        ∧ spk_loss_batch st = ∅
        ∧ records st = [SORecord 1 0.4; SORecord 2 0.3]
        ∧ default [] (epoch_losses st !! "tr_loss") = [0.4; 0.3]%Q.
Proof.
  destruct (train_epoch_log Dur false ∅ 1 2 example_batches)
    as [st|e] eqn:Hrun; [|vm_compute in Hrun; discriminate Hrun].
  destruct (single_output_records ∅ 1 2 example_batches st Hrun)
    as (Hs & Hr & Hl).
  exists st. split; [reflexivity|]. split; [exact Hs|].
  split; [rewrite Hr | rewrite Hl]; vm_compute; reflexivity.
Defined.

End MOLogRunExamples.

Section StateCacheFacts.
Import StateCache.
Context {St : Type}.
Variable init_hidden_state : nat → St.
Variable init_output_state : nat → St.
Variable repackage_hidden : St → nat → St.
Variable model : nat → St → St → St * St.
Implicit Types (idx2spk : gmap Z string) (c : caches (St := St)).

Local Abbreviation train_step := (train_step init_hidden_state init_output_state
                                   repackage_hidden model).
Local Abbreviation eval_step := (eval_step init_hidden_state init_output_state
                                 repackage_hidden model).
Local Abbreviation train_aco_cache := (train_aco_cache init_hidden_state
                               init_output_state repackage_hidden model).
Local Abbreviation eval_aco_cache := (eval_aco_cache init_hidden_state
                              init_output_state repackage_hidden model).

Lemma cnames_snoc idx2spk (pre : list cbatch) b name :
  idx2spk !! c_spk b = Some name →
  cnames idx2spk (pre ++ [b]) = {[name]} ∪ cnames idx2spk pre.
Proof.
  intros H. unfold cnames. rewrite omap_app, list_to_set_app_L. cbn.
  rewrite H. cbn. rewrite union_empty_r_L. apply (comm_L (∪)).
Qed.

Lemma seen_before_names idx2spk (pre : list cbatch) b name :
  idx2spk !! c_spk b = Some name →
  seen_before idx2spk pre b = true ↔ name ∈ cnames idx2spk pre.
Proof.
  intros Hb. unfold seen_before, cnames.
  rewrite existsb_exists, elem_of_list_to_set, list_elem_of_omap. split.
  - intros (b' & Hin & Heq). apply bool_decide_eq_true in Heq.
    exists b'. split; [by apply list_elem_of_In | congruence].
  - intros (b' & Hin & Heq). exists b'. split; [by apply list_elem_of_In|].
    apply bool_decide_eq_true. congruence.
Qed.

Lemma train_step_single_output idx2spk b_idx b :
  is_Some (idx2spk !! c_spk b) →
  train_step false idx2spk b_idx b (Caches ∅ ∅) = Ok (Init, Caches ∅ ∅).
Proof.
  intros [name Hb]. unfold train_step, MOLog.spk_name. rewrite Hb. cbn.
  rewrite lookup_empty. cbn. by destruct (model _ _ _).
Qed.

(** Property X20.  In [train_aco_epoch] the states are stored only when
    the model returns a dictionary: with a single-output model the
    caches stay empty and every batch starts from freshly initialized
    states. *)
Theorem train_single_output_never_caches idx2spk (batches : list cbatch) :
  Forall (fun b => is_Some (idx2spk !! c_spk b)) batches →
  train_aco_cache false idx2spk batches
  = Ok (replicate (length batches) Init, Caches ∅ ∅).
Proof.
  intros Hknown. unfold StateCache.train_aco_cache. generalize 0%nat.
  induction Hknown as [|b rest Hb _ IH]; intros b_idx; [done|].
  cbn [run length replicate].
  rewrite (train_step_single_output _ _ _ Hb). cbn. by rewrite IH.
Qed.

Lemma step_covers (mo_model : bool) idx2spk b_idx b name c D
    (step := fun use_eval : bool =>
       if use_eval then eval_step mo_model false idx2spk b_idx b c
       else train_step true idx2spk b_idx b c) :
  idx2spk !! c_spk b = Some name → covers D c →
  ∀ use_eval, ∃ c',
    step use_eval = Ok (if bool_decide (name ∈ D) then Repackage else Init, c')
    ∧ covers ({[name]} ∪ D) c'.
Proof.
  intros Hb [Hh Ho] use_eval. unfold step, StateCache.eval_step,
    StateCache.train_step, MOLog.spk_name, fetch.
  rewrite Hb. cbn.
  destruct (spk2hid_states c !! name) as [h|] eqn:Eh.
  - assert (Hin : name ∈ D) by (rewrite <- Hh; apply elem_of_dom; by eexists).
    assert (Hino : is_Some (spk2out_states c !! name))
      by (apply elem_of_dom; by rewrite Ho).
    destruct Hino as [o Eo]. rewrite Eo. cbn.
    rewrite bool_decide_eq_true_2 by done.
    destruct (model _ _ _) as [h' o'].
    assert (Hsame : {[name]} ∪ D = D).
    { apply subseteq_union_1_L. by apply singleton_subseteq_l. }
    destruct use_eval, mo_model; cbn; eexists; (split; [reflexivity|]);
      unfold covers, store; cbn; rewrite ?dom_insert_L, ?Hh, ?Ho, ?Hsame;
      done.
  - assert (Hnin : name ∉ D).
    { rewrite <- Hh. intros [? ?]%elem_of_dom. congruence. }
    rewrite bool_decide_eq_false_2 by done. cbn.
    destruct (model _ _ _) as [h' o'].
    destruct use_eval, mo_model; cbn; eexists; (split; [reflexivity|]);
      unfold covers, store; cbn; rewrite ?dom_insert_L, ?Hh, ?Ho;
      rewrite ?(idemp_L (∪)), ?(assoc_L (∪)), ?(idemp_L (∪)); done.
Qed.

Lemma run_covers (mo_model use_eval : bool) idx2spk :
  ∀ batches pre b_idx c,
    Forall (fun b => is_Some (idx2spk !! c_spk b)) batches →
    covers (cnames idx2spk pre) c →
    ∃ c', run (if use_eval then eval_step mo_model false idx2spk
               else train_step true idx2spk) b_idx batches c
          = Ok (encounters idx2spk pre batches, c')
          ∧ covers (cnames idx2spk (pre ++ batches)) c'.
Proof.
  induction batches as [|b rest IH]; intros pre b_idx c Hknown Hc.
  - exists c. cbn. by rewrite app_nil_r.
  - apply Forall_cons in Hknown as [[name Hb] Hrest].
    destruct (step_covers mo_model idx2spk b_idx b name c _ Hb Hc use_eval)
      as (c1 & Hstep & Hc1).
    rewrite <- (cnames_snoc _ _ _ _ Hb) in Hc1.
    destruct (IH (pre ++ [b]) (S b_idx) c1 Hrest Hc1) as (c' & Hrun & Hc').
    exists c'. rewrite <- app_assoc in Hc'. split; [|exact Hc'].
    cbn [run encounters].
    assert (Hact : (if bool_decide (name ∈ cnames idx2spk pre)
                    then Repackage else Init)
                   = (if seen_before idx2spk pre b then Repackage else Init)).
    { destruct (seen_before idx2spk pre b) eqn:E.
      - apply (seen_before_names _ _ _ _ Hb) in E.
        by rewrite bool_decide_eq_true_2.
      - rewrite bool_decide_eq_false_2; [done|].
        intros Hin. apply (seen_before_names _ _ _ _ Hb) in Hin. congruence. }
    rewrite <- Hact.
    destruct use_eval; cbn in Hstep |- *; rewrite Hstep; cbn;
      rewrite Hrun; done.
Qed.

(** Property X21.  In [train_aco_epoch] with a multi-output model the
    states of a speaker are initialized at the speaker's first batch and
    repackaged at every later one, and the two caches end with one entry
    per speaker met. *)
Theorem train_multi_output_caches_per_speaker idx2spk
    (batches : list cbatch) :
  Forall (fun b => is_Some (idx2spk !! c_spk b)) batches →
  ∃ c, train_aco_cache true idx2spk batches
       = Ok (first_encounters idx2spk batches, c)
       ∧ dom (spk2hid_states c) = cnames idx2spk batches
       ∧ dom (spk2out_states c) = cnames idx2spk batches.
Proof.
  intros Hknown.
  destruct (run_covers true false idx2spk batches [] 0 (Caches ∅ ∅) Hknown)
    as (c & Hrun & Hh & Ho).
  { split; apply dom_empty_L. }
  exists c. done.
Qed.

(** Property X22.  In [eval_aco_epoch] without [reset_batch_state],
    whatever the model returns, the states of a speaker are initialized
    at the speaker's first batch and repackaged at every later one, and
    the two caches end with one entry per speaker met. *)
Theorem eval_caches_per_speaker (mo_model : bool) idx2spk
    (batches : list cbatch) :
  Forall (fun b => is_Some (idx2spk !! c_spk b)) batches →
  ∃ c, eval_aco_cache mo_model false idx2spk batches
       = Ok (first_encounters idx2spk batches, c)
       ∧ dom (spk2hid_states c) = cnames idx2spk batches
       ∧ dom (spk2out_states c) = cnames idx2spk batches.
Proof.
  intros Hknown.
  destruct (run_covers mo_model true idx2spk batches [] 0 (Caches ∅ ∅) Hknown)
    as (c & Hrun & Hh & Ho).
  { split; apply dom_empty_L. }
  exists c. done.
Qed.

Lemma eval_step_reset (mo_model : bool) idx2spk b_idx b :
  is_Some (idx2spk !! c_spk b) →
  eval_step mo_model true idx2spk b_idx b (Caches ∅ ∅)
  = Ok (Init, Caches ∅ ∅).
Proof.
  intros [name Hb]. unfold StateCache.eval_step, MOLog.spk_name, drop, store.
  rewrite Hb. cbn. rewrite lookup_empty. cbn.
  destruct (model _ _ _) as [h o].
  destruct mo_model; cbn; rewrite !lookup_insert_eq;
    (rewrite bool_decide_eq_true_2 by (split; by eexists)); cbn;
    rewrite ?delete_insert_eq, !delete_empty; done.
Qed.

(** Property X23.  In [eval_aco_epoch] with [reset_batch_state] every
    batch starts from freshly initialized states, the removal of the
    speaker's entries never raises, and the caches end empty. *)
Theorem eval_reset_never_carries_state (mo_model : bool) idx2spk
    (batches : list cbatch) :
  Forall (fun b => is_Some (idx2spk !! c_spk b)) batches →
  eval_aco_cache mo_model true idx2spk batches
  = Ok (replicate (length batches) Init, Caches ∅ ∅).
Proof.
  intros Hknown. unfold StateCache.eval_aco_cache. generalize 0%nat.
  induction Hknown as [|b rest Hb _ IH]; intros b_idx; [done|].
  cbn [run length replicate].
  rewrite (eval_step_reset _ _ _ _ Hb). cbn. by rewrite IH.
Qed.

End StateCacheFacts.

Section StateCacheExamples.
Import StateCache CacheExamples Examples.

Lemma toy_batches_known :
  Forall (fun b => is_Some (example_idx2spk !! c_spk b)) toy_batches.
Proof. repeat constructor; eexists; vm_compute; reflexivity. Qed.

Lemma train_single_output_never_caches_witness :
  train_aco_cache toy_init toy_init toy_repackage toy_model false
                  example_idx2spk toy_batches
  = Ok ([Init; Init; Init], Caches ∅ ∅).
Proof.
  exact (train_single_output_never_caches toy_init toy_init toy_repackage
           toy_model example_idx2spk toy_batches toy_batches_known).
Defined.

Lemma train_multi_output_caches_per_speaker_witness :
  ∃ c, train_aco_cache toy_init toy_init toy_repackage toy_model true
                       example_idx2spk toy_batches
       = Ok ([Init; Init; Repackage], c)
       ∧ dom (spk2hid_states c) = cnames example_idx2spk toy_batches
       ∧ dom (spk2out_states c) = cnames example_idx2spk toy_batches.
Proof.
  exact (train_multi_output_caches_per_speaker toy_init toy_init
           toy_repackage toy_model example_idx2spk toy_batches
           toy_batches_known).
Defined.

Lemma eval_caches_per_speaker_witness :
  ∃ c, eval_aco_cache toy_init toy_init toy_repackage toy_model false false
                      example_idx2spk toy_batches
       = Ok ([Init; Init; Repackage], c)
       ∧ dom (spk2hid_states c) = cnames example_idx2spk toy_batches
       ∧ dom (spk2out_states c) = cnames example_idx2spk toy_batches.
Proof.
  exact (eval_caches_per_speaker toy_init toy_init toy_repackage toy_model
           false example_idx2spk toy_batches toy_batches_known).
Defined.

Lemma eval_reset_never_carries_state_witness :
  eval_aco_cache toy_init toy_init toy_repackage toy_model true true
                 example_idx2spk toy_batches
  = Ok ([Init; Init; Init], Caches ∅ ∅).
Proof.
  exact (eval_reset_never_carries_state toy_init toy_init toy_repackage
           toy_model true example_idx2spk toy_batches toy_batches_known).
Defined.

End StateCacheExamples.

Section PostProcMoreFacts.
Import PostProc.
Open Scope Q_scope.

Lemma np_round_value (x : Q) : ∃ z : Z, np_round x = inject_Z z
  ∧ (inject_Z z - (1#2) <= x ∧ x <= inject_Z z + (1#2)).
Proof.
  unfold np_round.
  pose proof (Qfloor_le x) as Hlo. pose proof (Qlt_floor x) as Hhi.
  rewrite inject_Z_plus in Hhi. change (inject_Z 1) with 1 in Hhi.
  set (f := Qfloor x) in *.
  destruct (Qltb (x - inject_Z f) (1 # 2)) eqn:E1.
  - exists f. split; [done|]. apply Qltb_lt in E1. lra.
  - apply Qltb_ge in E1.
    destruct (Qltb (1 # 2) (x - inject_Z f)) eqn:E2.
    + exists (f + 1)%Z. split; [done|]. rewrite inject_Z_plus.
      change (inject_Z 1) with 1. lra.
    + apply Qltb_ge in E2. destruct (Z.even f).
      * exists f. split; [done|]. lra.
      * exists (f + 1)%Z. split; [done|]. rewrite inject_Z_plus.
        change (inject_Z 1) with 1. lra.
Qed.

Lemma np_round_zero_iff (x : Q) :
  np_round x == 0 ↔ - (1 # 2) <= x ∧ x <= 1 # 2.
Proof.
  split.
  - intros H0. destruct (np_round_value x) as (z & Hz & Hlo & Hhi).
    rewrite Hz in H0. lra.
  - intros [Hlo Hhi]. unfold np_round.
    pose proof (Qfloor_le x) as Hf1. pose proof (Qlt_floor x) as Hf2.
    rewrite inject_Z_plus in Hf2. change (inject_Z 1) with 1 in Hf2.
    assert (Hf : Qfloor x = 0%Z ∨ Qfloor x = (-1)%Z).
    { assert (H1 : (Qfloor x < 1)%Z).
      { rewrite Zlt_Qlt. change (inject_Z 1) with 1. lra. }
      assert (H2 : (-2 < Qfloor x)%Z).
      { rewrite Zlt_Qlt. change (inject_Z (-2)) with (-2). lra. }
      lia. }
    destruct Hf as [Hf|Hf]; rewrite Hf in *.
    + change (inject_Z 0) with 0 in *.
      destruct (Qltb (x - 0) (1 # 2)) eqn:E1; [reflexivity|].
      destruct (Qltb (1 # 2) (x - 0)) eqn:E2; [|reflexivity].
      apply Qltb_lt in E2. lra.
    + change (inject_Z (-1)) with (-1) in *.
      destruct (Qltb (x - -1) (1 # 2)) eqn:E1.
      { apply Qltb_lt in E1. lra. }
      destruct (Qltb (1 # 2) (x - -1)) eqn:E2; reflexivity.
Qed.

Lemma column_lookup (k : nat) (acot : list (list Q)) (i : nat) :
  (i < length acot)%nat → is_Some (column_from_end k acot !! i).
Proof.
  intros Hi. apply lookup_lt_is_Some. by rewrite length_column_from_end.
Qed.

Lemma postprocess_lengths (acot : list (list Q)) (ch : channels) :
  postprocess acot = Ok ch →
  length (fv ch) = length acot ∧ length (lf0 ch) = length acot
  ∧ length (uv ch) = length acot.
Proof.
  intros Hpost. destruct (postprocess_ok _ _ Hpost) as (Huv & Hfv & Hlf0).
  rewrite Hfv, Hlf0, Huv.
  by rewrite !length_assign_at, fv_marked_length, length_map,
    !length_column_from_end.
Qed.

(** Property X25.  Post-processing returns exactly when every row of
    the acoustic output has at least three entries, and then keeps one
    value per frame in the tilt, log-F0 and voicing channels; otherwise
    it raises [IndexError].  Its assertion on the channel lengths never
    fails. *)
Theorem postprocess_succeeds_on_wide_rows (acot : list (list Q)) :
  (Forall (fun row => (3 ≤ length row)%nat) acot →
     ∃ ch, postprocess acot = Ok ch
           ∧ length (fv ch) = length acot
           ∧ length (lf0 ch) = length acot
           ∧ length (uv ch) = length acot)
  ∧ (¬ Forall (fun row => (3 ≤ length row)%nat) acot →
     postprocess acot = Raise IndexError)
  ∧ postprocess acot ≠ Raise AssertionError.
Proof.
  assert (Hwide : forallb (fun row => (3 <=? length row)%nat) acot = true
                  ↔ Forall (fun row => (3 ≤ length row)%nat) acot).
  { rewrite forallb_forall, Forall_forall. split; intros H row Hin.
    - apply Nat.leb_le, H. by apply list_elem_of_In.
    - apply Nat.leb_le, H. by apply list_elem_of_In. }
  assert (Hok : forallb (fun row => (3 <=? length row)%nat) acot = true →
                ∃ ch, postprocess acot = Ok ch).
  { intros H. unfold postprocess. rewrite H.
    rewrite (proj2 (Nat.eqb_eq _ _)); [by eexists|].
    by rewrite !length_assign_at, length_map, !length_column_from_end. }
  split; [|split].
  - intros H. destruct (Hok (proj2 Hwide H)) as [ch Hch].
    exists ch. split; [done|]. by apply postprocess_lengths.
  - intros H. unfold postprocess.
    destruct (forallb _ acot) eqn:E; [|done]. exfalso. by apply H, Hwide.
  - destruct (forallb (fun row => (3 <=? length row)%nat) acot) eqn:E.
    + destruct (Hok eq_refl) as [ch ->]. done.
    + unfold postprocess. by rewrite E.
Qed.

(** Property X26.  A frame whose raw voicing value lies in
    [-1/2, 1/2] gets the tilt 1000.0 and the log-F0 -1e10; a frame whose
    raw voicing value lies outside keeps its log-F0, and keeps its tilt
    when that is at least 1000. *)
Theorem voicing_threshold (acot : list (list Q)) (ch : channels)
    (i : nat) (x : Q) :
  postprocess acot = Ok ch →
  column_from_end 1 acot !! i = Some x →
  (- (1 # 2) <= x ∧ x <= 1 # 2 →
     fv ch !! i = Some 1000 ∧ lf0 ch !! i = Some (-10000000000))
  ∧ (x < - (1 # 2) ∨ 1 # 2 < x →
     lf0 ch !! i = column_from_end 2 acot !! i
     ∧ (∀ y, column_from_end 3 acot !! i = Some y → 1000 <= y →
          fv ch !! i = Some y)).
Proof.
  intros Hpost Hx. destruct (postprocess_ok _ _ Hpost) as (Huv & Hfv & Hlf0).
  assert (Hu : map np_round (column_from_end 1 acot) !! i = Some (np_round x))
    by by rewrite list_lookup_fmap, Hx.
  split.
  - intros Hrange.
    destruct (unvoiced_index acot i (np_round x) Hu
                (proj2 (np_round_zero_iff x) Hrange)) as [Hin Hlen].
    split.
    + rewrite Hfv.
      assert (Hmark : fv_marked acot !! i = Some unvoiced_fv).
      { unfold fv_marked. apply assign_at_in; [done|].
        by rewrite length_column_from_end. }
      destruct (decide (i ∈ np_where (map (fun f => Qltb f 1000)
                                          (fv_marked acot)))) as [Hw|Hw].
      * apply assign_at_in; [done|]. by rewrite fv_marked_length.
      * by rewrite assign_at_notin.
    + rewrite Hlf0, Huv. apply assign_at_in; [done|].
      by rewrite length_column_from_end.
  - intros Hout.
    assert (Hnz : ¬ np_round x == 0).
    { intros H0. apply np_round_zero_iff in H0. lra. }
    assert (Hnot : i ∉ np_where (map (fun u => Qeq_bool u 0)
                     (map np_round (column_from_end 1 acot)))).
    { rewrite elem_of_np_where, list_lookup_fmap, Hu. cbn. intros [= E].
      by apply Qeq_bool_iff in E. }
    split.
    + rewrite Hlf0, Huv. by apply assign_at_notin.
    + intros y Hy Hge. rewrite Hfv.
      assert (Hmark : fv_marked acot !! i = Some y).
      { unfold fv_marked. by rewrite assign_at_notin. }
      rewrite assign_at_notin; [done|].
      rewrite elem_of_np_where, list_lookup_fmap, Hmark. cbn. intros [= E].
      apply Qltb_lt in E. lra.
Qed.

Lemma postprocess_succeeds_on_wide_rows_witness :
  (∃ ch, postprocess Examples.example_acot = Ok ch
         ∧ length (fv ch) = 2%nat ∧ length (lf0 ch) = 2%nat
         ∧ length (uv ch) = 2%nat)
  ∧ postprocess [[1; 2]] = Raise IndexError.
Proof.
  destruct (postprocess_succeeds_on_wide_rows Examples.example_acot)
    as (Hok & _ & _).
  destruct (postprocess_succeeds_on_wide_rows [[1; 2]]) as (_ & Hbad & _).
  split.
  - apply Hok. repeat constructor.
  - apply Hbad. intros H. inversion H as [|? ? Hlen _]. cbn in Hlen. lia.
Defined.

Lemma voicing_threshold_witness :
  ∃ ch, postprocess Examples.example_acot = Ok ch
        ∧ (fv ch !! 0%nat = Some 1000 ∧ lf0 ch !! 0%nat = Some (-10000000000))
        ∧ lf0 ch !! 1%nat = Some 5.1.
Proof.
  eexists. split; [vm_compute; reflexivity|]. split.
  - refine (proj1 (voicing_threshold Examples.example_acot _ 0%nat 0.2 _ _) _);
      [vm_compute; reflexivity | reflexivity | split; discriminate].
  - refine (proj1 (proj2 (voicing_threshold Examples.example_acot _ 1%nat 0.9
                            _ _) _));
      [vm_compute; reflexivity | reflexivity | right; reflexivity].
Defined.

End PostProcMoreFacts.
